(** * The screener compiler: compute graph, optimizer and SQL emitter

    A shallow embedding of [src/compiler/compute-graph.ts], of the helpers of
    [src/compiler/index.ts] and of the ClickHouse emitter
    ([src/compiler/sql/clickhouse.ts]), with the properties of the
    specification stated and settled against them. *)

From Stdlib Require Import String Ascii List ZArith Lia Bool Arith PeanoNat Relations.
From Stdlib Require DecimalString DecimalNat.
Import ListNotations.
Open Scope list_scope.
Open Scope string_scope.

Set Implicit Arguments.
Set Warnings "-register-all".

(** ** JavaScript built-ins used by the sources *)

Module JS.

(** [Array.prototype.includes] on an array of strings. *)
Definition includes (x : string) (l : list string) : bool :=
  existsb (String.eqb x) l.

(** [[...new Set(l)]]: first occurrences, in order. *)
Fixpoint uniq_acc (seen l : list string) : list string :=
  match l with
  | [] => []
  | x :: r => if includes x seen then uniq_acc seen r else x :: uniq_acc (x :: seen) r
  end.

Definition uniq (l : list string) : list string := uniq_acc [] l.

(** [Array.prototype.sort()] without comparator on strings: code-unit
    order, stable.  Written as an insertion sort. *)
Fixpoint insert_sorted (x : string) (l : list string) : list string :=
  match l with
  | [] => [x]
  | y :: r => if String.leb x y then x :: y :: r else y :: insert_sorted x r
  end.

Definition sort (l : list string) : list string :=
  fold_right insert_sorted [] l.

(** [Array.prototype.join]. *)
Definition join (sep : string) (l : list string) : string := String.concat sep l.

(** [String.prototype.includes]. *)
Definition str_includes (needle hay : string) : bool :=
  match String.index 0 needle hay with
  | Some _ => true
  | None => match needle with EmptyString => true | _ => false end
  end.

(** [String.prototype.startsWith]. *)
Definition startsWith (p s : string) : bool := String.prefix p s.

(** [String.prototype.slice(0, n)]. *)
Definition slice0 (n : nat) (s : string) : string := String.substring 0 n s.

(** [String(n)] for a non-negative integer. *)
Definition String_nat (n : nat) : string := DecimalString.NilZero.string_of_uint (Nat.to_uint n).

(** [String(n)] for an integer-valued number. *)
Definition String_Z (z : Z) : string :=
  match z with
  | Z0 => "0"
  | Zpos p => String_nat (Pos.to_nat p)
  | Zneg p => "-" ++ String_nat (Pos.to_nat p)
  end.

Definition upper_ascii (c : ascii) : ascii :=
  let n := nat_of_ascii c in
  if andb (Nat.leb 97 n) (Nat.leb n 122) then ascii_of_nat (n - 32) else c.

(** [String.prototype.toUpperCase] on ASCII text. *)
Fixpoint toUpperCase (s : string) : string :=
  match s with
  | EmptyString => EmptyString
  | String c r => String (upper_ascii c) (toUpperCase r)
  end.

(** [s.replace(/-/g, r)] and [s.replace('-', r)] on single characters. *)
Fixpoint replaceAll_char (c : ascii) (r : string) (s : string) : string :=
  match s with
  | EmptyString => EmptyString
  | String d t => if Ascii.eqb c d then r ++ replaceAll_char c r t
                  else String d (replaceAll_char c r t)
  end.

Fixpoint replaceFirst_char (c : ascii) (r : string) (s : string) : string :=
  match s with
  | EmptyString => EmptyString
  | String d t => if Ascii.eqb c d then r ++ t else String d (replaceFirst_char c r t)
  end.

End JS.

(** ** Errors and results *)

Abbreviation NodeID := string (only parsing).

(** The exceptions the sources throw, by their message, and the runtime
    errors of the language where the sources can meet them. *)
Inductive Error : Type :=
| CycleDetected (nodeId : NodeID)
    (* Cycle detected in graph involving node <nodeId> *)
| NodeNotFound (nodeId : NodeID)
    (* Node <nodeId> referenced but not found in graph *)
| DanglingReference (nodeId inputId : NodeID)
    (* Node <nodeId> references non-existent input <inputId> *)
| MixedTypeArray
    (* Mixed type arrays as parameters are not supported. *)
| UnsupportedArrayType
| NoUserQuery
| UnknownMetric (metric : string)
| GroupingDimensionNotFound (dimension : string)
| NoCommonPK (t1 t2 : string)
| UnsupportedAggregation (aggregation : string)
| InvalidAggregationTarget
| RangeError (what : string)
| TypeError (what : string)
| OutOfFuel.

Inductive result (A : Type) : Type :=
| Ok (a : A)
| Err (e : Error).

Arguments Ok {A} a.
Arguments Err {A} e.

Definition isOk {A} (r : result A) : bool :=
  match r with Ok _ => true | Err _ => false end.

(** A [for ... of] loop whose body may throw. *)
Fixpoint forM {A S : Type} (body : A -> S -> result S) (l : list A) (s : S) : result S :=
  match l with
  | [] => Ok s
  | x :: r => match body x s with
              | Ok s' => forM body r s'
              | Err e => Err e
              end
  end.

(** A [Record<string, V>] whose keys are not array indices: own keys are kept
    in insertion order, assignment to an existing key keeps its place. *)
Module Dict.

Definition t (V : Type) := list (string * V).

Fixpoint get {V} (k : string) (d : t V) : option V :=
  match d with
  | [] => None
  | (k', v) :: r => if String.eqb k k' then Some v else get k r
  end.

Fixpoint set {V} (k : string) (v : V) (d : t V) : t V :=
  match d with
  | [] => [(k, v)]
  | (k', v') :: r => if String.eqb k k' then (k, v) :: r else (k', v') :: set k v r
  end.

Definition keys {V} (d : t V) : list string := map fst d.
Definition values {V} (d : t V) : list V := map snd d.

End Dict.

(** ** Data model of the query ([types.d.ts]) *)

Section Values.

(** The representation of JavaScript numbers is left open here. *)
Variable number : Type.

Inductive Scalar : Type :=
| SString (s : string)
| SNumber (n : number)
| SBoolean (b : bool).

(** [string | number | boolean | string[] | number[]]; the emitter also
    has a branch for arrays of booleans. *)
Inductive Value : Type :=
| VString (s : string)
| VNumber (n : number)
| VBoolean (b : bool)
| VArray (elems : list Scalar).

Inductive JSType : Type := TString | TNumber | TBoolean.

Definition typeof (x : Scalar) : JSType :=
  match x with
  | SString _ => TString
  | SNumber _ => TNumber
  | SBoolean _ => TBoolean
  end.

Definition JSType_eqb (a b : JSType) : bool :=
  match a, b with
  | TString, TString | TNumber, TNumber | TBoolean, TBoolean => true
  | _, _ => false
  end.

End Values.

Arguments SString {number} s.
Arguments SBoolean {number} b.
Arguments VString {number} s.
Arguments VBoolean {number} b.

Inductive TimeUnit : Type := second | minute | hour | day | week | month | year.

Definition TimeUnit_name (u : TimeUnit) : string :=
  match u with
  | second => "second" | minute => "minute" | hour => "hour" | day => "day"
  | week => "week" | month => "month" | year => "year"
  end.

(** Numbers of the query are integer-valued here (timestamps in seconds,
    durations, limits, integer constants), so that [String(n)] is the decimal
    numeral of [JS.String_Z]. *)
Inductive TimeRange : Type :=
| Absolute (from to : Z)
| Relative (duration : Z) (unit_ : TimeUnit) (at_ : option Z)
| Trading (duration : Z) (unit_ : TimeUnit) (at_ : option Z).

(** [Expression] and [Filter]; the fields [comment] and [params] are read by
    none of the functions below and are left out. *)
Inductive Expression : Type :=
| Constant (value : Value Z) (alias : option string)
| Metric (metric : string) (filter : option Filter) (alias : option string)
| Math (operator : string) (operands : list Expression) (alias : option string)
| Aggregate (target : Expression) (aggregation : string)
            (time_range : option TimeRange) (filter : option Filter)
            (alias : option string)
with Filter : Type :=
| Simple (target : Expression) (op : string) (value : Expression)
| Composite (operator : string) (filters : list Filter).

Definition expr_alias (e : Expression) : option string :=
  match e with
  | Constant _ a | Metric _ _ a | Math _ _ a | Aggregate _ _ _ _ a => a
  end.

Inductive GroupingCriteria : Type :=
| GroupDimension (dimension : string)
| GroupTopN (dimension : string) (limit : Z) (expression : option Expression).

Record SortCriteria : Type := {
  sc_expression : Expression;
  sc_direction : string
}.

Record UserQuery : Type := {
  uq_filter : Filter;
  group_by : option (list GroupingCriteria);
  sort_by : option (list SortCriteria);
  uq_limit : option Z
}.

(** ** Configuration *)

Module TableConfig.
Record t : Type := {
  name : string;
  timeColumn : option string;
  primaryKeys : list string;
  alwaysIncludeColumns : option (list string)
}.
End TableConfig.

Module ColumnConfig.
Record t : Type := {
  table : string;
  column : string
}.
End ColumnConfig.

Record QueryBuilderConfig : Type := {
  tables : Dict.t TableConfig.t;
  columnMappings : Dict.t ColumnConfig.t
}.

(** ** Compute nodes *)

Inductive NodeType : Type :=
| T_source | T_filter | T_composite_filter | T_projection | T_aggregation
| T_expression | T_sort | T_limit | T_join | T_aggregate.

Definition NodeType_eqb (a b : NodeType) : bool :=
  match a, b with
  | T_source, T_source | T_filter, T_filter
  | T_composite_filter, T_composite_filter | T_projection, T_projection
  | T_aggregation, T_aggregation | T_expression, T_expression
  | T_sort, T_sort | T_limit, T_limit | T_join, T_join
  | T_aggregate, T_aggregate => true
  | _, _ => false
  end.

Definition NodeType_name (t : NodeType) : string :=
  match t with
  | T_source => "source" | T_filter => "filter"
  | T_composite_filter => "composite-filter" | T_projection => "projection"
  | T_aggregation => "aggregation" | T_expression => "expression"
  | T_sort => "sort" | T_limit => "limit" | T_join => "join"
  | T_aggregate => "aggregate"
  end.

Record NodeMetadata : Type := {
  isGrouping : option bool;
  isGrouped : option bool;
  groupDimension : option string;
  offset : option Z;
  md_limit : option Z;
  isRequiredProjection : option bool;
  hasParameter : option bool;
  isParameter : option bool
}.

Definition no_metadata : NodeMetadata :=
  {| isGrouping := None; isGrouped := None; groupDimension := None;
     offset := None; md_limit := None; isRequiredProjection := None;
     hasParameter := None; isParameter := None |}.

(** One side of a filter condition:
    [{input, metric} | {parameter} | Expression]. *)
Inductive Side : Type :=
| SInput (input : NodeID) (metric : string)
| SParam (parameter : string)
| SExpr (e : Expression).

Record Condition : Type := {
  left : Side;
  right : Side;
  cond_op : string
}.

Record Criterion : Type := {
  crit_expression : string;
  direction : string
}.

Inductive ColumnSpec : Type :=
| ColName (name : string)
| ColExpr (expression : Expression).

Record Column : Type := {
  col : ColumnSpec;
  col_alias : option string;
  sourceNode : option NodeID
}.

Record JoinCondition : Type := {
  jc_left : NodeID * string;
  jc_right : NodeID * string;
  jc_op : string
}.

(** A node object.  The variants of the [ComputeNode] union differ by the
    fields they carry, and the sources test for them with [in]; a field that
    the object does not have is [None]. *)
Record ComputeNode : Type := {
  id : NodeID;
  type : NodeType;
  inputs : list NodeID;
  isTerminal : option bool;
  metadata : option NodeMetadata;
  table : option string;
  timeColumn : option string;
  columns : option (list Column);
  expression : option Expression;
  alias : option string;
  condition : option Condition;
  operator : option string;
  criteria : option (list Criterion);
  limit : option Z;
  joinType : option string;
  joinConditions : option (list JoinCondition)
}.

Definition mkNode (i : NodeID) (t : NodeType) (ins : list NodeID) : ComputeNode :=
  {| id := i; type := t; inputs := ins; isTerminal := None; metadata := None;
     table := None; timeColumn := None; columns := None; expression := None;
     alias := None; condition := None; operator := None; criteria := None;
     limit := None; joinType := None; joinConditions := None |}.

Definition set_inputs (ins : list NodeID) (n : ComputeNode) : ComputeNode :=
  {| id := id n; type := type n; inputs := ins; isTerminal := isTerminal n;
     metadata := metadata n; table := table n; timeColumn := timeColumn n;
     columns := columns n; expression := expression n; alias := alias n;
     condition := condition n; operator := operator n; criteria := criteria n;
     limit := limit n; joinType := joinType n;
     joinConditions := joinConditions n |}.

Definition set_isTerminal (b : bool) (n : ComputeNode) : ComputeNode :=
  {| id := id n; type := type n; inputs := inputs n; isTerminal := Some b;
     metadata := metadata n; table := table n; timeColumn := timeColumn n;
     columns := columns n; expression := expression n; alias := alias n;
     condition := condition n; operator := operator n; criteria := criteria n;
     limit := limit n; joinType := joinType n;
     joinConditions := joinConditions n |}.

Definition set_metadata (m : option NodeMetadata) (n : ComputeNode) : ComputeNode :=
  {| id := id n; type := type n; inputs := inputs n; isTerminal := isTerminal n;
     metadata := m; table := table n; timeColumn := timeColumn n;
     columns := columns n; expression := expression n; alias := alias n;
     condition := condition n; operator := operator n; criteria := criteria n;
     limit := limit n; joinType := joinType n;
     joinConditions := joinConditions n |}.

Definition set_columns (c : option (list Column)) (n : ComputeNode) : ComputeNode :=
  {| id := id n; type := type n; inputs := inputs n; isTerminal := isTerminal n;
     metadata := metadata n; table := table n; timeColumn := timeColumn n;
     columns := c; expression := expression n; alias := alias n;
     condition := condition n; operator := operator n; criteria := criteria n;
     limit := limit n; joinType := joinType n;
     joinConditions := joinConditions n |}.

Definition set_condition (c : option Condition) (n : ComputeNode) : ComputeNode :=
  {| id := id n; type := type n; inputs := inputs n; isTerminal := isTerminal n;
     metadata := metadata n; table := table n; timeColumn := timeColumn n;
     columns := columns n; expression := expression n; alias := alias n;
     condition := c; operator := operator n; criteria := criteria n;
     limit := limit n; joinType := joinType n;
     joinConditions := joinConditions n |}.

Definition set_criteria (c : option (list Criterion)) (n : ComputeNode) : ComputeNode :=
  {| id := id n; type := type n; inputs := inputs n; isTerminal := isTerminal n;
     metadata := metadata n; table := table n; timeColumn := timeColumn n;
     columns := columns n; expression := expression n; alias := alias n;
     condition := condition n; operator := operator n; criteria := c;
     limit := limit n; joinType := joinType n;
     joinConditions := joinConditions n |}.

Definition set_alias (a : option string) (n : ComputeNode) : ComputeNode :=
  {| id := id n; type := type n; inputs := inputs n; isTerminal := isTerminal n;
     metadata := metadata n; table := table n; timeColumn := timeColumn n;
     columns := columns n; expression := expression n; alias := a;
     condition := condition n; operator := operator n; criteria := criteria n;
     limit := limit n; joinType := joinType n;
     joinConditions := joinConditions n |}.

(** The [metadata?.field] reads of the sources. *)
Definition md_flag (f : NodeMetadata -> option bool) (n : ComputeNode) : bool :=
  match metadata n with
  | Some m => match f m with Some b => b | None => false end
  | None => false
  end.

(** [{ ...n.metadata, hasParameter: true }] *)
Definition spread_hasParameter (m : option NodeMetadata) : NodeMetadata :=
  let b := match m with Some b => b | None => no_metadata end in
  {| isGrouping := isGrouping b; isGrouped := isGrouped b;
     groupDimension := groupDimension b; offset := offset b;
     md_limit := md_limit b; isRequiredProjection := isRequiredProjection b;
     hasParameter := Some true; isParameter := isParameter b |}.

(** ** The graph ([class ComputeGraph]) *)

(** [this.nodes] is kept as the list of its values in insertion order; the
    key of a node is its [id], as [addNode] files it. *)
Definition lookup (i : NodeID) (ns : list ComputeNode) : option ComputeNode :=
  find (fun n => String.eqb (id n) i) ns.

Definition has (i : NodeID) (ns : list ComputeNode) : bool :=
  match lookup i ns with Some _ => true | None => false end.

(** Mutation of the node object filed under [i]. *)
Fixpoint update (i : NodeID) (f : ComputeNode -> ComputeNode)
         (ns : list ComputeNode) : list ComputeNode :=
  match ns with
  | [] => []
  | n :: r => if String.eqb (id n) i then f n :: r else n :: update i f r
  end.

(** [this.nodes[node.id] = node] *)
Fixpoint store (node : ComputeNode) (ns : list ComputeNode) : list ComputeNode :=
  match ns with
  | [] => [node]
  | m :: r => if String.eqb (id m) (id node) then node :: r else m :: store node r
  end.

(** [delete this.nodes[i]] *)
Definition delete (i : NodeID) (ns : list ComputeNode) : list ComputeNode :=
  filter (fun n => negb (String.eqb (id n) i)) ns.

(** [Object.keys(this.nodes)] *)
Definition keys (ns : list ComputeNode) : list NodeID := map id ns.

Definition addNode_nodes (node : ComputeNode) (ns : list ComputeNode)
  : list ComputeNode :=
  let ns1 := store node ns in
  let ns2 := fold_left (fun acc inputId => update inputId (set_isTerminal false) acc)
                       (inputs node) ns1 in
  update (id node) (set_isTerminal true) ns2.

(** The [forEach] of [removeNode], which runs while the node is still filed
    in [this.nodes]. *)
Definition isStillReferenced (inputId : NodeID) (ns : list ComputeNode) : bool :=
  existsb (fun n => JS.includes inputId (inputs n)) ns.

Definition adjust_step (acc : list ComputeNode) (inputId : NodeID) : list ComputeNode :=
  match lookup inputId acc with
  | Some _ => update inputId (set_isTerminal (negb (isStillReferenced inputId acc))) acc
  | None => acc
  end.

Definition removeNode_adjust (node : ComputeNode) (ns : list ComputeNode)
  : list ComputeNode :=
  fold_left adjust_step (inputs node) ns.

Definition removeNode_nodes (i : NodeID) (ns : list ComputeNode) : list ComputeNode :=
  match lookup i ns with
  | None => ns
  | Some node => delete i (removeNode_adjust node ns)
  end.

(** [findDependentNodes] *)
Definition findDependentNodes_nodes (nodeId : NodeID) (ns : list ComputeNode)
  : list ComputeNode :=
  filter (fun n => JS.includes nodeId (inputs n)) ns.

(** *** [getExecutionOrder] *)

Record VisitState : Type := {
  visited : list NodeID;
  processing : list NodeID;
  orderedNodes : list ComputeNode
}.

(** [Set.prototype.add] and [Set.prototype.delete] *)
Definition set_add (x : string) (s : list string) : list string :=
  if JS.includes x s then s else (s ++ [x])%list.

Definition set_delete (x : string) (s : list string) : list string :=
  filter (fun y => negb (String.eqb y x)) s.

(** The closure [visit]; the recursion of the source is bounded by [fuel]
    here, and [getExecutionOrder] gives it more than it can use
    (see [getExecutionOrder_fuel]). *)
Fixpoint visit (fuel : nat) (ns : list ComputeNode) (nodeId : NodeID)
         (st : VisitState) : result VisitState :=
  match fuel with
  | O => Err OutOfFuel
  | S fuel' =>
      if JS.includes nodeId (processing st) then Err (CycleDetected nodeId)
      else if JS.includes nodeId (visited st) then Ok st
      else
        match lookup nodeId ns with
        | None => Err (NodeNotFound nodeId)
        | Some node =>
            let st1 := {| visited := visited st;
                          processing := set_add nodeId (processing st);
                          orderedNodes := orderedNodes st |} in
            match forM (fun inputId s =>
                          if has inputId ns then visit fuel' ns inputId s
                          else Err (DanglingReference nodeId inputId))
                       (inputs node) st1 with
            | Err e => Err e
            | Ok st2 =>
                Ok {| visited := set_add nodeId (visited st2);
                      processing := set_delete nodeId (processing st2);
                      orderedNodes := (orderedNodes st2 ++ [node])%list |}
            end
        end
  end.

Definition visit_init : VisitState :=
  {| visited := []; processing := []; orderedNodes := [] |}.

Definition getExecutionOrder_fuel (fuel : nat) (ns : list ComputeNode)
  : result (list ComputeNode) :=
  let sourceNodes :=
    map id (filter (fun n => NodeType_eqb (type n) T_source) ns) in
  match forM (visit fuel ns) sourceNodes visit_init with
  | Err e => Err e
  | Ok st1 =>
      match forM (visit fuel ns) (keys ns) st1 with
      | Err e => Err e
      | Ok st2 => Ok (orderedNodes st2)
      end
  end.

Definition getExecutionOrder_nodes (ns : list ComputeNode) : result (list ComputeNode) :=
  getExecutionOrder_fuel (S (length ns)) ns.

(** *** [createParameter] *)

Section CreateParameter.

Variable number : Type.
(** [String(n)] on numbers. *)
Variable String_number : number -> string.

Definition paramName (i : nat) : string := "param_" ++ JS.String_nat i.

Definition placeholder (name type_ : string) : string :=
  "{" ++ name ++ ": " ++ type_ ++ "}".

(** [op?.includes('LIKE')] *)
Definition op_includes_LIKE (op : option string) : bool :=
  match op with
  | Some o => JS.str_includes "LIKE" o
  | None => false
  end.

(** The method, on the [parameters] table it reads and writes; the result
    is the returned string and the table afterwards. *)
Definition createParameter (value : Value number) (op : option string)
           (parameters : Dict.t (Value number))
  : result (string * Dict.t (Value number)) :=
  let paramLength := List.length (Dict.keys parameters) in
  let paramName := paramName (paramLength + 1) in
  let value :=
    match value with
    | VString s => if op_includes_LIKE op then VString ("%" ++ s ++ "%") else value
    | _ => value
    end in
  match value with
  | VNumber n => Ok (String_number n, parameters)
  | VBoolean b => Ok (if b then "1" else "0", parameters)
  | VString _ =>
      Ok (placeholder paramName "String", Dict.set paramName value parameters)
  | VArray [] => Ok ("[]", parameters)
  | VArray (v0 :: rest) =>
      if negb (forallb (fun v => JSType_eqb (typeof v) (typeof v0)) (v0 :: rest))
      then Err MixedTypeArray
      else
        let type_ :=
          match typeof v0 with
          | TString => "Array(String)"
          | TNumber => "Array(Float64)"
          | TBoolean => "Array(Boolean)"
          end in
        Ok (placeholder paramName type_, Dict.set paramName value parameters)
  end.

(** The table of a graph after a sequence of calls, the first on a fresh
    graph; a call that throws leaves the table as it was. *)
Definition parametersAfter (calls : list (Value number * option string))
  : Dict.t (Value number) :=
  fold_left
    (fun ps c =>
       match createParameter (fst c) (snd c) ps with
       | Ok (_, ps') => ps'
       | Err _ => ps
       end)
    calls [].

(** The names a table holds are [param_1], [param_2], ... in this order. *)
Definition named_in_order (ps : Dict.t (Value number)) : Prop :=
  Dict.keys ps = map paramName (seq 1 (List.length ps)).

Definition sameType (l : list (Scalar number)) : bool :=
  match l with
  | [] => true
  | v0 :: _ => forallb (fun v => JSType_eqb (typeof v) (typeof v0)) l
  end.

Definition arrayType (v0 : Scalar number) : string :=
  match typeof v0 with
  | TString => "Array(String)"
  | TNumber => "Array(Float64)"
  | TBoolean => "Array(Boolean)"
  end.

End CreateParameter.

(** ** [Date]: the built-in behind [new Date(ms).toISOString()] *)

Module JSDate.

Local Open Scope Z_scope.

Definition msPerDay : Z := 86400000.

(** Largest time value of a valid [Date]. *)
Definition maxTime : Z := 8640000000000000.

(** Day number of a time value (days since 1970-01-01, rounded down). *)
Definition Day (t : Z) : Z := t / msPerDay.

(** Proleptic Gregorian date (year, month, day) of a day number. *)
Definition civil_from_days (days : Z) : Z * Z * Z :=
  let z := days + 719468 in
  let era := z / 146097 in
  let doe := z - era * 146097 in
  let yoe := (doe - doe / 1460 + doe / 36524 - doe / 146096) / 365 in
  let y := yoe + era * 400 in
  let doy := doe - (365 * yoe + yoe / 4 - yoe / 100) in
  let mp := (5 * doy + 2) / 153 in
  let d := doy - (153 * mp + 2) / 5 + 1 in
  let m := if mp <? 10 then mp + 3 else mp - 9 in
  (if m <=? 2 then y + 1 else y, m, d).

(** Decimal numeral of a non-negative number, left-padded with zeros. *)
Fixpoint zeros (n : nat) : string :=
  match n with O => EmptyString | S k => String "0" (zeros k) end.

Definition pad (width : nat) (z : Z) : string :=
  let s := JS.String_Z z in
  (zeros (width - String.length s) ++ s)%string.

(** Years 0 to 9999 print with four digits, the others with a sign and
    six digits. *)
Definition year_string (y : Z) : string :=
  if andb (0 <=? y) (y <=? 9999) then pad 4 y
  else if y <? 0 then ("-" ++ pad 6 (- y))%string
  else ("+" ++ pad 6 y)%string.

Definition date_string (days : Z) : string :=
  let '(y, m, d) := civil_from_days days in
  (year_string y ++ "-" ++ pad 2 m ++ "-" ++ pad 2 d)%string.

(** [new Date(t).toISOString()]; a time value out of range makes an
    invalid date, on which the method throws. *)
Definition toISOString (t : Z) : result string :=
  if andb (- maxTime <=? t) (t <=? maxTime) then
    let ms := t mod msPerDay in
    Ok (date_string (Day t) ++ "T" ++ pad 2 (ms / 3600000) ++ ":"
        ++ pad 2 ((ms / 60000) mod 60) ++ ":" ++ pad 2 ((ms / 1000) mod 60)
        ++ "." ++ pad 3 (ms mod 1000) ++ "Z")%string
  else Err (RangeError "Invalid time value").

(** [.toISOString().slice(0, 10)] *)
Definition isoDate10 (t : Z) : result string :=
  match toISOString t with
  | Ok s => Ok (JS.slice0 10 s)
  | Err e => Err e
  end.

(** [.toISOString().split('T')[0]] *)
Fixpoint before_T (s : string) : string :=
  match s with
  | EmptyString => EmptyString
  | String c r => if Ascii.eqb c "T" then EmptyString else String c (before_T r)
  end.

End JSDate.

(** ** Helpers of [src/compiler/index.ts] *)

Definition truthy (o : option string) : bool :=
  match o with
  | Some s => negb (String.eqb s "")
  | None => false
  end.

(** [a || b] on an optional string. *)
Definition or_else (o : option string) (d : string) : string :=
  match o with
  | Some s => if String.eqb s "" then d else s
  | None => d
  end.

Definition timeRangeToAlias (range : TimeRange) : result string :=
  match range with
  | Relative duration u _ | Trading duration u _ =>
      Ok (JS.String_Z duration ++ TimeUnit_name u)
  | Absolute from to =>
      match JSDate.toISOString (from * 1000), JSDate.toISOString (to * 1000) with
      | Ok f, Ok t =>
          Ok (JS.replaceAll_char "-" "" (JSDate.before_T f) ++ "_"
              ++ JS.replaceAll_char "-" "" (JSDate.before_T t))
      | Err e, _ => Err e
      | _, Err e => Err e
      end
  end.

Definition ALIAS_MAX_LENGTH : nat := 65.

(** [generateAlias] on an expression that is there; a date out of range in
    an absolute time range makes it throw. *)
Fixpoint generateAlias (expr : Expression) : result string :=
  if truthy (expr_alias expr) then Ok (or_else (expr_alias expr) "")
  else
    match expr with
    | Metric metric _ _ => Ok metric
    | Constant _ _ => Ok "constant"
    | Aggregate target aggregation time_range _ _ =>
        match generateAlias target with
        | Err e => Err e
        | Ok t =>
            let base := aggregation ++ "_" ++ t in
            match time_range with
            | Some tr =>
                match timeRangeToAlias tr with
                | Ok a => Ok (base ++ "_" ++ a)
                | Err e => Err e
                end
            | None => Ok base
            end
        end
    | Math operator operands _ =>
        match
          (fix all (l : list Expression) : result (list string) :=
             match l with
             | [] => Ok []
             | x :: r =>
                 match generateAlias x with
                 | Err e => Err e
                 | Ok a => match all r with
                           | Ok as_ => Ok (a :: as_)
                           | Err e => Err e
                           end
                 end
             end) operands
        with
        | Ok as_ => Ok (JS.slice0 ALIAS_MAX_LENGTH (operator ++ "_" ++ JS.join "_" as_))
        | Err e => Err e
        end
    end.

Definition option_string_eqb (a b : option string) : bool :=
  match a, b with
  | Some x, Some y => String.eqb x y
  | None, None => true
  | _, _ => false
  end.

(** [===] on constant values: arrays are compared by identity, and two
    constants of a query never hold the same array object. *)
Definition Value_strict_eqb (a b : Value Z) : bool :=
  match a, b with
  | VString x, VString y => String.eqb x y
  | VNumber x, VNumber y => Z.eqb x y
  | VBoolean x, VBoolean y => Bool.eqb x y
  | _, _ => false
  end.

Definition TimeRange_type (r : TimeRange) : string :=
  match r with
  | Absolute _ _ => "absolute"
  | Relative _ _ _ => "relative"
  | Trading _ _ _ => "trading"
  end.

Fixpoint areExpressionsEqual (expr1 expr2 : Expression) {struct expr1} : bool :=
  match expr1, expr2 with
  | Constant v1 a1, Constant v2 a2 =>
      option_string_eqb a1 a2 && Value_strict_eqb v1 v2
  | Metric m1 _ a1, Metric m2 _ a2 =>
      option_string_eqb a1 a2 && String.eqb m1 m2
  | Aggregate t1 g1 tr1 f1 a1, Aggregate t2 g2 tr2 f2 a2 =>
      option_string_eqb a1 a2 && String.eqb g1 g2 &&
      match tr1, tr2 with
      | Some r1, Some r2 => String.eqb (TimeRange_type r1) (TimeRange_type r2)
      | None, None => true
      | _, _ => false
      end &&
      areExpressionsEqual t1 t2 &&
      match f1, f2 with
      | Some x, Some y => areFiltersEqual x y
      | None, None => true
      | _, _ => false
      end
  | Math o1 ops1 a1, Math o2 ops2 a2 =>
      option_string_eqb a1 a2 && String.eqb o1 o2 &&
      Nat.eqb (List.length ops1) (List.length ops2) &&
      (fix every (l1 l2 : list Expression) {struct l1} : bool :=
         match l1, l2 with
         | x :: r1, y :: r2 => areExpressionsEqual x y && every r1 r2
         | _, _ => true
         end) ops1 ops2
  | _, _ => false
  end
with areFiltersEqual (filter1 filter2 : Filter) {struct filter1} : bool :=
  match filter1, filter2 with
  | Simple t1 o1 v1, Simple t2 o2 v2 =>
      areExpressionsEqual t1 t2 && areExpressionsEqual v1 v2 && String.eqb o1 o2
  | Composite o1 fs1, Composite o2 fs2 =>
      String.eqb o1 o2 && Nat.eqb (List.length fs1) (List.length fs2) &&
      (fix every (l1 l2 : list Filter) {struct l1} : bool :=
         match l1, l2 with
         | x :: r1, y :: r2 => areFiltersEqual x y && every r1 r2
         | _, _ => true
         end) fs1 fs2
  | _, _ => false
  end.

(** ** The graph object and its methods *)

(** [nodes] is [this.nodes].  [detached] holds the node objects that
    [removeNode] has taken out of [this.nodes]: the optimizer passes keep
    references to them in the arrays they iterate, and read them after the
    removal. *)
Record ComputeGraph : Type := {
  nodes : list ComputeNode;
  detached : list ComputeNode;
  nodeTypesCounter : NodeType -> nat;
  parameters : Dict.t (Value Z);
  config : QueryBuilderConfig
}.

Definition emptyGraph (cfg : QueryBuilderConfig) : ComputeGraph :=
  {| nodes := []; detached := []; nodeTypesCounter := fun _ => O;
     parameters := []; config := cfg |}.

Definition with_nodes (ns : list ComputeNode) (g : ComputeGraph) : ComputeGraph :=
  {| nodes := ns; detached := detached g;
     nodeTypesCounter := nodeTypesCounter g; parameters := parameters g;
     config := config g |}.

(** Methods read and write the graph and may throw. *)
Definition M (A : Type) : Type := ComputeGraph -> result (A * ComputeGraph).

Definition ret {A} (a : A) : M A := fun g => Ok (a, g).

Definition bind {A B} (c : M A) (k : A -> M B) : M B :=
  fun g => match c g with
           | Ok (a, g') => k a g'
           | Err e => Err e
           end.

Definition throw {A} (e : Error) : M A := fun _ => Err e.

Declare Scope graph_scope.
Delimit Scope graph_scope with graph.
Notation "x <- c ;; k" := (bind c (fun x => k))
  (at level 61, c at next level, right associativity) : graph_scope.
Notation "' p <- c ;; k" := (bind c (fun x => let p := x in k))
  (at level 61, p pattern, c at next level, right associativity) : graph_scope.
Notation "c ;; k" := (bind c (fun _ => k))
  (at level 61, right associativity) : graph_scope.
Open Scope graph_scope.

Definition getNodes : M (list ComputeNode) := fun g => Ok (nodes g, g).
Definition getConfig : M QueryBuilderConfig := fun g => Ok (config g, g).

(** [this.nodes[i]] *)
Definition node_at (i : NodeID) : M (option ComputeNode) :=
  fun g => Ok (lookup i (nodes g), g).

(** The node object with id [i], whether still in [this.nodes] or not. *)
Definition deref_in (g : ComputeGraph) (i : NodeID) : option ComputeNode :=
  match lookup i (nodes g) with
  | Some n => Some n
  | None => lookup i (detached g)
  end.

Definition deref (i : NodeID) : M (option ComputeNode) :=
  fun g => Ok (deref_in g i, g).

(** A write to a field of the node object with id [i]. *)
Definition mutate (i : NodeID) (f : ComputeNode -> ComputeNode) : M unit :=
  fun g =>
    if has i (nodes g) then Ok (tt, with_nodes (update i f (nodes g)) g)
    else Ok (tt, {| nodes := nodes g; detached := update i f (detached g);
                    nodeTypesCounter := nodeTypesCounter g;
                    parameters := parameters g; config := config g |}).

(** A loop over an array, for its effects. *)
Fixpoint forEach {A} (body : A -> M unit) (l : list A) : M unit :=
  match l with
  | [] => ret tt
  | x :: r => body x ;; forEach body r
  end.

(** [Array.prototype.map] with a callback that has effects. *)
Fixpoint mapM {A B} (f : A -> M B) (l : list A) : M (list B) :=
  match l with
  | [] => ret []
  | x :: r => y <- f x ;; ys <- mapM f r ;; ret (y :: ys)
  end.

(** [Array.prototype.some] and [filter] with a callback that may throw. *)
Fixpoint someM {A} (p : A -> M bool) (l : list A) : M bool :=
  match l with
  | [] => ret false
  | x :: r => b <- p x ;; if b then ret true else someM p r
  end.

Fixpoint filterM {A} (p : A -> M bool) (l : list A) : M (list A) :=
  match l with
  | [] => ret []
  | x :: r => b <- p x ;; ys <- filterM p r ;; ret (if b then x :: ys else ys)
  end.

Definition generateNodeID (t : NodeType) : M NodeID :=
  fun g =>
    let count := nodeTypesCounter g t + 1 in
    let i := JS.replaceFirst_char "-" "_" (NodeType_name t) ++ "_" ++ JS.String_nat count in
    Ok (i, {| nodes := nodes g; detached := detached g;
              nodeTypesCounter :=
                (fun t' => if NodeType_eqb t' t then nodeTypesCounter g t + 1
                           else nodeTypesCounter g t');
              parameters := parameters g; config := config g |}).

Definition addNode (node : ComputeNode) : M NodeID :=
  fun g => Ok (id node, with_nodes (addNode_nodes node (nodes g)) g).

Definition removeNode (i : NodeID) : M unit :=
  fun g =>
    match lookup i (nodes g) with
    | None => Ok (tt, g)
    | Some node =>
        let ns := removeNode_adjust node (nodes g) in
        Ok (tt, {| nodes := delete i ns;
                   detached :=
                     match lookup i ns with
                     | Some node' => store node' (detached g)
                     | None => detached g
                     end;
                   nodeTypesCounter := nodeTypesCounter g;
                   parameters := parameters g; config := config g |})
    end.

Definition getExecutionOrder : M (list ComputeNode) :=
  fun g => match getExecutionOrder_nodes (nodes g) with
           | Ok l => Ok (l, g)
           | Err e => Err e
           end.

Definition findDependentNodes (nodeId : NodeID) : M (list ComputeNode) :=
  fun g => Ok (findDependentNodes_nodes nodeId (nodes g), g).

(** [createParameter] as the method of the graph. *)
Definition createParameterM (value : Value Z) (op : option string) : M string :=
  fun g =>
    match createParameter JS.String_Z value op (parameters g) with
    | Ok (s, ps) =>
        Ok (s, {| nodes := nodes g; detached := detached g;
                  nodeTypesCounter := nodeTypesCounter g;
                  parameters := ps; config := config g |})
    | Err e => Err e
    end.

(** *** [replaceNodeID] *)

Definition replace_side (oldId newId : NodeID) (oldAlias : option string)
           (s : Side) : Side :=
  match s with
  | SInput input metric =>
      if String.eqb input oldId
      then SInput newId (match oldAlias with Some a => a | None => metric end)
      else s
  | _ => s
  end.

Definition replace_criterion (oldId newId : NodeID) (c : Criterion) : Criterion :=
  if String.eqb (crit_expression c) oldId
  then {| crit_expression := newId; direction := direction c |}
  else c.

Definition replace_column (oldId newId : NodeID) (c : Column) : Column :=
  match sourceNode c with
  | Some s => if String.eqb s oldId
              then {| col := col c; col_alias := col_alias c; sourceNode := Some newId |}
              else c
  | None => c
  end.

Definition replaceNodeID_node (oldId newId : NodeID) (oldAlias : option string)
           (node : ComputeNode) : ComputeNode :=
  if String.eqb (id node) newId then node
  else
    let node := set_inputs
                  (map (fun input => if String.eqb input oldId then newId else input)
                       (inputs node)) node in
    let node :=
      match condition node with
      | Some c =>
          set_condition
            (Some {| left := replace_side oldId newId oldAlias (left c);
                     right := replace_side oldId newId oldAlias (right c);
                     cond_op := cond_op c |}) node
      | None => node
      end in
    let node :=
      match criteria node with
      | Some cs => set_criteria (Some (map (replace_criterion oldId newId) cs)) node
      | None => node
      end in
    match columns node with
    | Some cs => set_columns (Some (map (replace_column oldId newId) cs)) node
    | None => node
    end.

Definition replaceNodeID (oldId newId : NodeID) (oldAlias : option string) : M unit :=
  fun g => Ok (tt, with_nodes (map (replaceNodeID_node oldId newId oldAlias) (nodes g)) g).

(** *** Building the graph from a query *)

Definition findOrCreateSourceNode (table_ : string) : M NodeID :=
  ns <- getNodes ;;
  match find (fun node => NodeType_eqb (type node) T_source
                          && option_string_eqb (table node) (Some table_)) ns with
  | Some existingNode => ret (id existingNode)
  | None =>
      cfg <- getConfig ;;
      i <- generateNodeID T_source ;;
      addNode
        {| id := i; type := T_source; inputs := []; isTerminal := None;
           metadata := None; table := Some table_;
           timeColumn := match Dict.get table_ (tables cfg) with
                         | Some t => TableConfig.timeColumn t
                         | None => None
                         end;
           columns := None; expression := None; alias := None;
           condition := None; operator := None; criteria := None;
           limit := None; joinType := None; joinConditions := None |}
  end.

(** [getMetricName] of [processFilter] *)
Definition getMetricName (node : ComputeNode) : string :=
  match type node, columns node with
  | T_projection, Some (c :: _) =>
      or_else (col_alias c)
              (match col c with ColName name => name | ColExpr _ => "" end)
  | _, _ => id node
  end.

(** [processExpression] and [processFilter].  Besides the id of the node
    they add, they give back their argument as the call leaves it: an
    aggregate loses its [filter] ([delete expression.filter]), and the nodes
    hold the expression objects of the query by reference. *)
Fixpoint processExpression (expression_ : Expression) (calledFromAgg : bool)
         {struct expression_} : M (NodeID * Expression) :=
  match expression_ with
  | Metric metric filter alias_ =>
      cfg <- getConfig ;;
      match Dict.get metric (columnMappings cfg) with
      | None => throw (UnknownMetric metric)
      | Some column =>
          sourceNodeId <- findOrCreateSourceNode (ColumnConfig.table column) ;;
          i <- generateNodeID T_projection ;;
          created <- addNode
            (set_columns
               (Some [{| col := ColName (ColumnConfig.column column);
                         col_alias :=
                           if truthy alias_ then alias_
                           else if negb (String.eqb metric (ColumnConfig.column column))
                                then Some metric else None;
                         sourceNode := Some sourceNodeId |}])
               (mkNode i T_projection [sourceNodeId])) ;;
          match filter with
          | Some f =>
              r <- processFilter f (Some [created]) ;;
              ret (created, Metric metric (Some (snd r)) alias_)
          | None => ret (created, expression_)
          end
      end
  | Constant value alias_ =>
      paramValue <- createParameterM value None ;;
      i <- generateNodeID T_expression ;;
      created <- addNode
        {| id := i; type := T_expression; inputs := []; isTerminal := None;
           metadata := Some {| isGrouping := None; isGrouped := None;
                               groupDimension := None; offset := None;
                               md_limit := None; isRequiredProjection := None;
                               hasParameter := None; isParameter := Some true |};
           table := None; timeColumn := None; columns := None;
           expression := Some (Constant (VString paramValue) None);
           alias := alias_;
           condition := None; operator := None; criteria := None;
           limit := None; joinType := None; joinConditions := None |} ;;
      ret (created, expression_)
  | Aggregate target aggregation time_range filter alias_ =>
      t <- processExpression target true ;;
      f <- match filter with
           | Some f => r <- processFilter f None ;; ret [fst r]
           | None => ret []
           end ;;
      let expression' := Aggregate (snd t) aggregation time_range None alias_ in
      i <- generateNodeID T_aggregation ;;
      match generateAlias expression' with
      | Err e => throw e
      | Ok generated =>
          created <- addNode
            {| id := i; type := T_expression; inputs := fst t :: f;
               isTerminal := None; metadata := None; table := None;
               timeColumn := None; columns := None;
               expression := Some expression';
               alias := Some (or_else alias_ generated);
               condition := None; operator := None; criteria := None;
               limit := None; joinType := None; joinConditions := None |} ;;
          ret (created, expression')
      end
  | Math operator_ operands alias_ =>
      rs <- (fix operandNodes (l : list Expression) : M (list (NodeID * Expression)) :=
               match l with
               | [] => ret []
               | operand :: r =>
                   x <- processExpression operand false ;;
                   xs <- operandNodes r ;;
                   ret (x :: xs)
               end) operands ;;
      let expression' := Math operator_ (map snd rs) alias_ in
      i <- generateNodeID T_expression ;;
      created <- addNode
        {| id := i; type := T_expression; inputs := map fst rs;
           isTerminal := None; metadata := None; table := None;
           timeColumn := None; columns := None;
           expression := Some expression'; alias := alias_;
           condition := None; operator := None; criteria := None;
           limit := None; joinType := None; joinConditions := None |} ;;
      ret (created, expression')
  end
with processFilter (filter : Filter) (otherInputs : option (list NodeID))
                   {struct filter} : M (NodeID * Filter) :=
  match filter with
  | Composite operator_ filters =>
      rs <- (fix children (l : list Filter) : M (list (NodeID * Filter)) :=
               match l with
               | [] => ret []
               | f :: r =>
                   x <- processFilter f None ;;
                   xs <- children r ;;
                   ret (x :: xs)
               end) filters ;;
      let inputs_ :=
        match otherInputs with
        | Some o => JS.uniq (map fst rs ++ o)%list
        | None => map fst rs
        end in
      i <- generateNodeID T_composite_filter ;;
      created <- addNode
        {| id := i; type := T_composite_filter; inputs := inputs_;
           isTerminal := None; metadata := None; table := None;
           timeColumn := None; columns := None; expression := None;
           alias := None; condition := None; operator := Some operator_;
           criteria := None; limit := None; joinType := None;
           joinConditions := None |} ;;
      ret (created, Composite operator_ (map snd rs))
  | Simple target op value =>
      t <- processExpression target false ;;
      let targetNodeId := fst t in
      v <- processExpression value false ;;
      let valueNodeId := fst v in
      let inputs_ :=
        match otherInputs with
        | Some o => JS.uniq ([targetNodeId; valueNodeId] ++ o)%list
        | None => [targetNodeId; valueNodeId]
        end in
      targetNode <- node_at targetNodeId ;;
      match targetNode with
      | None => throw (TypeError "targetNode is undefined")
      | Some targetNode =>
          i <- generateNodeID T_filter ;;
          created <- addNode
            (set_condition
               (Some {| left := SInput targetNodeId (getMetricName targetNode);
                        right := SInput valueNodeId valueNodeId;
                        cond_op := op |})
               (mkNode i T_filter inputs_)) ;;
          ret (created, Simple (snd t) op (snd v))
      end
  end.

Definition processSort (sorts : list SortCriteria) : M NodeID :=
  rs <- mapM (fun s => processExpression (sc_expression s) false) sorts ;;
  let sortInputs := map fst rs in
  i <- generateNodeID T_sort ;;
  addNode
    (set_criteria
       (Some (map (fun p => {| crit_expression := snd p;
                               direction := sc_direction (fst p) |})
                  (combine sorts sortInputs)))
       (mkNode i T_sort (JS.uniq sortInputs))).

(** The branch of [processGroupBy] for a plain dimension. *)
Definition processGroupDimension (groupBy : string) : M NodeID :=
  cfg <- getConfig ;;
  match Dict.get groupBy (columnMappings cfg) with
  | None => throw (GroupingDimensionNotFound groupBy)
  | Some column =>
      sourceNodeId <- findOrCreateSourceNode (ColumnConfig.table column) ;;
      i <- generateNodeID T_projection ;;
      addNode
        (set_metadata
           (Some {| isGrouping := Some true; isGrouped := None;
                    groupDimension := None; offset := None; md_limit := None;
                    isRequiredProjection := None; hasParameter := None;
                    isParameter := None |})
           (set_columns
              (Some [{| col := ColName (ColumnConfig.column column);
                        col_alias := Some groupBy;
                        sourceNode := Some sourceNodeId |}])
              (mkNode i T_projection [sourceNodeId])))
  end.

Definition processGroupBy (groups : list GroupingCriteria) : M (list NodeID) :=
  mapM (fun groupBy =>
          match groupBy with
          | GroupDimension d => processGroupDimension d
          | GroupTopN dimension limit_ expression_ =>
              dimensionNodeId <- processGroupDimension dimension ;;
              expressionNodeId <-
                match expression_ with
                | Some e => r <- processExpression e false ;; ret (Some (fst r))
                | None => ret None
                end ;;
              i <- generateNodeID T_sort ;;
              sortNodeId <- addNode
                (set_metadata
                   (Some {| isGrouping := None; isGrouped := Some true;
                            groupDimension := Some dimension; offset := None;
                            md_limit := Some limit_;
                            isRequiredProjection := None; hasParameter := None;
                            isParameter := None |})
                   (set_criteria
                      (Some [{| crit_expression :=
                                  match expressionNodeId with
                                  | Some e => e
                                  | None => dimensionNodeId
                                  end;
                                direction := "desc" |}])
                      (mkNode i T_sort
                              (dimensionNodeId ::
                               match expressionNodeId with
                               | Some e => [e]
                               | None => []
                               end)))) ;;
              j <- generateNodeID T_limit ;;
              addNode
                {| id := j; type := T_limit; inputs := [sortNodeId];
                   isTerminal := None;
                   metadata := Some {| isGrouping := None; isGrouped := Some true;
                                       groupDimension := Some dimension;
                                       offset := None; md_limit := None;
                                       isRequiredProjection := None;
                                       hasParameter := None; isParameter := None |};
                   table := None; timeColumn := None; columns := None;
                   expression := None; alias := None; condition := None;
                   operator := None; criteria := None; limit := Some limit_;
                   joinType := None; joinConditions := None |}
          end) groups.

(** *** [inferJoins] *)

Definition table_of (sn : ComputeNode) : string :=
  match table sn with Some t => t | None => "undefined" end.

(** The index pairs [i < j] of the two nested loops, in their order. *)
Fixpoint pairs {A} (l : list A) : list (A * A) :=
  match l with
  | [] => []
  | x :: r => (map (pair x) r ++ pairs r)%list
  end.

Definition joinCondition (cfg : QueryBuilderConfig) (tableToNode : Dict.t ComputeNode)
           (p : string * string) : result JoinCondition :=
  match Dict.get (fst p) (tables cfg), Dict.get (snd p) (tables cfg) with
  | Some t1, Some t2 =>
      match find (fun k => JS.includes k (TableConfig.primaryKeys t2))
                 (TableConfig.primaryKeys t1) with
      | Some pk =>
          if String.eqb pk "" then Err (NoCommonPK (TableConfig.name t1) (TableConfig.name t2))
          else
            match Dict.get (TableConfig.name t1) tableToNode,
                  Dict.get (TableConfig.name t2) tableToNode with
            | Some n1, Some n2 =>
                Ok {| jc_left := (id n1, pk); jc_right := (id n2, pk); jc_op := "=" |}
            | _, _ => Err (TypeError "tableToNode[t.name] is undefined")
            end
      | None => Err (NoCommonPK (TableConfig.name t1) (TableConfig.name t2))
      end
  | _, _ => Err (TypeError "config.tables[table] is undefined")
  end.

Fixpoint all_results {A} (l : list (result A)) : result (list A) :=
  match l with
  | [] => Ok []
  | Ok a :: r => match all_results r with Ok as_ => Ok (a :: as_) | Err e => Err e end
  | Err e :: _ => Err e
  end.

Definition inferJoins : M unit :=
  ns <- getNodes ;;
  let sourceNodes := filter (fun n => NodeType_eqb (type n) T_source) ns in
  if Nat.leb (List.length sourceNodes) 1 then ret tt
  else
    let tableToNode :=
      fold_left (fun d sn => Dict.set (table_of sn) sn d) sourceNodes [] in
    let involvedTables := Dict.keys tableToNode in
    cfg <- getConfig ;;
    match all_results (map (joinCondition cfg tableToNode) (pairs involvedTables)) with
    | Err e => throw e
    | Ok joinConds =>
        i <- generateNodeID T_join ;;
        joinNodeId <- addNode
          {| id := i; type := T_join; inputs := map id sourceNodes;
             isTerminal := None; metadata := None; table := None;
             timeColumn := None; columns := None; expression := None;
             alias := None; condition := None; operator := None;
             criteria := None; limit := None; joinType := Some "INNER";
             joinConditions := Some joinConds |} ;;
        forEach (fun sn => replaceNodeID (id sn) joinNodeId None) sourceNodes ;;
        forEach (fun sn => mutate (id sn) (set_isTerminal false)) sourceNodes
    end.

(** *** [ensureRequiredColumns] *)

(** The [while (currentNode)] loop, which follows first inputs.  On a graph
    whose first inputs run in a circle the loop of the source does not end;
    that is [None] here, met after more steps than there are nodes. *)
Fixpoint followFirstInputs (fuel : nat) (ns : list ComputeNode) (sourceId : NodeID)
         (currentNode : option ComputeNode) : option bool :=
  match currentNode with
  | None => Some false
  | Some n =>
      if JS.includes sourceId (inputs n) then Some true
      else match fuel with
           | O => None
           | S fuel' =>
               followFirstInputs fuel' ns sourceId
                 (match inputs n with
                  | i :: _ => lookup i ns
                  | [] => None
                  end)
           end
  end.

Definition isTimeAggregate (node : ComputeNode) : bool :=
  NodeType_eqb (type node) T_expression &&
  match expression node with
  | Some (Aggregate _ _ (Some _) _ _) => true
  | _ => false
  end.

Fixpoint hasTimeBasedAggregation_from (all ns : list ComputeNode) (sourceId : NodeID)
  : option bool :=
  match ns with
  | [] => Some false
  | node :: r =>
      if isTimeAggregate node then
        match followFirstInputs (S (List.length all)) all sourceId (Some node) with
        | Some true => Some true
        | Some false => hasTimeBasedAggregation_from all r sourceId
        | None => None
        end
      else hasTimeBasedAggregation_from all r sourceId
  end.

Definition hasTimeBasedAggregation (ns : list ComputeNode) (sourceId : NodeID)
  : option bool :=
  hasTimeBasedAggregation_from ns ns sourceId.

Definition projectedColumns (ns : list ComputeNode) (sourceId : NodeID) : list string :=
  flat_map
    (fun node =>
       match columns node with
       | Some cs => flat_map (fun c => match col c with
                                       | ColName name => [name]
                                       | ColExpr _ => []
                                       end) cs
       | None => []
       end)
    (filter (fun node => NodeType_eqb (type node) T_projection
                         && JS.includes sourceId (inputs node)) ns).

Definition requiredProjection (i : NodeID) (sourceId : NodeID) (col_ : string)
  : ComputeNode :=
  set_metadata
    (Some {| isGrouping := None; isGrouped := None; groupDimension := None;
             offset := None; md_limit := None;
             isRequiredProjection := Some true; hasParameter := None;
             isParameter := None |})
    (set_columns
       (Some [{| col := ColName col_; col_alias := None;
                 sourceNode := Some sourceId |}])
       (mkNode i T_projection [sourceId])).

Definition ensureRequiredColumns : M unit :=
  ns0 <- getNodes ;;
  let sourceNodes := filter (fun n => NodeType_eqb (type n) T_source) ns0 in
  forEach
    (fun sourceNode =>
       cfg <- getConfig ;;
       match Dict.get (table_of sourceNode) (tables cfg) with
       | None => throw (TypeError "tableConfig is undefined")
       | Some tableConfig =>
           let always :=
             match TableConfig.alwaysIncludeColumns tableConfig with
             | Some l => JS.uniq l
             | None => []
             end in
           ns <- getNodes ;;
           match hasTimeBasedAggregation ns (id sourceNode) with
           | None => throw OutOfFuel
           | Some hasTime =>
               let requiredColumns :=
                 if hasTime && truthy (TableConfig.timeColumn tableConfig)
                 then JS.uniq (always ++ [or_else (TableConfig.timeColumn tableConfig) ""])%list
                 else always in
               let projected := projectedColumns ns (id sourceNode) in
               let missingColumns :=
                 filter (fun c => negb (JS.includes c projected)) requiredColumns in
               forEach
                 (fun c =>
                    i <- generateNodeID T_projection ;;
                    addNode (requiredProjection i (id sourceNode) c) ;;
                    ret tt)
                 missingColumns
           end
       end)
    sourceNodes.

Definition processUserQuery (userQuery : UserQuery) : M unit :=
  processFilter (uq_filter userQuery) None ;;
  match group_by userQuery with
  | Some gs => processGroupBy gs ;; ret tt
  | None => ret tt
  end ;;
  match sort_by userQuery with
  | Some ss => processSort ss ;; ret tt
  | None => ret tt
  end ;;
  match uq_limit userQuery with
  | Some l =>
      if Z.eqb l 0 then ret tt
      else
        i <- generateNodeID T_limit ;;
        addNode
          {| id := i; type := T_limit; inputs := []; isTerminal := None;
             metadata := None; table := None; timeColumn := None;
             columns := None; expression := None; alias := None;
             condition := None; operator := None; criteria := None;
             limit := Some l; joinType := None; joinConditions := None |} ;;
        ret tt
  | None => ret tt
  end ;;
  inferJoins ;;
  ensureRequiredColumns.

(** [new ComputeGraph(userQuery, config)] *)
Definition fromUserQuery (userQuery : UserQuery) (cfg : QueryBuilderConfig)
  : result ComputeGraph :=
  match processUserQuery userQuery (emptyGraph cfg) with
  | Ok (_, g) => Ok g
  | Err e => Err e
  end.

(** ** The optimizer *)

(** The passes iterate over arrays of node objects taken from [this.nodes]
    before they change it; an array of objects is the list of their ids
    here, and the fields of an object are read at the time of the read
    ([deref]). *)
Definition deref_ok (i : NodeID) : M ComputeNode :=
  o <- deref i ;;
  match o with
  | Some n => ret n
  | None => throw (TypeError "node object is undefined")
  end.

Definition ids_of_type (t : NodeType) (ns : list ComputeNode) : list NodeID :=
  map id (filter (fun n => NodeType_eqb (type n) t) ns).

(** [node.inputs.sort()]: sorts the array in place and gives it back. *)
Definition sortInputs (i : NodeID) : M (list NodeID) :=
  mutate i (fun n => set_inputs (JS.sort (inputs n)) n) ;;
  n <- deref_ok i ;;
  ret (inputs n).

(** *** [removedDuplicateProjections] *)

(** [node.columns.sort().map(c => 'name' in c ? c.name : c.expression).join(',')];
    the default order on objects compares their string forms, which are all
    the same, so the stable sort keeps the columns as they are. *)
Definition columnsKey (n : ComputeNode) : string :=
  JS.join ","
    (map (fun c => match col c with
                   | ColName name => name
                   | ColExpr _ => "[object Object]"
                   end)
         (match columns n with Some cs => cs | None => [] end)).

Definition dedupeProjection (required : bool) (i : NodeID)
           (uniqueProjections : Dict.t NodeID) : M (Dict.t NodeID) :=
  sorted <- sortInputs i ;;
  node <- deref_ok i ;;
  key <-
    (if required then
       ret ("required_" ++ JS.join "," sorted ++ "_" ++ columnsKey node)
     else
       dependents <- findDependentNodes i ;;
       ds <- mapM (fun d => s <- sortInputs (id d) ;; ret (JS.join "," s)) dependents ;;
       ret (JS.join "," sorted ++ columnsKey node ++ JS.join "," ds)) ;;
  match Dict.get key uniqueProjections with
  | None => ret (Dict.set key i uniqueProjections)
  | Some kept =>
      replaceNodeID i kept None ;;
      removeNode i ;;
      ret uniqueProjections
  end.

Fixpoint foldM {A S} (body : A -> S -> M S) (l : list A) (s : S) : M S :=
  match l with
  | [] => ret s
  | x :: r => s' <- body x s ;; foldM body r s'
  end.

Definition removedDuplicateProjections : M unit :=
  ns <- getNodes ;;
  let projectionNodes := filter (fun n => NodeType_eqb (type n) T_projection) ns in
  let normalProjections :=
    map id (filter (fun n => negb (md_flag isRequiredProjection n)) projectionNodes) in
  let requiredProjections :=
    map id (filter (md_flag isRequiredProjection) projectionNodes) in
  u <- foldM (dedupeProjection false) normalProjections [] ;;
  foldM (dedupeProjection true) requiredProjections u ;;
  ret tt.

(** *** [inlineParameters] *)

(** The text of a value in a template literal. *)
Definition Scalar_toString (v : Scalar Z) : string :=
  match v with
  | SString s => s
  | SNumber n => JS.String_Z n
  | SBoolean b => if b then "true" else "false"
  end.

Definition Value_toString (v : Value Z) : string :=
  match v with
  | VString s => s
  | VNumber n => JS.String_Z n
  | VBoolean b => if b then "true" else "false"
  | VArray l => JS.join "," (map Scalar_toString l)
  end.

(** [constantNode.value as string] *)
Definition constantValue (e : option Expression) : string :=
  match e with
  | Some (Constant v _) => Value_toString v
  | _ => "undefined"
  end.

Definition is_input (s : Side) : bool :=
  match s with SInput _ _ => true | _ => false end.

Definition inlineCondition (nodeId : NodeID) (value : string) (c : Condition)
  : Condition :=
  let left_ :=
    match left c with
    | SInput input _ => if String.eqb input nodeId then SParam value else left c
    | _ => left c
    end in
  let right_ :=
    match right c with
    | SInput input _ => if String.eqb input nodeId then SParam value else left_
    | _ => right c
    end in
  {| left := left_; right := right_; cond_op := cond_op c |}.

Definition inlineInto (nodeId : NodeID) (value : string) (dependent : ComputeNode)
  : ComputeNode :=
  let dependent :=
    match condition dependent with
    | Some c =>
        set_inputs
          (filter (fun i => negb (String.eqb i nodeId)) (inputs dependent))
          (set_metadata (Some (spread_hasParameter (metadata dependent)))
             (set_condition (Some (inlineCondition nodeId value c)) dependent))
    | None => dependent
    end in
  match criteria dependent with
  | Some cs =>
      set_inputs
        (filter (fun i => negb (String.eqb i nodeId)) (inputs dependent))
        (set_metadata (Some (spread_hasParameter (metadata dependent)))
           (set_criteria
              (Some (map (fun crit =>
                            if String.eqb (crit_expression crit) nodeId
                            then {| crit_expression := value;
                                    direction := direction crit |}
                            else crit) cs))
              dependent))
  | None => dependent
  end.

Definition inlineParameter (i : NodeID) : M unit :=
  node <- deref_ok i ;;
  if negb (md_flag isParameter node) then ret tt
  else
    dependentNodes <- findDependentNodes i ;;
    forEach (fun d => mutate (id d) (inlineInto i (constantValue (expression node))))
            dependentNodes ;;
    removeNode i.

Definition inlineParameters : M unit :=
  ns <- getNodes ;;
  forEach inlineParameter (ids_of_type T_expression ns).

(** *** [mergeFilters] *)

Definition isFilterType (n : ComputeNode) : bool :=
  NodeType_eqb (type n) T_filter || NodeType_eqb (type n) T_composite_filter.

Definition list_string_eqb (a b : list string) : bool :=
  if list_eq_dec string_dec a b then true else false.

(** The callback of [nodes.filter] that finds the filters related to
    [node]; it sorts the inputs of both nodes it compares. *)
Definition isRelatedFilter (nodeId : NodeID) (nId : NodeID) : M bool :=
  n <- deref_ok nId ;;
  if isFilterType n && negb (String.eqb nId nodeId) then
    a <- sortInputs nId ;;
    b <- sortInputs nodeId ;;
    ret (list_string_eqb a b)
  else ret false.

(** [depNode.inputs = depNode.inputs.map(...)] on every dependent of [oldId] *)
Definition rewireDependents (oldId newId : NodeID) : M unit :=
  dependentNodes <- findDependentNodes oldId ;;
  forEach
    (fun d => mutate (id d)
                (fun n => set_inputs
                            (map (fun input => if String.eqb input oldId then newId
                                               else input) (inputs n)) n))
    dependentNodes.

(** The new node takes the array [node.inputs] itself; the array is sorted
    by then, and nothing but [sort] writes into it afterwards, so a copy
    behaves the same. *)
Definition mergeFilter (snapshot : list NodeID) (nodeId : NodeID) : M unit :=
  node <- deref_ok nodeId ;;
  if negb (isFilterType node) then ret tt
  else
    relatedFilters <- filterM (isRelatedFilter nodeId) snapshot ;;
    match relatedFilters with
    | [] => ret tt
    | _ =>
        node <- deref_ok nodeId ;;
        newId <- generateNodeID T_composite_filter ;;
        addNode
          {| id := newId; type := T_composite_filter; inputs := inputs node;
             isTerminal := None; metadata := None; table := None;
             timeColumn := None; columns := None; expression := None;
             alias := None; condition := None; operator := Some "and";
             criteria := None; limit := None; joinType := None;
             joinConditions := None |} ;;
        removeNode nodeId ;;
        forEach removeNode relatedFilters ;;
        forEach (fun oldId => rewireDependents oldId newId)
                (nodeId :: relatedFilters)
    end.

Definition mergeFilters : M unit :=
  ns <- getNodes ;;
  let snapshot := map id ns in
  forEach (mergeFilter snapshot) snapshot.

(** *** [removeUselessCompositeFilters] *)

Definition removeUselessCompositeFilter (nodeId : NodeID) : M unit :=
  node <- deref_ok nodeId ;;
  match inputs node with
  | [only] =>
      rewireDependents nodeId only ;;
      removeNode nodeId
  | _ => ret tt
  end.

Definition removeUselessCompositeFilters : M unit :=
  ns <- getNodes ;;
  forEach removeUselessCompositeFilter (ids_of_type T_composite_filter ns).

(** *** [removeDuplicateProjectionExpressions] *)

Definition candidateExpressions (ns : list ComputeNode) : result (list NodeID) :=
  let step1 :=
    filter (fun n => Nat.eqb (List.length (findDependentNodes_nodes (id n) ns)) 1)
      (filter (fun n => Nat.eqb (List.length (inputs n)) 1)
         (filter (fun n => NodeType_eqb (type n) T_expression) ns)) in
  match
    all_results
      (map (fun n =>
              match inputs n with
              | i :: _ =>
                  match lookup i ns with
                  | Some parent => Ok (n, NodeType_eqb (type parent) T_projection)
                  | None => Err (TypeError "parent is undefined")
                  end
              | [] => Err (TypeError "parent is undefined")
              end) step1)
  with
  | Ok l => Ok (map (fun p => id (fst p)) (filter snd l))
  | Err e => Err e
  end.

Definition expressionsEqual (a b : ComputeNode) : result bool :=
  match expression a, expression b with
  | Some x, Some y => Ok (areExpressionsEqual x y)
  | _, _ => Err (TypeError "expression is undefined")
  end.

Fixpoint findEqualExpression (expr_ : ComputeNode) (uniqueExpressions : list ComputeNode)
  : result (option ComputeNode) :=
  match uniqueExpressions with
  | [] => Ok None
  | e :: r =>
      match expressionsEqual e expr_ with
      | Ok true => Ok (Some e)
      | Ok false => findEqualExpression expr_ r
      | Err x => Err x
      end
  end.

Definition dedupeExpression (exprId : NodeID) (uniqueExpressions : list NodeID)
  : M (list NodeID) :=
  expr_ <- deref_ok exprId ;;
  us <- mapM deref_ok uniqueExpressions ;;
  match findEqualExpression expr_ us with
  | Err e => throw e
  | Ok None => ret (uniqueExpressions ++ [exprId])%list
  | Ok (Some previousExpr) =>
      replaceNodeID exprId (id previousExpr) None ;;
      removeNode exprId ;;
      expr_ <- deref_ok exprId ;;
      match inputs expr_ with
      | i :: _ => removeNode i
      | [] => removeNode "undefined"
      end ;;
      ret uniqueExpressions
  end.

Definition removeDuplicateProjectionExpressions : M unit :=
  ns <- getNodes ;;
  match candidateExpressions ns with
  | Err e => throw e
  | Ok expressions => foldM dedupeExpression expressions [] ;; ret tt
  end.

(** *** [trySimplification1] *)

Definition side_metric (s : Side) : option string :=
  match s with
  | SInput _ m => Some m
  | SExpr (Metric m _ _) => Some m
  | _ => None
  end.

Definition trySimplification1 : M unit :=
  ns <- getNodes ;;
  let sourceNodes := filter (fun n => NodeType_eqb (type n) T_source) ns in
  if negb (Nat.eqb (List.length sourceNodes) 2) then ret tt
  else
    match find (fun n => option_string_eqb (table n) (Some "tickers")) sourceNodes with
    | None => ret tt
    | Some tickerSource =>
        let deps := findDependentNodes_nodes (id tickerSource) ns in
        let projections := filter (fun n => NodeType_eqb (type n) T_projection) deps in
        if negb (Nat.eqb (List.length deps) (List.length projections)) then ret tt
        else if negb (forallb (fun n => match columns n with
                                        | Some [_] => true
                                        | _ => false
                                        end) projections) then ret tt
        else if negb (forallb (fun n => match columns n with
                                        | Some (c :: _) =>
                                            match col c with
                                            | ColName name => String.eqb name "ticker"
                                            | ColExpr _ => false
                                            end
                                        | _ => false
                                        end) projections) then ret tt
        else
          let deps2 := flat_map (fun n => findDependentNodes_nodes (id n) ns) deps in
          let filters := filter (fun n => NodeType_eqb (type n) T_filter) deps2 in
          if negb (Nat.eqb (List.length deps2) (List.length filters)) then ret tt
          else if negb (forallb
                          (fun n =>
                             match condition n with
                             | Some c =>
                                 option_string_eqb (side_metric (left c)) (Some "ticker")
                                 || option_string_eqb (side_metric (right c)) (Some "ticker")
                             | None => false
                             end) filters) then ret tt
          else
            match find (fun n => option_string_eqb (table n) (Some "daily_agg"))
                       sourceNodes with
            | None => ret tt
            | Some otherSource =>
                i <- generateNodeID T_projection ;;
                newProjectionId <- addNode
                  (set_columns
                     (Some [{| col := ColName "ticker"; col_alias := None;
                               sourceNode := Some (id otherSource) |}])
                     (mkNode i T_projection [id otherSource])) ;;
                forEach (fun n => mutate (id n) (set_inputs [newProjectionId])) filters ;;
                removeNode (id tickerSource) ;;
                forEach (fun n => removeNode (id n)) projections
            end
    end.

(** *** [removeDuplicateFilters] *)

Definition option_bool_eqb (a b : option bool) : bool :=
  match a, b with
  | Some x, Some y => Bool.eqb x y
  | None, None => true
  | _, _ => false
  end.

Definition option_Z_eqb (a b : option Z) : bool :=
  match a, b with
  | Some x, Some y => Z.eqb x y
  | None, None => true
  | _, _ => false
  end.

(** [JSON.stringify(a.metadata) === JSON.stringify(b.metadata)], for
    metadata whose fields were written in the same order. *)
Definition metadata_json_eqb (a b : option NodeMetadata) : bool :=
  match a, b with
  | None, None => true
  | Some x, Some y =>
      option_bool_eqb (isGrouping x) (isGrouping y)
      && option_bool_eqb (isGrouped x) (isGrouped y)
      && option_string_eqb (groupDimension x) (groupDimension y)
      && option_Z_eqb (offset x) (offset y)
      && option_Z_eqb (md_limit x) (md_limit y)
      && option_bool_eqb (isRequiredProjection x) (isRequiredProjection y)
      && option_bool_eqb (hasParameter x) (hasParameter y)
      && option_bool_eqb (isParameter x) (isParameter y)
  | _, _ => false
  end.

Fixpoint everyInputIsProjection (ns : list ComputeNode) (ins : list NodeID)
  : result bool :=
  match ins with
  | [] => Ok true
  | input :: r =>
      match lookup input ns with
      | Some inputNode =>
          if NodeType_eqb (type inputNode) T_projection
          then everyInputIsProjection ns r else Ok false
      | None => Err (TypeError "inputNode is undefined")
      end
  end.

Definition allInputsAreProjections (ns : list ComputeNode) (n : ComputeNode)
  : result bool :=
  everyInputIsProjection ns (inputs n).

Definition dedupeFilter (filterId : NodeID) (filters : list NodeID) : M (list NodeID) :=
  f <- deref_ok filterId ;;
  others <- mapM deref_ok filters ;;
  let alreadyExistingSameFilters :=
    filter (fun node =>
              negb (String.eqb (id node) filterId)
              && list_string_eqb (inputs node) (inputs f)
              && metadata_json_eqb (metadata node) (metadata f)) others in
  match alreadyExistingSameFilters with
  | first :: _ =>
      replaceNodeID filterId (id first) None ;;
      removeNode filterId ;;
      ret (filter (fun i => negb (String.eqb i filterId)) filters)
  | [] => ret filters
  end.

Definition removeDuplicateFilters : M unit :=
  ns <- getNodes ;;
  match
    all_results
      (map (fun n => match allInputsAreProjections ns n with
                     | Ok b => Ok (n, b)
                     | Err e => Err e
                     end)
           (filter (fun n => NodeType_eqb (type n) T_filter) ns))
  with
  | Err e => throw e
  | Ok l =>
      let filters := map (fun p => id (fst p)) (filter snd l) in
      foldM dedupeFilter filters filters ;; ret tt
  end.

(** *** [optimize] *)

Definition optimize (risky : bool) : M unit :=
  removedDuplicateProjections ;;
  inlineParameters ;;
  mergeFilters ;;
  removeUselessCompositeFilters ;;
  removeDuplicateProjectionExpressions ;;
  (if risky then trySimplification1 else ret tt) ;;
  (if risky then removeDuplicateFilters else ret tt) ;;
  ensureRequiredColumns.

(** ** The ClickHouse emitter ([src/compiler/sql/clickhouse.ts]) *)

(** An absent value in a template literal. *)
Definition str (o : option string) : string :=
  match o with Some s => s | None => "undefined" end.

Definition mapFilterOperatorToSQL (operator_ : string) : string :=
  if String.eqb operator_ "eq" then "="
  else if String.eqb operator_ "neq" then "!="
  else if String.eqb operator_ "gt" then ">"
  else if String.eqb operator_ "gte" then ">="
  else if String.eqb operator_ "lt" then "<"
  else if String.eqb operator_ "lte" then "<="
  else if String.eqb operator_ "in" then "IN"
  else if String.eqb operator_ "nin" then "NOT IN"
  else if String.eqb operator_ "contains" then "LIKE"
  else if String.eqb operator_ "ncontains" then "NOT LIKE"
  else operator_.

(** [getTradingUnitMultiplier], in tenths: 3, 1.5, 1.3 and 1. *)
Definition getTradingUnitMultiplier10 (u : TimeUnit) : Z :=
  match u with
  | hour => 30
  | day => 15
  | week => 13
  | _ => 10
  end.

(** [mapTimeUnitToSeconds], in tenths of a second, so that the trading
    multipliers stay exact. *)
Definition mapTimeUnitToSeconds10 (u : TimeUnit) (trading : bool) : Z :=
  match u with
  | second => 10
  | minute => 600
  | hour => 3600 * (if trading then getTradingUnitMultiplier10 u else 10)
  | day => 86400 * (if trading then getTradingUnitMultiplier10 u else 10)
  | week => 604800 * (if trading then getTradingUnitMultiplier10 u else 10)
  | month => 25920000
  | year => 315360000
  end%Z.

(** Duration of a range as [chooseLargestTimeRange] measures it (tenths of
    a second). *)
Definition rangeDuration10 (r : TimeRange) : Z :=
  match r with
  | Relative duration u _ => duration * mapTimeUnitToSeconds10 u false
  | Trading duration u _ => duration * mapTimeUnitToSeconds10 u true
  | Absolute from to => (to - from) * 10
  end%Z.

Definition chooseLargestTimeRange (timeRanges : list TimeRange) : option TimeRange :=
  fst (fold_left
         (fun acc range =>
            if (snd acc <? rangeDuration10 range)%Z
            then (Some range, rangeDuration10 range)
            else acc)
         timeRanges (None, 0%Z)).

(** The helper [addLargestTimeRangeFilter] of [generateCTESQL]: what it
    pushes on [preWhere], from the table configurations of the sources of
    the group and the time ranges of the context. *)
Definition addLargestTimeRangeFilter (srcCfgs : list TableConfig.t)
           (timeRanges : list TimeRange) (preWhere : list string)
  : result (list string) :=
  match srcCfgs with
  | [] => Ok preWhere
  | src0 :: _ =>
      match chooseLargestTimeRange timeRanges with
      | None => Ok preWhere
      | Some ltr =>
          let tc := TableConfig.name src0 ++ "." ++ str (TableConfig.timeColumn src0) in
          match ltr with
          | Relative duration u _ =>
              let clause :=
                tc ++ " >= toDate(date_sub(now(), INTERVAL " ++ JS.String_Z duration
                ++ " " ++ JS.toUpperCase (TimeUnit_name u) ++ "))" in
              Ok (preWhere ++ [clause])%list
          | Absolute from to =>
              match JSDate.isoDate10 (from * 1000 - 86400) with
              | Err e => Err e
              | Ok from_ =>
                  match JSDate.isoDate10 (to * 1000) with
                  | Err e => Err e
                  | Ok to_ =>
                      let clause :=
                        tc ++ " BETWEEN toDate('" ++ from_ ++ "') AND toDate('"
                        ++ to_ ++ "')" in
                      Ok (preWhere ++ [clause])%list
                  end
              end
          | Trading _ _ _ => Ok preWhere
          end
      end
  end.

(** The clauses of a statement, to name the parts of an emitted text. *)
Inductive Clause : Type :=
| SELECT | FROM | PREWHERE | WHERE | QUALIFY | GROUP_BY | ORDER_BY | LIMIT.

(** The last lines of [generateCTESQL]: the body of a CTE from the lists
    the function has filled.  [cteBodyParts] gives the pieces that are
    appended, each with the clause it holds; they are joined by line
    breaks. *)
Definition clause_if_any (c : Clause) (keyword sep : string) (l : list string)
  : list (Clause * string) :=
  match l with
  | [] => []
  | _ => [(c, keyword ++ JS.join sep l)]
  end.

Definition cteBodyParts (cols : list string) (fromStmt : string)
           (preWhere qualify where_ groupBy orderBy : list string)
           (limitClause : string) : list (Clause * string) :=
  ([(SELECT, "SELECT " ++ JS.join ", " cols)%string; (FROM, fromStmt)]
   ++ clause_if_any PREWHERE "PREWHERE " " AND " preWhere
   ++ clause_if_any QUALIFY "QUALIFY " " AND " qualify
   ++ clause_if_any WHERE "WHERE " " AND " where_
   ++ clause_if_any GROUP_BY "GROUP BY " ", " groupBy
   ++ clause_if_any ORDER_BY "ORDER BY " ", " orderBy
   ++ (if String.eqb limitClause "" then [] else [(LIMIT, limitClause)]))%list.

Definition newline : string := String (ascii_of_nat 10) EmptyString.

Definition cteBodySQL (cols : list string) (fromStmt : string)
           (preWhere qualify where_ groupBy orderBy : list string)
           (limitClause : string) : string :=
  JS.join newline
    (map snd (cteBodyParts cols fromStmt preWhere qualify where_ groupBy orderBy
                           limitClause)).

(** The fields of [QueryBuilder] that [assembleSQL] reads. *)
Record QueryBuilder : Type := {
  sql : string;
  cols : list string;
  fromStmt : string;
  preFilters : list string;
  filters : list string;
  qualify : list string;
  groupBy : list string;
  orderBy : list string;
  limitSql : string
}.

Definition assembleSQL_parts (qb : QueryBuilder) : list (Clause * string) :=
  ([(SELECT, "SELECT " ++ JS.join ", " (cols qb))%string; (FROM, fromStmt qb)]
   ++ clause_if_any PREWHERE "PREWHERE " " AND " (preFilters qb)
   ++ clause_if_any WHERE "WHERE " " AND " (filters qb)
   ++ clause_if_any QUALIFY "QUALIFY " " AND " (qualify qb)
   ++ clause_if_any GROUP_BY "GROUP BY " ", " (JS.uniq (groupBy qb))
   ++ clause_if_any ORDER_BY "ORDER BY " ", " (orderBy qb)
   ++ (if String.eqb (limitSql qb) "" then [] else [(LIMIT, limitSql qb)]))%list.

Definition assembleSQL (qb : QueryBuilder) : string :=
  sql qb ++ JS.join newline (map snd (assembleSQL_parts qb)).

Section Translation.

(** The configuration of [src/settings.ts], which the translation
    functions take by default. *)
Variable DEFAULT_CONFIG : QueryBuilderConfig.

(** The characters that [Math.random().toString(36).slice(2, 6)] gives
    when [generateAlias] is called for a node without expression. *)
Variable randomSuffix : NodeID -> string.

Definition OVER_UNBOUNDED (pk timeColumn_ : string) : string :=
  "OVER (PARTITION BY " ++ pk ++ " ORDER BY " ++ timeColumn_
  ++ " ASC ROWS BETWEEN UNBOUNDED PRECEDING AND UNBOUNDED FOLLOWING)".

Definition is_trading (r : option TimeRange) : bool :=
  match r with Some (Trading _ _ _) => true | _ => false end.

(** [aggregationToSQL(expression, altTarget)] for an aggregate expression
    with the given fields. *)
Definition aggregationToSQL (target : Expression) (aggregation : string)
           (timeRange : option TimeRange) (altTarget : option string)
  : result string :=
  let target_is_metric := match target with Metric _ _ _ => true | _ => false end in
  if negb (truthy altTarget) && negb target_is_metric then Err InvalidAggregationTarget
  else
    let column_ :=
      match target with
      | Metric m _ _ => Dict.get m (columnMappings DEFAULT_CONFIG)
      | _ => None
      end in
    let table_ :=
      match column_ with
      | Some c => Dict.get (ColumnConfig.table c) (tables DEFAULT_CONFIG)
      | None => None
      end in
    let timeColumn_ :=
      match table_ with Some t => TableConfig.timeColumn t | None => None end in
    let pk0 (t : TableConfig.t) := str (hd_error (TableConfig.primaryKeys t)) in
    let partition0 :=
      match table_ with
      | Some t => Some ("PARTITION BY " ++ pk0 t ++ " ORDER BY " ++ str timeColumn_)
      | None => None
      end in
    let partition1 :=
      match timeRange, partition0 with
      | Some (Trading duration _ _), Some p =>
          if String.eqb p "" then partition0
          else Some (p ++ " ROWS BETWEEN " ++ JS.String_Z (duration - 1)
                     ++ " PRECEDING AND CURRENT ROW")
      | _, _ => partition0
      end in
    let partition :=
      match partition1 with
      | Some p => if String.eqb p "" then partition1 else Some ("OVER (" ++ p ++ ")")
      | None => None
      end in
    let col_ :=
      if truthy altTarget then str altTarget
      else str (match column_ with Some c => Some (ColumnConfig.column c) | None => None end) in
    let unbounded :=
      match table_ with
      | Some t => if negb (is_trading timeRange)
                  then OVER_UNBOUNDED (pk0 t) (str timeColumn_)
                  else str partition
      | None => str partition
      end in
    let simple (f : string) := Ok (f ++ "(" ++ col_ ++ ") " ++ str partition) in
    if String.eqb aggregation "first" then
      Ok ("first_value(" ++ col_ ++ ") " ++ unbounded)
    else if String.eqb aggregation "last" then
      Ok ("last_value(" ++ col_ ++ ") " ++ unbounded)
    else if String.eqb aggregation "avg" then simple "avg"
    else if String.eqb aggregation "sum" then simple "sum"
    else if String.eqb aggregation "min" then simple "min"
    else if String.eqb aggregation "max" then simple "max"
    else if String.eqb aggregation "median" then simple "quantile(0.5)"
    else if String.eqb aggregation "stddev" then simple "stddevPopStable"
    else if String.eqb aggregation "variance" then simple "varPop"
    else if String.eqb aggregation "count" then simple "count"
    else if String.eqb aggregation "diff" then
      Ok ("last_value(" ++ col_ ++ ") " ++ unbounded ++ " - first_value(" ++ col_
          ++ ") " ++ unbounded)
    else if String.eqb aggregation "diff_pct" then
      Ok ("(last_value(" ++ col_ ++ ") " ++ unbounded ++ " - first_value(" ++ col_
          ++ ") " ++ unbounded ++ ") / nullIf(first_value(" ++ col_ ++ ") "
          ++ unbounded ++ ", 0) * 100")
    else Err (UnsupportedAggregation aggregation).

Record ExpressionSQL : Type := {
  column : string;
  where_ : option (list string);
  isWindow : option bool
}.

Definition where_or_empty (x : ExpressionSQL) : list string :=
  match where_ x with Some l => l | None => [] end.

Definition aliasSuffix (a : option string) : string :=
  if truthy a then " AS " ++ str a else "".

Fixpoint translateExpression (expression_ : Expression) (useAliasOnly : bool)
         {struct expression_} : result ExpressionSQL :=
  match expression_ with
  | Constant value _ =>
      Ok {| column := Value_toString value; where_ := None; isWindow := None |}
  | Metric metric _ alias_ =>
      if useAliasOnly then
        Ok {| column := or_else alias_ metric; where_ := None; isWindow := None |}
      else
        Ok {| column := metric ++ aliasSuffix alias_; where_ := None; isWindow := None |}
  | Math operator_ operands alias_ =>
      if useAliasOnly && truthy alias_ then
        Ok {| column := str alias_; where_ := None; isWindow := None |}
      else
        match
          (fix each (l : list Expression) : result (list ExpressionSQL) :=
             match l with
             | [] => Ok []
             | op :: r =>
                 match translateExpression op false with
                 | Err e => Err e
                 | Ok x => match each r with
                           | Ok xs => Ok (x :: xs)
                           | Err e => Err e
                           end
                 end
             end) operands
        with
        | Err e => Err e
        | Ok xs =>
            Ok {| column := "(" ++ JS.join (" " ++ operator_ ++ " ") (map column xs)
                            ++ ")" ++ aliasSuffix alias_;
                  where_ := Some (flat_map where_or_empty xs);
                  isWindow := None |}
        end
  | Aggregate target aggregation time_range _ alias_ =>
      match (if truthy alias_ then Ok (str alias_) else generateAlias expression_) with
      | Err e => Err e
      | Ok alias' =>
          match translateExpression target false with
          | Err e => Err e
          | Ok targetExpr =>
              match
                match time_range with
                | Some (Relative duration u _) =>
                    Ok ["date >= date_sub(now(), INTERVAL " ++ JS.String_Z duration
                        ++ " " ++ JS.toUpperCase (TimeUnit_name u) ++ ")"]
                | Some (Absolute from to) =>
                    match JSDate.isoDate10 (from * 1000) with
                    | Err e => Err e
                    | Ok from_ =>
                        match JSDate.isoDate10 (to * 1000) with
                        | Err e => Err e
                        | Ok to_ =>
                            Ok ["date BETWEEN toDate('" ++ from_ ++ "') AND toDate('"
                                ++ to_ ++ "')"]
                        end
                    end
                | _ => Ok []
                end
              with
              | Err e => Err e
              | Ok dateFilter =>
                  match aggregationToSQL target aggregation time_range
                                         (Some (column targetExpr)) with
                  | Err e => Err e
                  | Ok agg =>
                      Ok {| column := agg ++ " AS " ++ alias';
                            where_ := Some (where_or_empty targetExpr ++ dateFilter)%list;
                            isWindow := Some (match time_range with
                                              | Some _ => true
                                              | None => false
                                              end) |}
                  end
              end
          end
      end
  end.

(** [sideInfo] of [translateFilter]: text of a side and whether it names
    a window alias. *)
Definition sideInfo (ctx_nodes : list ComputeNode) (winAliases : list string)
           (side : Side) : result (string * bool) :=
  match side with
  | SInput input _ =>
      match lookup input ctx_nodes with
      | None => Err (TypeError "n is undefined")
      | Some n =>
          match
            match alias n with
            | Some a => Ok a
            | None =>
                match expression n with
                | Some e => generateAlias e
                | None => Ok ("col_" ++ randomSuffix input)
                end
            end
          with
          | Ok a => Ok (a, JS.includes a winAliases)
          | Err e => Err e
          end
      end
  | SParam parameter_ => Ok (parameter_, false)
  | SExpr e =>
      match translateExpression e true with
      | Ok ex => Ok (column ex, match isWindow ex with Some true => true | _ => false end)
      | Err x => Err x
      end
  end.

(** [translateFilter]; it follows the inputs of composite filters through
    [ctx.nodes], as deep as [fuel] here. *)
Fixpoint translateFilter (fuel : nat) (filter_ : ComputeNode)
         (ctx_nodes : list ComputeNode) (ignoreIds : list string)
         (winAliases : list string) : result (string * bool) :=
  match fuel with
  | O => Err OutOfFuel
  | S fuel' =>
      if NodeType_eqb (type filter_) T_composite_filter then
        let childIds :=
          filter (fun i => negb (JS.includes i ignoreIds)) (inputs filter_) in
        match
          forM (fun cid (acc : list string * bool) =>
                  match lookup cid ctx_nodes with
                  | None => Err (TypeError "childNode is undefined")
                  | Some childNode =>
                      match translateFilter fuel' childNode ctx_nodes ignoreIds
                                            winAliases with
                      | Err e => Err e
                      | Ok (childSql, childWin) =>
                          if String.eqb childSql "" then Ok acc
                          else Ok ((fst acc ++ [childSql])%list, snd acc || childWin)
                      end
                  end)
               childIds ([], false)
        with
        | Err e => Err e
        | Ok (parts, anyWindow) =>
            match parts with
            | [] => Ok ("", false)
            | first :: _ =>
                if option_string_eqb (operator filter_) (Some "not") then
                  Ok ("NOT (" ++ first ++ ")", anyWindow)
                else
                  match operator filter_ with
                  | None => Err (TypeError "filter.operator is undefined")
                  | Some o =>
                      Ok ("(" ++ JS.join (" " ++ JS.toUpperCase o ++ " ") parts ++ ")",
                          anyWindow)
                  end
            end
        end
      else
        match condition filter_ with
        | None => Err (TypeError "cond is undefined")
        | Some cond =>
            match sideInfo ctx_nodes winAliases (left cond) with
            | Err e => Err e
            | Ok (Ltxt, Lwin) =>
                match sideInfo ctx_nodes winAliases (right cond) with
                | Err e => Err e
                | Ok (Rtxt, Rwin) =>
                    Ok (Ltxt ++ " " ++ mapFilterOperatorToSQL (cond_op cond) ++ " " ++ Rtxt,
                        Lwin || Rwin)
                end
            end
        end
  end.

End Translation.

(** ** Notions the specification speaks of *)

Section GraphNotions.

Variable ns : list ComputeNode.

(** [edge a b]: the node filed under [a] lists [b] among its inputs. *)
Definition edge (a b : NodeID) : Prop :=
  exists n, lookup a ns = Some n /\ In b (inputs n).

Definition reaches : NodeID -> NodeID -> Prop :=
  Relation_Operators.clos_trans NodeID edge.

(** There is no cycle along [inputs]. *)
Definition acyclic : Prop := forall a, ~ reaches a a.

(** Every input of every node is the key of a node. *)
Definition inputs_closed : Prop :=
  forall n, In n ns -> forall i, In i (inputs n) -> In i (keys ns).

Definition inputs_closedb : bool :=
  forallb (fun n => forallb (fun i => has i ns) (inputs n)) ns.

(** Every node of the list comes after the nodes it has as inputs. *)
Definition comes_after_inputs (order : list ComputeNode) : Prop :=
  forall l1 n l2, order = (l1 ++ n :: l2)%list ->
  forall i, In i (inputs n) -> In i (map id l1).

(** No node of the graph lists [i] among its inputs. *)
Definition unreferenced (i : NodeID) : Prop :=
  forall m, In m ns -> ~ In i (inputs m).

(** What [getExecutionOrder] keeps true of its three variables. *)
Record Inv (st : VisitState) : Prop := {
  inv_visited : visited st = map id (orderedNodes st);
  inv_nodup : NoDup (visited st);
  inv_nodes : forall n, In n (orderedNodes st) -> lookup (id n) ns = Some n;
  inv_topo : comes_after_inputs (orderedNodes st)
}.

(** A list that holds every node of the graph once, inputs first. *)
Record execution_order (order : list ComputeNode) : Prop := {
  eo_nodup : NoDup (map id order);
  eo_nodes : forall n, In n order -> lookup (id n) ns = Some n;
  eo_all : forall k, In k (keys ns) -> In k (map id order);
  eo_topo : comes_after_inputs order
}.

(** The error names a node that lies on a cycle. *)
Definition real_cycle (e : Error) : Prop :=
  exists x, e = CycleDetected x /\ reaches x x.

(** The error names a node and an input of it that is no node. *)
Definition real_dangling (e : Error) : Prop :=
  exists n i, e = DanglingReference n i /\ edge n i /\ ~ In i (keys ns).

(** A node with the inputs of [node] is filed in the graph. *)
Definition still_filed (node : ComputeNode) : Prop :=
  exists node', In node' ns /\ inputs node' = inputs node.

End GraphNotions.

(** The keys of an object are distinct. *)
Definition well_keyed (ns : list ComputeNode) : Prop := NoDup (keys ns).

Fixpoint distinct (l : list string) : bool :=
  match l with
  | [] => true
  | x :: r => negb (JS.includes x r) && distinct r
  end.

(** Position of a clause in the order
    SELECT, FROM, PREWHERE, WHERE, QUALIFY, GROUP BY, ORDER BY, LIMIT. *)
Definition Clause_rank (c : Clause) : nat :=
  match c with
  | SELECT => 0 | FROM => 1 | PREWHERE => 2 | WHERE => 3 | QUALIFY => 4
  | GROUP_BY => 5 | ORDER_BY => 6 | LIMIT => 7
  end.

(** The clauses of a text follow that order, none twice. *)
Fixpoint in_clause_order (l : list Clause) : bool :=
  match l with
  | [] => true
  | c :: r =>
      match r with
      | [] => true
      | d :: _ => Nat.ltb (Clause_rank c) (Clause_rank d) && in_clause_order r
      end
  end.

(** The calendar date (as the ISO text) of the day a UNIX time in seconds
    falls on, and of the day before. *)
Definition dateOf (seconds : Z) : string :=
  JSDate.date_string (JSDate.Day (seconds * 1000)).

Definition dayBefore (seconds : Z) : string :=
  JSDate.date_string (JSDate.Day (seconds * 1000) - 1).

(** ** Graphs, configurations and queries of the examples *)

Definition no_config : QueryBuilderConfig := {| tables := []; columnMappings := [] |}.

Definition graph_of (ns : list ComputeNode) : ComputeGraph :=
  with_nodes ns (emptyGraph no_config).

(** The graph of the test "should handle execution order". *)
Definition test_order_graph : ComputeGraph :=
  graph_of
    (addNode_nodes
       (set_condition
          (Some {| left := SInput "proj_1" "close";
                   right := SExpr (Constant (VNumber 100%Z) None);
                   cond_op := "gt" |})
          (mkNode "filter_1" T_filter ["proj_1"]))
       (addNode_nodes
          (set_columns
             (Some [{| col := ColName "close"; col_alias := None; sourceNode := None |}])
             (mkNode "proj_1" T_projection ["src_1"]))
          (addNode_nodes (mkNode "src_1" T_source []) []))).

(** The graph of the test "should detect cycles", after the assignment
    [nodes['node_1'].inputs = ['node_2']]. *)
Definition test_cycle_graph : ComputeGraph :=
  graph_of
    (update "node_1" (set_inputs ["node_2"])
       (addNode_nodes
          (set_columns
             (Some [{| col := ColName "close"; col_alias := None; sourceNode := None |}])
             (mkNode "node_2" T_projection ["node_1"]))
          (addNode_nodes (mkNode "node_1" T_source []) []))).

(** A graph with a cycle between [a] and [b], in which [a] also lists an
    input that is no node. *)
Definition cycle_and_dangling : ComputeGraph :=
  graph_of [mkNode "a" T_projection ["zzz"; "b"]; mkNode "b" T_projection ["a"]].

(** A source and a projection of it, as [addNode] files them. *)
Definition source_and_projection : ComputeGraph :=
  graph_of
    (addNode_nodes
       (set_columns
          (Some [{| col := ColName "close"; col_alias := None; sourceNode := None |}])
          (mkNode "proj_1" T_projection ["src_1"]))
       (addNode_nodes (mkNode "src_1" T_source []) [])).

(** Modelled from the spec: the default configuration of [src/settings.ts],
    which is not among the sources.  The specification gives the tables
    [tickers] and [daily_agg], which share the primary key [ticker], the time
    column [date] of [daily_agg] and its always-included columns [ticker] and
    [date]; the metrics are those the tests name. *)
Definition market_config : QueryBuilderConfig :=
  {| tables :=
       [("tickers",
         {| TableConfig.name := "tickers"; TableConfig.timeColumn := None;
            TableConfig.primaryKeys := ["ticker"];
            TableConfig.alwaysIncludeColumns := None |});
        ("daily_agg",
         {| TableConfig.name := "daily_agg"; TableConfig.timeColumn := Some "date";
            TableConfig.primaryKeys := ["ticker"];
            TableConfig.alwaysIncludeColumns := Some ["ticker"; "date"] |})];
     columnMappings :=
       [("ticker", {| ColumnConfig.table := "tickers"; ColumnConfig.column := "ticker" |});
        ("sector", {| ColumnConfig.table := "tickers"; ColumnConfig.column := "sector" |});
        ("country", {| ColumnConfig.table := "tickers"; ColumnConfig.column := "country" |});
        ("close", {| ColumnConfig.table := "daily_agg"; ColumnConfig.column := "close" |});
        ("volume", {| ColumnConfig.table := "daily_agg"; ColumnConfig.column := "volume" |})] |}.

Definition query_of (f : Filter) : UserQuery :=
  {| uq_filter := f; group_by := None; sort_by := None; uq_limit := None |}.

(** [5 < close]: the constant is the target of the filter. *)
Definition constant_left_query : UserQuery :=
  query_of (Simple (Constant (VNumber 5%Z) None) "lt" (Metric "close" None None)).

(** [close / 2 > 5]: a math expression with a constant operand. *)
Definition math_constant_query : UserQuery :=
  query_of (Simple (Math "/" [Metric "close" None None; Constant (VNumber 2%Z) None] None)
                   "gt" (Constant (VNumber 5%Z) None)).

(** A configuration with two tables whose time column is not among the
    columns that are always included. *)
Definition two_series_config : QueryBuilderConfig :=
  {| tables :=
       [("t1", {| TableConfig.name := "t1"; TableConfig.timeColumn := Some "ts";
                  TableConfig.primaryKeys := ["id"];
                  TableConfig.alwaysIncludeColumns := None |});
        ("t2", {| TableConfig.name := "t2"; TableConfig.timeColumn := Some "ts";
                  TableConfig.primaryKeys := ["id"];
                  TableConfig.alwaysIncludeColumns := None |})];
     columnMappings :=
       [("m1", {| ColumnConfig.table := "t1"; ColumnConfig.column := "m1" |});
        ("m2", {| ColumnConfig.table := "t2"; ColumnConfig.column := "m2" |})] |}.

(** [avg over 30 days of (1 + m1 + sum(m2)) > m1] *)
Definition windowed_math_query : UserQuery :=
  query_of
    (Simple
       (Aggregate
          (Math "+" [Constant (VNumber 1%Z) None; Metric "m1" None None;
                     Aggregate (Metric "m2" None None) "sum" None None None] None)
          "avg" (Some (Relative 30 day None)) None None)
       "gt" (Metric "m1" None None)).

(** The graph a query builds, and the graph after a method has run on it. *)
Definition after {A} (m : M A) (g : result ComputeGraph) : result ComputeGraph :=
  match g with
  | Ok g =>
      match m g with
      | Ok (_, g') => Ok g'
      | Err e => Err e
      end
  | Err e => Err e
  end.

(** ** The parameter pass, one round at a time *)

(** What one round of the loop of [inlineParameters], for the expression
    node [i], makes of [this.nodes]. *)
Definition inlineParameter_nodes (i : NodeID) (ns : list ComputeNode)
  : list ComputeNode :=
  match lookup i ns with
  | Some node =>
      if negb (md_flag isParameter node) then ns
      else
        removeNode_nodes i
          (fold_left
             (fun acc d => update (id d) (inlineInto i (constantValue (expression node))) acc)
             (findDependentNodes_nodes i ns) ns)
  | None => ns
  end.

(** [n] is the node [n0] after some writes of the pass: the same node, with
    no input added, and with the inputs it had if it carries neither a
    condition nor criteria. *)
Definition same_node_fewer_inputs (n0 n : ComputeNode) : Prop :=
  id n = id n0 /\
  incl (inputs n) (inputs n0) /\
  type n = type n0 /\
  md_flag isParameter n = md_flag isParameter n0 /\
  (condition n0 = None -> criteria n0 = None ->
   inputs n = inputs n0 /\ condition n = None /\ criteria n = None).

(** Every node of [ns'] comes from the node of [ns] with its key. *)
Definition refines (ns ns' : list ComputeNode) : Prop :=
  forall k n', lookup k ns' = Some n' ->
  exists n, lookup k ns = Some n /\ same_node_fewer_inputs n n'.

(** Every node of [ns] whose key is not [i] is still in [ns']. *)
Definition keeps_but (i : option NodeID) (ns ns' : list ComputeNode) : Prop :=
  forall k n, lookup k ns = Some n -> Some k <> i ->
  exists n', lookup k ns' = Some n' /\ same_node_fewer_inputs n n'.

(** The graph of [math_constant_query] when the parameter pass begins. *)
Definition math_constant_graph : ComputeGraph :=
  match after removedDuplicateProjections
              (fromUserQuery math_constant_query market_config) with
  | Ok g => g
  | Err _ => emptyGraph market_config
  end.

(** ** The emitter: planning the CTEs and building the statement *)

Record NodeGroup : Type := {
  group_id : NodeID;
  group_nodes : list NodeID
}.

Record CTE : Type := {
  cte_id : string;
  cte_sql : string;
  cte_columns : list string
}.

(** [JSON.stringify(a) === JSON.stringify(b)] on time ranges whose fields
    come in the same order. *)
Definition TimeUnit_eqb (a b : TimeUnit) : bool :=
  String.eqb (TimeUnit_name a) (TimeUnit_name b).

Definition TimeRange_eqb (a b : TimeRange) : bool :=
  match a, b with
  | Absolute f1 t1, Absolute f2 t2 => Z.eqb f1 f2 && Z.eqb t1 t2
  | Relative d1 u1 a1, Relative d2 u2 a2
  | Trading d1 u1 a1, Trading d2 u2 a2 =>
      Z.eqb d1 d2 && TimeUnit_eqb u1 u2 && option_Z_eqb a1 a2
  | _, _ => false
  end.

Fixpoint distinct_ranges (seen l : list TimeRange) : nat :=
  match l with
  | [] => O
  | r :: rest =>
      if existsb (TimeRange_eqb r) seen then distinct_ranges seen rest
      else S (distinct_ranges (r :: seen) rest)
  end.

Definition node_time_range (n : ComputeNode) : option TimeRange :=
  if NodeType_eqb (type n) T_expression then
    match expression n with
    | Some (Aggregate _ _ tr _ _) => tr
    | _ => None
    end
  else None.

Definition is_aggregate_expr (n : ComputeNode) : bool :=
  match expression n with Some (Aggregate _ _ _ _ _) => true | _ => false end.

Definition is_metric_expr (n : ComputeNode) : bool :=
  match expression n with Some (Metric _ _ _) => true | _ => false end.

Definition is_last_aggregate (n : ComputeNode) : bool :=
  match expression n with
  | Some (Aggregate _ aggregation _ _ _) => String.eqb aggregation "last"
  | _ => false
  end.

Definition dependents_in (ns : list ComputeNode) (i : NodeID) : list ComputeNode :=
  filter (fun n => JS.includes i (inputs n)) ns.

Definition shouldExpressionBeCTE (ns : list ComputeNode) (node : ComputeNode) : bool :=
  if Nat.ltb 1 (List.length (dependents_in ns (id node))) then true
  else if Nat.ltb 1 (List.length (inputs node)) then true
  else
    match expression node with
    | Some (Aggregate _ _ (Some tr) _ _) =>
        let timeRanges := flat_map (fun n => match node_time_range n with
                                             | Some r => [r]
                                             | None => []
                                             end) ns in
        Nat.ltb 1 (distinct_ranges [] timeRanges)
        || String.eqb (TimeRange_type tr) "relative"
    | _ => false
    end.

Definition shouldFilterBeCTE (ns : list ComputeNode) (node : ComputeNode) : bool :=
  match inputs node with
  | [_] =>
      match find (fun n => JS.includes (id node) (inputs n)) ns with
      | Some uniqueParent => NodeType_eqb (type uniqueParent) T_projection
      | None => false
      end
  | _ => false
  end.

Definition shouldBeCTE (ns : list ComputeNode) (node : ComputeNode) : bool :=
  if NodeType_eqb (type node) T_filter then shouldFilterBeCTE ns node
  else if NodeType_eqb (type node) T_expression then shouldExpressionBeCTE ns node
  else Nat.ltb 1 (List.length (dependents_in ns (id node))).

Definition every_in (ids : list NodeID) (among : list ComputeNode) : bool :=
  forallb (fun i => JS.includes i (map id among)) ids.

(** The ids [addFilterNodesToGroup] pushes on the group. *)
Definition addFilterNodesToGroup (ns projectionNodes lastNodes : list ComputeNode)
  : list NodeID :=
  let filterNodes1 :=
    filter (fun n =>
              forallb (fun d => negb (NodeType_eqb (type d) T_expression)
                                || negb (is_aggregate_expr d))
                      (dependents_in ns (id n)))
      (filter (fun n => NodeType_eqb (type n) T_filter
                        && every_in (inputs n) projectionNodes) ns) in
  let filterNodes2 :=
    filter (fun n => NodeType_eqb (type n) T_filter && every_in (inputs n) lastNodes) ns in
  (map id filterNodes1 ++ map id filterNodes2)%list.

(** [handleExistingGroups]: the nodes of the group once those that an
    earlier group holds have given way to the id of that group. *)
Definition handleExistingGroups (group_ : list NodeID) (groups : list NodeGroup)
  : list NodeID :=
  JS.uniq
    (fold_left
       (fun acc n =>
          fold_left
            (fun acc existingGroup =>
               if JS.includes n (group_nodes existingGroup)
               then (filter (fun i => negb (String.eqb i n)) acc
                     ++ [group_id existingGroup])%list
               else acc)
            groups acc)
       group_ group_).

Definition groupNodesForCTE (ns : list ComputeNode) : list NodeGroup :=
  fold_left
    (fun groups cteNode =>
       let dependentNodes :=
         filter (fun n => negb (NodeType_eqb (type n) T_filter))
           (filter (fun n => negb (NodeType_eqb (type n) T_expression) || is_metric_expr n)
              (filter (fun n => negb (NodeType_eqb (type n) T_sort))
                 (filter (fun n => JS.includes (id cteNode) (inputs n)
                                   && Nat.eqb (List.length (inputs n)) 1) ns))) in
       let projectionNodes :=
         filter (fun n => NodeType_eqb (type n) T_projection
                          && JS.includes (id cteNode) (inputs n)) ns in
       let lastNodes :=
         filter (fun n => NodeType_eqb (type n) T_expression && is_last_aggregate n
                          && every_in (inputs n) projectionNodes) ns in
       let nodes0 :=
         (inputs cteNode ++ [id cteNode] ++ map id dependentNodes
          ++ map id projectionNodes ++ map id lastNodes
          ++ addFilterNodesToGroup ns projectionNodes lastNodes)%list in
       (groups ++ [{| group_id := "cte_" ++ JS.String_nat (List.length groups);
                      group_nodes := handleExistingGroups nodes0 groups |}])%list)
    (filter (shouldBeCTE ns) ns) [].

(** [removeUnusedCTENodes].  The groups are objects that the loop rewrites
    in place, also those it has already kept; the state is the array of all
    groups, and the result names the groups that are kept. *)
Definition removeUnusedCTENodes (groups : list NodeGroup) : list NodeGroup :=
  let '(all, kept) :=
    fold_left
      (fun (st : list NodeGroup * list NodeID) gid =>
         let '(all, kept) := st in
         match find (fun g => String.eqb (group_id g) gid) all with
         | None => st
         | Some g =>
             let cteNodes := filter (JS.startsWith "cte_") (group_nodes g) in
             match cteNodes, group_nodes g with
             | [], _ => (all, (kept ++ [gid])%list)
             | c0 :: _, [_] =>
                 (map (fun group_ =>
                         if JS.includes gid (group_nodes group_)
                         then {| group_id := group_id group_;
                                 group_nodes :=
                                   map (fun i => if String.eqb i gid then c0 else i)
                                       (group_nodes group_) |}
                         else group_) all,
                  kept)
             | _, _ => (all, (kept ++ [gid])%list)
             end
         end)
      (map group_id groups) (groups, []) in
  flat_map (fun gid => match find (fun g => String.eqb (group_id g) gid) all with
                       | Some g => [g]
                       | None => []
                       end) kept.

(** The text of a column after [AS], as the regular expression
    [/^(.*?)(?: AS ([^,]+))?$/] of [generateCTESQL] finds it: what follows
    the first [" AS "] after which no comma comes; the whole text when
    there is none. *)
Definition no_comma (s : string) : bool :=
  match String.index 0 "," s with Some _ => false | None => true end.

Definition is_line_end (c : ascii) : bool :=
  Ascii.eqb c (ascii_of_nat 10) || Ascii.eqb c (ascii_of_nat 13).

Fixpoint columnAlias_from (s : string) : option string :=
  match s with
  | EmptyString => None
  | String c r =>
      if JS.startsWith " AS " s
         && negb (String.eqb (String.substring 4 (String.length s - 4) s) "")
         && no_comma (String.substring 4 (String.length s - 4) s)
      then Some (String.substring 4 (String.length s - 4) s)
      else if is_line_end c then None
      else columnAlias_from r
  end.

Definition columnAlias (c : string) : string :=
  match columnAlias_from c with Some a => a | None => c end.

Section Emitter.

(** The configuration of [src/settings.ts]. *)
Variable DEFAULT_CONFIG : QueryBuilderConfig.
Variable randomSuffix : NodeID -> string.

(** [new RegExp('\\b' + alias + '\\b').test(sql)] and
    [/\b(last_value|first_value|avg|sum|min|max|count)\s*\(/i.test(sql)]:
    the regular expressions of the language. *)
Variable aliasRegExp_test : string -> string -> bool.
Variable inlineWindowRegex_test : string -> bool.

(** The translation context: configuration, nodes by id in execution
    order, time ranges of the aggregates. *)
Record TranslationContext : Type := {
  ctx_config : QueryBuilderConfig;
  ctx_nodes : list ComputeNode;
  timeRanges : list TimeRange
}.

Definition with_ctx_nodes (ns : list ComputeNode) (ctx : TranslationContext)
  : TranslationContext :=
  {| ctx_config := ctx_config ctx; ctx_nodes := ns; timeRanges := timeRanges ctx |}.

(** [QueryBuilder.fromComputeGraph] *)
Definition fromComputeGraph (g : ComputeGraph) (config_ : QueryBuilderConfig)
  : result TranslationContext :=
  match getExecutionOrder_nodes (nodes g) with
  | Err e => Err e
  | Ok ns =>
      Ok {| ctx_config := config_;
            ctx_nodes := fold_left (fun acc n => store n acc) ns [];
            timeRanges := flat_map (fun n => match node_time_range n with
                                             | Some r => [r]
                                             | None => []
                                             end) ns |}
  end.

(** [{ ...e, alias: a }] *)
Definition with_alias (a : option string) (e : Expression) : Expression :=
  match e with
  | Constant v _ => Constant v a
  | Metric m f _ => Metric m f a
  | Math o ops _ => Math o ops a
  | Aggregate t g tr f _ => Aggregate t g tr f a
  end.

Definition is_time_aggregate (e : Expression) : bool :=
  match e with Aggregate _ _ (Some _) _ _ => true | _ => false end.

Definition remember (a : option string) (windowAliases : list string) : list string :=
  if truthy a then set_add (str a) windowAliases else windowAliases.

(** STEP 1 for the expression nodes: an aggregate over a time range gets
    an alias if it has none, and the alias is remembered. *)
Definition rememberExpression (i : NodeID)
           (st : list ComputeNode * list string)
  : result (list ComputeNode * list string) :=
  let '(ns, windowAliases) := st in
  match lookup i ns with
  | None => Err (TypeError "node is undefined")
  | Some n =>
      match expression n with
      | None => Err (TypeError "n.expression is undefined")
      | Some e =>
          if is_time_aggregate e then
            if truthy (alias n) then Ok (ns, remember (alias n) windowAliases)
            else
              match generateAlias e with
              | Err x => Err x
              | Ok a => Ok (update i (set_alias (Some a)) ns,
                            remember (Some a) windowAliases)
              end
          else Ok st
      end
  end.

(** The same for the columns of a projection that hold an expression. *)
Fixpoint rememberColumns (cs : list Column) (windowAliases : list string)
  : result (list Column * list string) :=
  match cs with
  | [] => Ok ([], windowAliases)
  | c :: r =>
      match
        match col c with
        | ColExpr e =>
            if is_time_aggregate e then
              if truthy (col_alias c) then Ok (c, remember (col_alias c) windowAliases)
              else
                match generateAlias e with
                | Err x => Err x
                | Ok a => Ok ({| col := col c; col_alias := Some a;
                                 sourceNode := sourceNode c |},
                              remember (Some a) windowAliases)
                end
            else Ok (c, windowAliases)
        | ColName _ => Ok (c, windowAliases)
        end
      with
      | Err x => Err x
      | Ok (c', w) =>
          match rememberColumns r w with
          | Err x => Err x
          | Ok (r', w') => Ok (c' :: r', w')
          end
      end
  end.

Definition rememberProjection (i : NodeID)
           (st : list ComputeNode * list string)
  : result (list ComputeNode * list string) :=
  let '(ns, windowAliases) := st in
  match lookup i ns with
  | None => Err (TypeError "node is undefined")
  | Some p =>
      match columns p with
      | None => Err (TypeError "p.columns is undefined")
      | Some cs =>
          match rememberColumns cs windowAliases with
          | Err x => Err x
          | Ok (cs', w) => Ok (update i (set_columns (Some cs')) ns, w)
          end
      end
  end.

(** The lists a CTE body is put together from. *)
Record Body : Type := {
  b_cols : list string;
  b_where : list string;
  b_qualify : list string
}.

Definition pushPredicate (windowAliases : list string) (sql_ : string) (b : Body)
  : Body :=
  if String.eqb sql_ "" then b
  else if existsb (fun a => aliasRegExp_test a sql_) windowAliases
          || inlineWindowRegex_test sql_
  then {| b_cols := b_cols b; b_where := b_where b;
          b_qualify := (b_qualify b ++ [sql_])%list |}
  else {| b_cols := b_cols b; b_where := (b_where b ++ [sql_])%list;
          b_qualify := b_qualify b |}.

Definition pushCol (c : string) (b : Body) : Body :=
  {| b_cols := (b_cols b ++ [c])%list; b_where := b_where b; b_qualify := b_qualify b |}.

(** STEP 2, one column of a projection. *)
Definition emitColumn (windowAliases : list string) (c : Column) (b : Body)
  : result Body :=
  match col c with
  | ColName name =>
      Ok (pushCol (if truthy (col_alias c) then name ++ " AS " ++ str (col_alias c)
                   else name) b)
  | ColExpr e =>
      match translateExpression DEFAULT_CONFIG (with_alias (col_alias c) e) false with
      | Err x => Err x
      | Ok out =>
          Ok (pushCol (column out ++ " AS " ++ str (col_alias c))
                      (fold_left (fun b w => pushPredicate windowAliases w b)
                                 (where_or_empty out) b))
      end
  end.

Definition emitProjection (ns : list ComputeNode) (windowAliases : list string)
           (pid : NodeID) (b : Body) : result Body :=
  match lookup pid ns with
  | None => Err (TypeError "node is undefined")
  | Some p =>
      match columns p with
      | None => Err (TypeError "p.columns is not iterable")
      | Some cs => forM (emitColumn windowAliases) cs b
      end
  end.

Definition emitExpression (ns : list ComputeNode) (windowAliases : list string)
           (eid : NodeID) (b : Body) : result Body :=
  match lookup eid ns with
  | None => Err (TypeError "node is undefined")
  | Some e =>
      match expression e with
      | None => Err (TypeError "e.expression is undefined")
      | Some ex =>
          match translateExpression DEFAULT_CONFIG (with_alias (alias e) ex) false with
          | Err x => Err x
          | Ok out =>
              Ok (pushCol (column out)
                          (fold_left (fun b w => pushPredicate windowAliases w b)
                                     (where_or_empty out) b))
          end
      end
  end.

(** STEP 3, one filter node. *)
Definition emitFilter (ns : list ComputeNode) (windowAliases : list string)
           (fid : NodeID) (st : Body * list string) : result (Body * list string) :=
  let '(b, seen) := st in
  match lookup fid ns with
  | None => Err (TypeError "node is undefined")
  | Some f =>
      match translateFilter DEFAULT_CONFIG randomSuffix (S (List.length ns)) f ns []
                            windowAliases with
      | Err x => Err x
      | Ok (sql_, touchesWindow) =>
          if negb (String.eqb sql_ "") && negb (JS.includes sql_ seen) then
            Ok (if touchesWindow
                then {| b_cols := b_cols b; b_where := b_where b;
                        b_qualify := (b_qualify b ++ [sql_])%list |}
                else {| b_cols := b_cols b; b_where := (b_where b ++ [sql_])%list;
                        b_qualify := b_qualify b |},
                (seen ++ [sql_])%list)
          else Ok st
      end
  end.

(** [LIMIT n [OFFSET o] [BY dim]] of a limit node, and the dimension it
    groups by. *)
Definition limitClauseOf (limitNode : ComputeNode) : string * list string :=
  let base := "LIMIT " ++ match limit limitNode with
                          | Some l => JS.String_Z l
                          | None => "undefined"
                          end in
  let off :=
    match metadata limitNode with
    | Some m => match offset m with
                | Some o => if Z.eqb o 0 then "" else " OFFSET " ++ JS.String_Z o
                | None => ""
                end
    | None => ""
    end in
  match metadata limitNode with
  | Some m =>
      if match isGrouped m with Some true => true | _ => false end
         && truthy (groupDimension m)
      then (base ++ off ++ " BY " ++ str (groupDimension m), [str (groupDimension m)])
      else (base ++ off, [])
  | None => (base ++ off, [])
  end.

(** The helper [joinTables] of [generateCTESQL]. *)
Fixpoint joinAdjacent (tabs : list TableConfig.t) : result string :=
  match tabs with
  | t1 :: ((t2 :: _) as rest) =>
      match find (fun k => JS.includes k (TableConfig.primaryKeys t2))
                 (TableConfig.primaryKeys t1) with
      | Some pk =>
          if String.eqb pk "" then Err (NoCommonPK (TableConfig.name t1) (TableConfig.name t2))
          else
            match joinAdjacent rest with
            | Err e => Err e
            | Ok s =>
                Ok (" INNER JOIN " ++ TableConfig.name t2 ++ " ON " ++ TableConfig.name t1
                    ++ "." ++ pk ++ " = " ++ TableConfig.name t2 ++ "." ++ pk ++ s)
            end
      | None => Err (NoCommonPK (TableConfig.name t1) (TableConfig.name t2))
      end
  | _ => Ok ""
  end.

Definition joinCTE (ctx : TranslationContext) (srcs : list NodeID) (ct : NodeID)
  : result string :=
  match lookup ct (ctx_nodes ctx) with
  | None => Err (TypeError "proj is undefined")
  | Some proj =>
      match find (fun i => JS.includes i srcs) (inputs proj) with
      | None => Err (TypeError "node is undefined")
      | Some dep =>
          match lookup dep (ctx_nodes ctx) with
          | None => Err (TypeError "node is undefined")
          | Some depNode =>
              match Dict.get (table_of depNode) (tables (ctx_config ctx)) with
              | None => Err (TypeError "tbl is undefined")
              | Some tbl =>
                  match
                    find (fun k =>
                            existsb (fun c => match col c with
                                              | ColName name => String.eqb name k
                                              | ColExpr _ => false
                                              end)
                                    (match columns proj with Some cs => cs | None => [] end))
                         (TableConfig.primaryKeys tbl)
                  with
                  | Some pk2 =>
                      if String.eqb pk2 "" then Err (NoCommonPK ct ct)
                      else Ok (" INNER JOIN " ++ ct ++ " ON " ++ TableConfig.name tbl
                               ++ "." ++ pk2 ++ " = " ++ ct ++ "." ++ pk2)
                  | None => Err (NoCommonPK ct ct)
                  end
              end
          end
      end
  end.

Fixpoint concat_results (l : list (result string)) : result string :=
  match l with
  | [] => Ok ""
  | Ok s :: r => match concat_results r with Ok t => Ok (s ++ t) | Err e => Err e end
  | Err e :: _ => Err e
  end.

Definition ids_of_node_type (ns : list ComputeNode) (t : NodeType) (ids : list NodeID)
  : result (list NodeID) :=
  match
    all_results
      (map (fun i => match lookup i ns with
                     | Some n => Ok (i, NodeType_eqb (type n) t)
                     | None => Err (TypeError "node is undefined")
                     end) ids)
  with
  | Ok l => Ok (map fst (filter snd l))
  | Err e => Err e
  end.

(** [generateCTESQL]: the CTE of a group (none for a group without
    source and without CTE), and the nodes of the context with the
    aliases the function has written. *)
Definition generateCTESQL (ctx : TranslationContext) (group_ : NodeGroup)
  : result (option CTE * TranslationContext) :=
  let ns := ctx_nodes ctx in
  let cteIds := filter (JS.startsWith "cte_") (group_nodes group_) in
  let nonCte := filter (fun i => negb (JS.includes i cteIds)) (group_nodes group_) in
  match ids_of_node_type ns T_source nonCte with
  | Err e => Err e
  | Ok sourceIds =>
      match sourceIds, cteIds with
      | [], [] => Ok (None, ctx)
      | _, _ =>
          match
            all_results
              (map (fun i =>
                      match lookup i ns with
                      | Some s =>
                          match Dict.get (table_of s) (tables (ctx_config ctx)) with
                          | Some t => Ok t
                          | None => Err (TypeError "table configuration is undefined")
                          end
                      | None => Err (TypeError "node is undefined")
                      end) sourceIds)
          with
          | Err e => Err e
          | Ok srcCfgs =>
              match
                match srcCfgs with
                | [] => Ok ("FROM " ++ hd "undefined" cteIds, [])
                | s0 :: _ =>
                    match
                      match srcCfgs with
                      | _ :: _ :: _ =>
                          match joinAdjacent srcCfgs with
                          | Err e => Err e
                          | Ok j =>
                              match concat_results (map (joinCTE ctx sourceIds) cteIds) with
                              | Ok c => Ok (j ++ c)
                              | Err e => Err e
                              end
                          end
                      | _ => Ok ""
                      end
                    with
                    | Err e => Err e
                    | Ok joins =>
                        match addLargestTimeRangeFilter srcCfgs (timeRanges ctx) [] with
                        | Err e => Err e
                        | Ok preWhere => Ok ("FROM " ++ TableConfig.name s0 ++ joins, preWhere)
                        end
                    end
                end
              with
              | Err e => Err e
              | Ok (from0, preWhere) =>
                  let rest := match srcCfgs with [] => tl cteIds | _ => cteIds end in
                  let fromStmt_ :=
                    match rest with
                    | [] => from0
                    | _ => from0 ++ " " ++ JS.join ", " rest
                    end in
                  match ids_of_node_type ns T_projection nonCte,
                        ids_of_node_type ns T_expression nonCte,
                        ids_of_node_type ns T_filter nonCte,
                        ids_of_node_type ns T_limit nonCte with
                  | Ok projIds, Ok exprIds, Ok filterIds, Ok limIds =>
                      match forM rememberExpression exprIds (ns, []) with
                      | Err e => Err e
                      | Ok st1 =>
                          match forM rememberProjection projIds st1 with
                          | Err e => Err e
                          | Ok (ns', windowAliases) =>
                              let b0 :=
                                {| b_cols := match projIds, exprIds with
                                             | [], [] => ["*"]
                                             | _, _ => []
                                             end;
                                   b_where := []; b_qualify := [] |} in
                              match forM (emitProjection ns' windowAliases) projIds b0 with
                              | Err e => Err e
                              | Ok b1 =>
                                  match forM (emitExpression ns' windowAliases) exprIds b1 with
                                  | Err e => Err e
                                  | Ok b2 =>
                                      match forM (emitFilter ns' windowAliases) filterIds
                                                 (b2, []) with
                                      | Err e => Err e
                                      | Ok (b3, _) =>
                                          let '(limitClause, groupBy_) :=
                                            match limIds with
                                            | limId :: _ =>
                                                match lookup limId ns' with
                                                | Some l => limitClauseOf l
                                                | None => ("", [])
                                                end
                                            | [] => ("", [])
                                            end in
                                          let cols_ := JS.uniq (b_cols b3) in
                                          let body :=
                                            cteBodySQL cols_ fromStmt_ preWhere
                                                       (b_qualify b3) (b_where b3)
                                                       (JS.uniq groupBy_) [] limitClause in
                                          Ok (Some {| cte_id := group_id group_;
                                                      cte_sql := group_id group_ ++ " AS ("
                                                                 ++ newline ++ body
                                                                 ++ newline ++ ")";
                                                      cte_columns := map columnAlias cols_ |},
                                              with_ctx_nodes ns' ctx)
                                      end
                                  end
                              end
                          end
                      end
                  | Err e, _, _, _ => Err e
                  | _, Err e, _, _ => Err e
                  | _, _, Err e, _ => Err e
                  | _, _, _, Err e => Err e
                  end
              end
          end
      end
  end.

End Emitter.

Section MainQuery.

Variable DEFAULT_CONFIG : QueryBuilderConfig.
Variable randomSuffix : NodeID -> string.
Variable aliasRegExp_test : string -> string -> bool.
Variable inlineWindowRegex_test : string -> bool.

(** [generateCTESQL] over the groups, in order; the groups without CTE
    drop out. *)
Fixpoint generateCTEs (ctx : TranslationContext) (groups : list NodeGroup)
  : result (list CTE * TranslationContext) :=
  match groups with
  | [] => Ok ([], ctx)
  | g :: r =>
      match generateCTESQL DEFAULT_CONFIG randomSuffix aliasRegExp_test
                           inlineWindowRegex_test ctx g with
      | Err e => Err e
      | Ok (c, ctx') =>
          match generateCTEs ctx' r with
          | Err e => Err e
          | Ok (cs, ctx'') =>
              Ok (match c with Some c => c :: cs | None => cs end, ctx'')
          end
      end
  end.

(** [addCTEColumns] *)
Definition addCTEColumns (cteSqls : list CTE) : list string :=
  snd (fold_left
         (fun (st : list string * list string) (p : string * string) =>
            let '(usedAliases, cols_) := st in
            let '(cid, c) := p in
            let first_use := cid ++ "." ++ c ++ " AS " ++ c in
            let later_use := cid ++ "." ++ c in
            if negb (JS.includes c usedAliases)
            then ((usedAliases ++ [c])%list, (cols_ ++ [first_use])%list)
            else (usedAliases, (cols_ ++ [later_use])%list))
         (flat_map (fun c => map (pair (cte_id c)) (cte_columns c)) cteSqls)
         ([], [])).

(** [buildFromClause] *)
Definition buildFromClause (cteSqls : list CTE) : string :=
  match cteSqls with
  | [] => ""
  | c0 :: rest =>
      " FROM " ++ cte_id c0
      ++ String.concat "" (map (fun c => " CROSS JOIN " ++ cte_id c) rest)
  end.

(** Step 1 of [addFilters]: the aliases of the aggregates over a time
    range among the nodes outside the CTEs. *)
Definition rememberTopExpression (i : NodeID)
           (st : list ComputeNode * list string)
  : result (list ComputeNode * list string) :=
  let '(ns, windowAliases) := st in
  match lookup i ns with
  | None => Err (TypeError "node is undefined")
  | Some n =>
      if NodeType_eqb (type n) T_expression then
        match expression n with
        | None => Err (TypeError "ex is undefined")
        | Some ex =>
            if is_time_aggregate ex then
              match alias n with
              | Some a => Ok (ns, set_add a windowAliases)
              | None =>
                  match generateAlias ex with
                  | Err x => Err x
                  | Ok a => Ok (update i (set_alias (Some a)) ns, set_add a windowAliases)
                  end
              end
            else Ok st
        end
      else Ok st
  end.

(** Step 2 of [addFilters]: the same for the expression columns of the
    projections; here an alias is added to the set whatever it is. *)
Fixpoint rememberTopColumns (cs : list Column) (windowAliases : list string)
  : result (list Column * list string) :=
  match cs with
  | [] => Ok ([], windowAliases)
  | c :: r =>
      match
        match col c with
        | ColExpr e =>
            if is_time_aggregate e then
              if truthy (col_alias c) then Ok (c, set_add (str (col_alias c)) windowAliases)
              else
                match generateAlias e with
                | Err x => Err x
                | Ok a => Ok ({| col := col c; col_alias := Some a;
                                 sourceNode := sourceNode c |},
                              set_add a windowAliases)
                end
            else Ok (c, windowAliases)
        | ColName _ => Ok (c, windowAliases)
        end
      with
      | Err x => Err x
      | Ok (c', w) =>
          match rememberTopColumns r w with
          | Err x => Err x
          | Ok (r', w') => Ok (c' :: r', w')
          end
      end
  end.

Definition rememberTopProjection (i : NodeID)
           (st : list ComputeNode * list string)
  : result (list ComputeNode * list string) :=
  let '(ns, windowAliases) := st in
  match lookup i ns with
  | None => Err (TypeError "node is undefined")
  | Some p =>
      if NodeType_eqb (type p) T_projection then
        match columns p with
        | None => Err (TypeError "proj.columns is undefined")
        | Some cs =>
            match rememberTopColumns cs windowAliases with
            | Err x => Err x
            | Ok (cs', w) => Ok (update i (set_columns (Some cs')) ns, w)
            end
        end
      else Ok st
  end.

(** [addFilters]: the predicates of the main statement, [filters] and
    [qualify]. *)
Definition addFilters (ctx : TranslationContext) (nonCteNodes : list NodeID)
           (nodeGroups : list NodeGroup)
  : result (list string * list string * TranslationContext) :=
  let ns := ctx_nodes ctx in
  let filterNodes :=
    filter (fun i => match lookup i ns with
                     | Some n => isFilterType n
                     | None => false
                     end) nonCteNodes in
  match filterNodes with
  | [] => Ok ([], [], ctx)
  | _ =>
      match forM rememberTopExpression nonCteNodes (ns, []) with
      | Err e => Err e
      | Ok st1 =>
          match forM rememberTopProjection nonCteNodes st1 with
          | Err e => Err e
          | Ok (ns', windowAliases) =>
              let alreadyApplied :=
                flat_map (fun g => filter (fun i => JS.startsWith "filter_" i
                                                    || JS.startsWith "composite_filter_" i)
                                          (group_nodes g)) nodeGroups in
              match
                forM (fun fid (acc : list string * list string) =>
                        if JS.includes fid alreadyApplied then Ok acc
                        else
                          match lookup fid ns' with
                          | None => Err (TypeError "node is undefined")
                          | Some f =>
                              match translateFilter DEFAULT_CONFIG randomSuffix
                                                    (S (List.length ns')) f ns' []
                                                    windowAliases with
                              | Err x => Err x
                              | Ok (sql_, touchesWindow) =>
                                  if String.eqb sql_ "" then Ok acc
                                  else if touchesWindow
                                       then Ok (fst acc, (snd acc ++ [sql_])%list)
                                       else Ok ((fst acc ++ [sql_])%list, snd acc)
                              end
                          end)
                     filterNodes ([], [])
              with
              | Err e => Err e
              | Ok (filters_, qualify_) => Ok (filters_, qualify_, with_ctx_nodes ns' ctx)
              end
          end
      end
  end.

(** [translateSortNode] *)
Definition translateSortNode (ns : list ComputeNode) (node : ComputeNode) : string :=
  JS.join ", "
    (map (fun c =>
            let expr_ :=
              match lookup (crit_expression c) ns with
              | Some maybeNode =>
                  if truthy (alias maybeNode) then str (alias maybeNode)
                  else crit_expression c
              | None => crit_expression c
              end in
            expr_ ++ " " ++ direction c)
         (match criteria node with Some cs => cs | None => [] end)).

(** [translateToSQL] *)
Definition translateToSQL (ctx : TranslationContext) : result string :=
  let nodeGroups := removeUnusedCTENodes (groupNodesForCTE (ctx_nodes ctx)) in
  match generateCTEs ctx nodeGroups with
  | Err e => Err e
  | Ok (cteSqls, ctx1) =>
      let nonCteNodes :=
        filter (fun n => negb (existsb (fun g => JS.includes (id n) (group_nodes g))
                                       nodeGroups))
               (ctx_nodes ctx1) in
      match addFilters ctx1 (map id nonCteNodes) nodeGroups with
      | Err e => Err e
      | Ok (filters_, qualify_, ctx2) =>
          let ns := ctx_nodes ctx2 in
          let nonCte := flat_map (fun n => match lookup (id n) ns with
                                           | Some n' => [n']
                                           | None => []
                                           end) nonCteNodes in
          let limit_ :=
            match find (fun n => NodeType_eqb (type n) T_limit) nonCte with
            | Some l => limitClauseOf l
            | None => ("", [])
            end in
          Ok (assembleSQL
                {| sql := match cteSqls with
                          | [] => ""
                          | _ => "WITH " ++ JS.join ("," ++ newline) (map cte_sql cteSqls)
                                 ++ newline
                          end;
                   cols := addCTEColumns cteSqls;
                   fromStmt := buildFromClause cteSqls;
                   preFilters := [];
                   filters := filters_;
                   qualify := qualify_;
                   groupBy := snd limit_;
                   orderBy := map (translateSortNode ns)
                                  (filter (fun n => NodeType_eqb (type n) T_sort) nonCte);
                   limitSql := fst limit_ |})
      end
  end.

(** [buildQuery]: the statement and the parameters of a query. *)
Definition buildQuery (req : UserQuery) : result (string * Dict.t (Value Z)) :=
  match after (optimize false) (fromUserQuery req DEFAULT_CONFIG) with
  | Err e => Err e
  | Ok g =>
      match fromComputeGraph g DEFAULT_CONFIG with
      | Err e => Err e
      | Ok ctx =>
          match translateToSQL ctx with
          | Err e => Err e
          | Ok q => Ok (q, parameters g)
          end
      end
  end.

End MainQuery.

(** ** A reading of the two regular expressions on plain words *)

Definition is_word_char (c : ascii) : bool :=
  let n := nat_of_ascii c in
  (Nat.leb 48 n && Nat.leb n 57) || (Nat.leb 65 n && Nat.leb n 90)
  || (Nat.leb 97 n && Nat.leb n 122) || Nat.eqb n 95.

Definition first_is_word (s : string) : bool :=
  match s with String c _ => is_word_char c | EmptyString => false end.

(** [\b] between a character (if any) and the text that follows. *)
Definition boundary (prev : option ascii) (s : string) : bool :=
  xorb (match prev with Some c => is_word_char c | None => false end) (first_is_word s).

Definition last_char (s : string) : option ascii :=
  String.get (String.length s - 1) s.

(** A literal word between two word boundaries, somewhere in the text. *)
Fixpoint word_occurs_from (a : string) (prev : option ascii) (s : string) : bool :=
  (boundary prev s && JS.startsWith a s
   && boundary (match last_char a with Some c => Some c | None => prev end)
               (String.substring (String.length a) (String.length s - String.length a) s))
  || match s with
     | EmptyString => false
     | String c r => word_occurs_from a (Some c) r
     end.

Definition word_occurs (a sql_ : string) : bool := word_occurs_from a None sql_.

Fixpoint toLowerCase (s : string) : string :=
  match s with
  | EmptyString => EmptyString
  | String c r =>
      let n := nat_of_ascii c in
      String (if Nat.leb 65 n && Nat.leb n 90 then ascii_of_nat (n + 32) else c)
             (toLowerCase r)
  end.

Fixpoint skip_spaces (s : string) : string :=
  match s with
  | String c r =>
      let n := nat_of_ascii c in
      if Nat.eqb n 32 || (Nat.leb 9 n && Nat.leb n 13) then skip_spaces r else s
  | EmptyString => s
  end.

Definition window_call_at (s : string) : bool :=
  existsb
    (fun f =>
       JS.startsWith f (toLowerCase s)
       && JS.startsWith "(" (skip_spaces (String.substring (String.length f)
                                            (String.length s - String.length f) s)))
    ["last_value"; "first_value"; "avg"; "sum"; "min"; "max"; "count"].

Fixpoint inline_window_from (prev : option ascii) (s : string) : bool :=
  (boundary prev s && window_call_at s)
  || match s with
     | EmptyString => false
     | String c r => inline_window_from (Some c) r
     end.

Definition inline_window (sql_ : string) : bool := inline_window_from None sql_.

Definition no_random (i : NodeID) : string := "????".

(** [buildQuery] under the configuration [market_config]. *)
Definition buildMarketQuery (req : UserQuery) : result (string * Dict.t (Value Z)) :=
  buildQuery market_config no_random word_occurs inline_window req.

(** ** Notions for the emitter *)

Section FilterChildren.

Variable DEFAULT_CONFIG : QueryBuilderConfig.
Variable randomSuffix : NodeID -> string.

(** The translations of the children of a composite filter, in the order
    of its inputs. *)
Fixpoint childResults (fuel : nat) (ctx_nodes_ : list ComputeNode)
         (ignoreIds winAliases : list string) (childIds : list NodeID)
  : result (list (string * bool)) :=
  match childIds with
  | [] => Ok []
  | cid :: r =>
      match lookup cid ctx_nodes_ with
      | None => Err (TypeError "childNode is undefined")
      | Some childNode =>
          match translateFilter DEFAULT_CONFIG randomSuffix fuel childNode ctx_nodes_
                                ignoreIds winAliases with
          | Err e => Err e
          | Ok x =>
              match childResults fuel ctx_nodes_ ignoreIds winAliases r with
              | Ok xs => Ok (x :: xs)
              | Err e => Err e
              end
          end
      end
  end.

(** The children that gave a text. *)
Definition nonEmptyResults (rs : list (string * bool)) : list (string * bool) :=
  filter (fun r => negb (String.eqb (fst r) "")) rs.

End FilterChildren.

(** Queries of the tests and of the examples for the emitter. *)

(** The query of the test "should handle maximum timestamp". *)
Definition max_timestamp_query : UserQuery :=
  query_of (Simple (Aggregate (Metric "close" None None) "last"
                              (Some (Absolute 0 2147483647)) None None)
                   "gt" (Constant (VNumber 100%Z) None)).

(** The query of the test of the absolute time range, from 2024-01-01 to
    2024-12-31, both at midnight. *)
Definition absolute_range_query : UserQuery :=
  query_of (Simple (Aggregate (Metric "close" None None) "diff_pct"
                              (Some (Absolute 1704067200 1735603200)) None
                              (Some "ytd_return"))
                   "gt" (Constant (VNumber 0%Z) None)).

(** A range that begins on 2024-01-01 at noon. *)
Definition noon_range_query : UserQuery :=
  query_of (Simple (Aggregate (Metric "close" None None) "last"
                              (Some (Absolute 1704110400 1735603200)) None None)
                   "gt" (Constant (VNumber 100%Z) None)).

(** [not (sector = 'Tech', country = 'US')]: a negation with two children,
    which the schema of the request accepts. *)
Definition not_two_children_query : UserQuery :=
  query_of (Composite "not"
              [Simple (Metric "sector" None None) "eq" (Constant (VString "Tech") None);
               Simple (Metric "country" None None) "eq" (Constant (VString "US") None)]).

(** The nodes the emitter works on for that query. *)
Definition not_two_children_nodes : list ComputeNode :=
  match after (optimize false) (fromUserQuery not_two_children_query market_config) with
  | Ok g =>
      match getExecutionOrder_nodes (nodes g) with
      | Ok ns => ns
      | Err _ => []
      end
  | Err _ => []
  end.

Definition daily_agg_config : TableConfig.t :=
  {| TableConfig.name := "daily_agg"; TableConfig.timeColumn := Some "date";
     TableConfig.primaryKeys := ["ticker"];
     TableConfig.alwaysIncludeColumns := Some ["ticker"; "date"] |}.

(** The composite filter of that query, as the emitter meets it. *)
Definition not_two_children_filter : ComputeNode :=
  match lookup "composite_filter_1" not_two_children_nodes with
  | Some n => n
  | None => mkNode "composite_filter_1" T_composite_filter []
  end.

(** ** Reading the clauses off an emitted text *)

(** The lines of a text. *)
Fixpoint split_lines (s : string) : list string :=
  match s with
  | EmptyString => [EmptyString]
  | String c r =>
      if Nat.eqb (nat_of_ascii c) 10 then EmptyString :: split_lines r
      else
        match split_lines r with
        | [] => [String c EmptyString]
        | l :: ls => String c l :: ls
        end
  end.

(** The clause a line opens, by its keyword. *)
Definition clauseOfLine (line : string) : option Clause :=
  let l := skip_spaces line in
  if JS.startsWith "SELECT " l then Some SELECT
  else if JS.startsWith "FROM " l then Some FROM
  else if JS.startsWith "PREWHERE " l then Some PREWHERE
  else if JS.startsWith "WHERE " l then Some WHERE
  else if JS.startsWith "QUALIFY " l then Some QUALIFY
  else if JS.startsWith "GROUP BY " l then Some GROUP_BY
  else if JS.startsWith "ORDER BY " l then Some ORDER_BY
  else if JS.startsWith "LIMIT " l then Some LIMIT
  else None.

Fixpoint clausesOfLines (ls : list string) : list Clause :=
  match ls with
  | [] => []
  | l :: r =>
      match clauseOfLine l with
      | Some c => c :: clausesOfLines r
      | None => clausesOfLines r
      end
  end.

Definition textClauses (text : string) : list Clause :=
  clausesOfLines (split_lines text).

(** The CTEs [translateToSQL] generates for a request under
    [market_config]. *)
Definition marketCTEs (req : UserQuery) : result (list CTE) :=
  match after (optimize false) (fromUserQuery req market_config) with
  | Err e => Err e
  | Ok g =>
      match fromComputeGraph g market_config with
      | Err e => Err e
      | Ok ctx =>
          match generateCTEs market_config no_random word_occurs inline_window ctx
                             (removeUnusedCTENodes (groupNodesForCTE (ctx_nodes ctx))) with
          | Err e => Err e
          | Ok (cteSqls, _) => Ok cteSqls
          end
      end
  end.

(** ** Notions for the further properties *)

(** The node refers to the id [i]: in its inputs, in a side of its
    condition, in its criteria or as the source of a column. *)
Definition side_refers (i : NodeID) (s : Side) : bool :=
  match s with
  | SInput input _ => String.eqb input i
  | _ => false
  end.

Definition refersTo (i : NodeID) (n : ComputeNode) : bool :=
  JS.includes i (inputs n)
  || match condition n with
     | Some c => side_refers i (left c) || side_refers i (right c)
     | None => false
     end
  || match criteria n with
     | Some cs => existsb (fun c => String.eqb (crit_expression c) i) cs
     | None => false
     end
  || match columns n with
     | Some cs => existsb (fun c => option_string_eqb (sourceNode c) (Some i)) cs
     | None => false
     end.

(** [sector = 'Tech' or country = 'US'] and the nodes the emitter works on
    for it. *)
Definition or_two_children_query : UserQuery :=
  query_of (Composite "or"
              [Simple (Metric "sector" None None) "eq" (Constant (VString "Tech") None);
               Simple (Metric "country" None None) "eq" (Constant (VString "US") None)]).

(** The context [fromComputeGraph] makes of the optimized graph of a
    request under [market_config]. *)
Definition marketContext (req : UserQuery) : TranslationContext :=
  match after (optimize false) (fromUserQuery req market_config) with
  | Ok g =>
      match fromComputeGraph g market_config with
      | Ok ctx => ctx
      | Err _ => {| ctx_config := market_config; ctx_nodes := []; timeRanges := [] |}
      end
  | Err _ => {| ctx_config := market_config; ctx_nodes := []; timeRanges := [] |}
  end.

Definition or_two_children_filter : ComputeNode :=
  match lookup "composite_filter_1" (ctx_nodes (marketContext or_two_children_query)) with
  | Some n => n
  | None => mkNode "composite_filter_1" T_composite_filter []
  end.

(** Induction on expressions and filters, through the lists of operands and
    of filters. *)
Section ExpressionInduction.

Variable P : Expression -> Prop.
Variable Q : Filter -> Prop.

Hypothesis P_Constant : forall v a, P (Constant v a).
Hypothesis P_Metric :
  forall m f a, (forall x, f = Some x -> Q x) -> P (Metric m f a).
Hypothesis P_Math : forall o ops a, Forall P ops -> P (Math o ops a).
Hypothesis P_Aggregate :
  forall t g tr f a, P t -> (forall x, f = Some x -> Q x) -> P (Aggregate t g tr f a).
Hypothesis Q_Simple : forall t o v, P t -> P v -> Q (Simple t o v).
Hypothesis Q_Composite : forall o fs, Forall Q fs -> Q (Composite o fs).

Fixpoint Expression_induction (e : Expression) : P e :=
  match e with
  | Constant v a => P_Constant v a
  | Metric m f a =>
      P_Metric m a
        (match f as f0 return forall x, f0 = Some x -> Q x with
         | Some y => fun x E => match E in _ = o return
                                      match o with Some z => Q z | None => True end
                                with eq_refl => Filter_induction y end
         | None => fun x E => match E in _ = o return
                                    match o with Some z => Q z | None => True end
                              with eq_refl => I end
         end)
  | Math o ops a =>
      P_Math o a
        ((fix go (l : list Expression) : Forall P l :=
            match l with
            | [] => Forall_nil P
            | x :: r => Forall_cons x (Expression_induction x) (go r)
            end) ops)
  | Aggregate t g tr f a =>
      P_Aggregate g tr a (Expression_induction t)
        (match f as f0 return forall x, f0 = Some x -> Q x with
         | Some y => fun x E => match E in _ = o return
                                      match o with Some z => Q z | None => True end
                                with eq_refl => Filter_induction y end
         | None => fun x E => match E in _ = o return
                                    match o with Some z => Q z | None => True end
                              with eq_refl => I end
         end)
  end
with Filter_induction (f : Filter) : Q f :=
  match f with
  | Simple t o v => Q_Simple o (Expression_induction t) (Expression_induction v)
  | Composite o fs =>
      Q_Composite o
        ((fix go (l : list Filter) : Forall Q l :=
            match l with
            | [] => Forall_nil Q
            | x :: r => Forall_cons x (Filter_induction x) (go r)
            end) fs)
  end.

End ExpressionInduction.

(** An expression with the bounds of its time ranges and the filters of its
    metrics wiped out: what is left of a range is its kind. *)
Definition eraseRange (r : TimeRange) : TimeRange :=
  match r with
  | Absolute _ _ => Absolute 0 0
  | Relative _ _ _ => Relative 0 second None
  | Trading _ _ _ => Trading 0 second None
  end.

Fixpoint eraseBounds (e : Expression) : Expression :=
  match e with
  | Constant v a => Constant v a
  | Metric m _ a => Metric m None a
  | Math o ops a => Math o (map eraseBounds ops) a
  | Aggregate t g tr f a =>
      Aggregate (eraseBounds t) g (option_map eraseRange tr)
                (option_map eraseFilterBounds f) a
  end
with eraseFilterBounds (f : Filter) : Filter :=
  match f with
  | Simple t o v => Simple (eraseBounds t) o (eraseBounds v)
  | Composite o fs => Composite o (map eraseFilterBounds fs)
  end.

(** [String.prototype.slice(0, end)]: a negative [end] counts from the end
    of the string. *)
Definition slice0Z (end_ : Z) (s : string) : string :=
  if (end_ <? 0)%Z
  then String.substring 0 (Z.to_nat (Z.of_nat (String.length s) + end_)) s
  else String.substring 0 (Z.to_nat end_) s.

(** [truncateForLabel] of the graph, whose [maxLength] is 40 by default. *)
Definition truncateForLabel (value : string) (maxLength : Z) : string :=
  if (maxLength <? Z.of_nat (String.length value))%Z
  then slice0Z (maxLength - 3) value ++ "..."
  else value.

(** A method relates the table it finds to the table it leaves by [R],
    whenever it returns. *)
Definition respects (R : list ComputeNode -> list ComputeNode -> Prop)
           {A : Type} (m : M A) : Prop :=
  forall g a g', m g = Ok (a, g') -> R (nodes g) (nodes g').

(** The table [ns'] has no more nodes than [ns]. *)
Definition no_more (ns ns' : list ComputeNode) : Prop :=
  List.length ns' <= List.length ns.

(** The passes of the optimizer that only rewrite and remove. *)
Definition removingPasses : list (M unit) :=
  [removedDuplicateProjections; inlineParameters; removeUselessCompositeFilters;
   removeDuplicateProjectionExpressions; removeDuplicateFilters].

(** *** What the constructor keeps true of the graph *)

(** The id [generateNodeID] makes of a type and a count. *)
Definition nodeIdOf (t : NodeType) (count : nat) : NodeID :=
  JS.replaceFirst_char "-" "_" (NodeType_name t) ++ "_" ++ JS.String_nat count.

(** Every id of the table was made by [generateNodeID], from a count that
    the counter of its type has reached. *)
Definition ids_generated (g : ComputeGraph) : Prop :=
  forall n, In n (nodes g) ->
  exists t k, id n = nodeIdOf t k /\ k <= nodeTypesCounter g t.

(** Every input is the key of a node, and the inputs go down along a
    rank. *)
Definition ranked (rank : NodeID -> nat) (ns : list ComputeNode) : Prop :=
  forall n, In n ns -> forall i, In i (inputs n) ->
  In i (keys ns) /\ rank i < rank (id n).

(** The source nodes have no inputs. *)
Definition sources_are_leaves (ns : list ComputeNode) : Prop :=
  forall n, In n ns -> type n = T_source -> inputs n = [].

Record built (g : ComputeGraph) : Prop := {
  built_keyed : well_keyed (nodes g);
  built_ids : ids_generated g;
  built_ranked : exists rank, ranked rank (nodes g);
  built_sources : sources_are_leaves (nodes g)
}.

(** A query with every kind of clause, for the examples. *)
Definition full_query : UserQuery :=
  {| uq_filter :=
       Composite "and"
         [Simple (Aggregate (Metric "close" None None) "avg"
                            (Some (Relative 30 day None)) None None)
                 "gt" (Metric "close" None None);
          Simple (Metric "sector" None None) "eq" (Constant (VString "Tech") None)];
     group_by := Some [GroupDimension "sector"];
     sort_by := Some [{| sc_expression := Metric "volume" None None;
                         sc_direction := "desc" |}];
     uq_limit := Some 10%Z |}.

(** What the invariants of the constructor read of a node. *)
Definition shape (n : ComputeNode) : NodeID * NodeType * list NodeID :=
  (id n, type n, inputs n).

(** From [g] to [g'] the invariants are kept and no key is lost. *)
Definition grows_built (g g' : ComputeGraph) : Prop :=
  built g' /\ incl (keys (nodes g)) (keys (nodes g')).

(** What holds of the table while [inferJoins] rewires it: [S] are the ids
    of the source nodes and [j] is the id of the join node. *)
Record joining (S : list NodeID) (j : NodeID) (rank : NodeID -> nat)
       (ns : list ComputeNode) : Prop := {
  joining_closed : forall n, In n ns -> incl (inputs n) (keys ns);
  joining_sources : forall n, In n ns -> In (id n) S -> inputs n = [];
  joining_join : forall n, In n ns -> id n = j -> incl (inputs n) S;
  joining_others :
    forall n, In n ns -> ~ In (id n) S -> id n <> j ->
    forall i, In i (inputs n) -> In i S \/ i = j \/ rank i < rank (id n)
}.

Record join_state (S : list NodeID) (j : NodeID) (rank : NodeID -> nat)
       (g : ComputeGraph) : Prop := {
  js_keyed : well_keyed (nodes g);
  js_ids : ids_generated g;
  js_leaves : sources_are_leaves (nodes g);
  js_joining : joining S j rank (nodes g);
  js_join : In j (keys (nodes g))
}.

(** *** What the methods keep true of the whole graph *)

Definition keeps (I : ComputeGraph -> Prop) {A : Type} (m : M A) : Prop :=
  forall g a g', I g -> m g = Ok (a, g') -> I g'.

(** A value that [createParameter] stores: a string, or an array that is
    not empty and whose elements have one type. *)
Definition stored_value (v : Value Z) : Prop :=
  match v with
  | VString _ => True
  | VArray (v0 :: rest) => sameType (v0 :: rest) = true
  | _ => False
  end.

(** The table of parameters: the names are [param_1], [param_2], ... in
    this order, and the values are stored values. *)
Definition parameters_wf (ps : Dict.t (Value Z)) : Prop :=
  named_in_order ps /\ forall k v, In (k, v) ps -> stored_value v.

(** The source nodes of a table of nodes with the table each one reads, as
    [ensureRequiredColumns] lists them. *)
Definition sourceTables (ns : list ComputeNode) : list (NodeID * option string) :=
  map (fun n => (id n, table n))
      (filter (fun n => NodeType_eqb (type n) T_source) ns).

(** * Properties *)

Unset Implicit Arguments.

(** * Facts on the built-ins *)

Lemma includes_In x l : JS.includes x l = true <-> In x l.
Proof.
  unfold JS.includes. rewrite existsb_exists. split.
  - intros [y [Hy He]]. apply String.eqb_eq in He. now subst.
  - intros H. exists x. split; [assumption | apply String.eqb_refl].
Qed.

Lemma includes_false x l : JS.includes x l = false <-> ~ In x l.
Proof.
  rewrite <- includes_In. destruct (JS.includes x l); split; congruence.
Qed.

Lemma set_add_In x y s : In y (set_add x s) <-> y = x \/ In y s.
Proof.
  unfold set_add. destruct (JS.includes x s) eqn:E.
  - apply includes_In in E. split; [tauto | intros [-> | H]; assumption].
  - rewrite in_app_iff. simpl. split; intros H; intuition (subst; auto).
Qed.

Lemma set_add_new x s : ~ In x s -> set_add x s = (s ++ [x])%list.
Proof.
  intros H. unfold set_add. apply includes_false in H. now rewrite H.
Qed.

Lemma set_delete_notin x s : ~ In x s -> set_delete x s = s.
Proof.
  unfold set_delete. induction s as [| y s IH]; simpl; intros H; [reflexivity |].
  destruct (String.eqb_spec y x) as [-> | Hn].
  - exfalso. apply H. now left.
  - simpl. f_equal. apply IH. tauto.
Qed.

Lemma set_delete_add x s : ~ In x s -> set_delete x (set_add x s) = s.
Proof.
  intros H. rewrite (set_add_new x s H). unfold set_delete.
  rewrite filter_app. simpl. rewrite String.eqb_refl. simpl.
  rewrite app_nil_r. now apply set_delete_notin.
Qed.

(** * Facts on the store *)

Lemma lookup_id i ns n : lookup i ns = Some n -> id n = i.
Proof.
  unfold lookup. intros H. apply find_some in H. destruct H as [_ H].
  now apply String.eqb_eq in H.
Qed.

Lemma lookup_In i ns n : lookup i ns = Some n -> In n ns.
Proof. unfold lookup. intros H. now apply find_some in H. Qed.

Lemma lookup_None i ns : lookup i ns = None <-> ~ In i (keys ns).
Proof.
  unfold lookup, keys. induction ns as [| m ns IH]; simpl.
  - tauto.
  - destruct (String.eqb_spec (id m) i) as [E | E].
    + split; [discriminate | intros H; exfalso; apply H; now left].
    + rewrite IH. tauto.
Qed.

Lemma has_In i ns : has i ns = true <-> In i (keys ns).
Proof.
  unfold has. destruct (lookup i ns) eqn:E.
  - split; [intros _ | reflexivity].
    apply lookup_In in E as HI. apply lookup_id in E. subst.
    unfold keys. now apply in_map.
  - apply lookup_None in E. split; [discriminate | tauto].
Qed.

Lemma lookup_wf ns n : NoDup (keys ns) -> In n ns -> lookup (id n) ns = Some n.
Proof.
  unfold lookup, keys. induction ns as [| m ns IH]; simpl; intros Hnd Hin; [tauto |].
  inversion Hnd as [| ? ? Hm Hnd']; subst.
  destruct Hin as [-> | Hin].
  - now rewrite String.eqb_refl.
  - destruct (String.eqb_spec (id m) (id n)) as [E | E].
    + exfalso. apply Hm. rewrite E. now apply in_map.
    + now apply IH.
Qed.

(** * [forM] *)

Lemma forM_inv {A S : Type} (P : S -> Prop) (body : A -> S -> result S) l :
  (forall x s s', In x l -> P s -> body x s = Ok s' -> P s') ->
  forall s s', P s -> forM body l s = Ok s' -> P s'.
Proof.
  induction l as [| x l IH]; simpl; intros Hb s s' Hs H.
  - now inversion H; subst.
  - destruct (body x s) as [s1 | e] eqn:E; [| discriminate].
    apply (IH (fun y t t' Hy => Hb y t t' (or_intror Hy)) s1 s'); [| assumption].
    apply (Hb x s s1); auto.
Qed.

Lemma forM_err {A S : Type} (P : S -> Prop) (body : A -> S -> result S) l :
  (forall x s s', In x l -> P s -> body x s = Ok s' -> P s') ->
  forall s e, P s -> forM body l s = Err e ->
  exists x s0, In x l /\ P s0 /\ body x s0 = Err e.
Proof.
  induction l as [| x l IH]; simpl; intros Hb s e Hs H.
  - discriminate.
  - destruct (body x s) as [s1 | e1] eqn:E.
    + destruct (IH (fun y t t' Hy => Hb y t t' (or_intror Hy)) s1 e) as (y & s0 & Hy & Hp & He).
      * apply (Hb x s s1); auto.
      * assumption.
      * exists y, s0. auto.
    + inversion H; subst. exists x, s. auto.
Qed.

(** Every element of the list has been handled when the loop ends. *)
Lemma forM_all {A S : Type} (P : S -> Prop) (Q : A -> S -> Prop)
      (body : A -> S -> result S) l :
  (forall x s s', In x l -> P s -> body x s = Ok s' -> P s' /\ Q x s') ->
  (forall x y s s', In y l -> P s -> Q x s -> body y s = Ok s' -> Q x s') ->
  forall s s', P s -> forM body l s = Ok s' -> forall x, In x l -> Q x s'.
Proof.
  induction l as [| x l IH]; simpl; intros Hb Hq s s' Hs H y Hy; [tauto |].
  destruct (body x s) as [s1 | e] eqn:E; [| discriminate].
  destruct (Hb x s s1 (or_introl eq_refl) Hs E) as [Hp1 Hq1].
  destruct Hy as [<- | Hy].
  - revert H. apply (forM_inv (fun t => P t /\ Q x t)); [| auto].
    intros z t t' Hz [Hpt Hqt] Ez. split.
    + apply (Hb z t t'); auto.
    + apply (Hq x z t t'); auto.
  - apply (IH (fun z t t' Hz => Hb z t t' (or_intror Hz))
              (fun a z t t' Hz => Hq a z t t' (or_intror Hz)) s1 s'); auto.
Qed.

(** * [getExecutionOrder]: the traversal *)

Section Traversal.

Variable ns : list ComputeNode.

(** ** The set [processing] is restored by a visit that returns *)

Lemma visit_processing fuel :
  forall v st st', visit fuel ns v st = Ok st' -> processing st' = processing st.
Proof.
  induction fuel as [| fuel IH]; simpl; intros v st st' H; [discriminate |].
  destruct (JS.includes v (processing st)) eqn:Ep; [discriminate |].
  destruct (JS.includes v (visited st)) eqn:Ev; [now inversion H |].
  destruct (lookup v ns) as [node |] eqn:El; [| discriminate].
  match type of H with
  | match forM ?b ?l ?s with _ => _ end = _ =>
      destruct (forM b l s) as [st2 |] eqn:Ef; [| discriminate]
  end.
  inversion H; subst; clear H. simpl.
  assert (Hp : processing st2 = set_add v (processing st)).
  { revert Ef.
    apply (forM_inv (fun s => processing s = set_add v (processing st))).
    - intros x s s' _ Hs Hb. destruct (has x ns); [| discriminate].
      apply IH in Hb. congruence.
    - reflexivity. }
  rewrite Hp. apply set_delete_add. now apply includes_false.
Qed.


(** ** What a visit that returns leaves behind *)

Lemma snoc_split {A : Type} (l l1 l2 : list A) (a n : A) :
  (l ++ [a] = l1 ++ n :: l2)%list ->
  (l2 = [] /\ l1 = l /\ n = a) \/
  (exists l2', l2 = (l2' ++ [a])%list /\ l = (l1 ++ n :: l2')%list).
Proof.
  destruct l2 as [| b l2 _] using rev_ind; intros H.
  - left. apply app_inj_tail in H. intuition.
  - right. exists l2.
    change (l1 ++ n :: l2 ++ [b])%list with (l1 ++ (n :: l2) ++ [b])%list in H.
    rewrite app_assoc in H. apply app_inj_tail in H.
    destruct H as [H1 H2]. subst. auto.
Qed.

Lemma Inv_init : Inv ns visit_init.
Proof.
  constructor; simpl.
  - reflexivity.
  - constructor.
  - tauto.
  - intros l1 n l2 H. destruct l1; discriminate.
Qed.

Lemma Inv_push st v node :
  Inv ns st -> lookup v ns = Some node -> ~ In v (visited st) ->
  (forall i, In i (inputs node) -> In i (visited st)) ->
  forall p,
  Inv ns {| visited := set_add v (visited st); processing := p;
         orderedNodes := (orderedNodes st ++ [node])%list |}.
Proof.
  intros [Ha Hb Hc Hd] Hl Hv Hin p.
  pose proof (lookup_id _ _ _ Hl) as Hid.
  constructor; simpl.
  - rewrite (set_add_new _ _ Hv), map_app, Ha. simpl. now rewrite Hid.
  - rewrite (set_add_new _ _ Hv). apply NoDup_app.
    + assumption.
    + repeat constructor. simpl. tauto.
    + intros x Hx [<- | []]. tauto.
  - intros n Hn. apply in_app_iff in Hn. destruct Hn as [Hn | [<- | []]].
    + now apply Hc.
    + now rewrite Hid.
  - intros l1 n l2 E i Hi. apply snoc_split in E.
    destruct E as [(-> & -> & ->) | (l2' & -> & E)].
    + rewrite <- Ha. now apply Hin.
    + apply (Hd l1 n l2' E i Hi).
Qed.

Lemma visit_spec fuel :
  forall v st st',
    Inv ns st -> visit fuel ns v st = Ok st' ->
    Inv ns st' /\ In v (visited st') /\ incl (visited st) (visited st') /\
    (forall x, In x (processing st) -> In x (visited st') -> In x (visited st)).
Proof.
  induction fuel as [| fuel IH]; simpl; intros v st st' HI H; [discriminate |].
  destruct (JS.includes v (processing st)) eqn:Ep; [discriminate |].
  destruct (JS.includes v (visited st)) eqn:Ev.
  { inversion H; subst. apply includes_In in Ev.
    split; [assumption | split; [assumption | split; [apply incl_refl | tauto]]]. }
  destruct (lookup v ns) as [node |] eqn:El; [| discriminate].
  match type of H with
  | match forM ?b ?l ?s with _ => _ end = _ =>
      destruct (forM b l s) as [st2 |] eqn:Ef; [| discriminate];
      set (body := b) in *; set (st1 := s) in *
  end.
  inversion H; subst; clear H.
  apply includes_false in Ep, Ev.
  set (P := fun s : VisitState =>
              Inv ns s /\ incl (visited st) (visited s) /\
              processing s = set_add v (processing st) /\
              (forall x, In x (set_add v (processing st)) ->
                         In x (visited s) -> In x (visited st))).
  assert (Hstep : forall x s s', In x (inputs node) -> P s -> body x s = Ok s' ->
                                 P s' /\ In x (visited s')).
  { intros x s s' _ (Hi & Hinc & Hpr & Hno) Hb. unfold body in Hb.
    destruct (has x ns); [| discriminate].
    pose proof (visit_processing _ _ _ _ Hb) as Hp'.
    destruct (IH _ _ _ Hi Hb) as (Hi' & Hx & Hinc' & Hno').
    split; [| assumption].
    split; [assumption |]. split; [eapply incl_tran; eauto |].
    split; [congruence |].
    intros y Hy Hy'. apply Hno; [assumption |]. apply Hno'; [| assumption].
    now rewrite Hpr. }
  assert (HP1 : P st1).
  { unfold P, st1; simpl.
    split; [| split; [apply incl_refl | split; [reflexivity | tauto]]].
    destruct HI as [Ha Hb Hc Hd]. constructor; assumption. }
  assert (HP2 : P st2).
  { revert Ef. apply (forM_inv P); [| assumption].
    intros x s s' Hx Hs Hb. now apply (Hstep x s s'). }
  assert (HQ : forall i, In i (inputs node) -> In i (visited st2)).
  { apply (forM_all P (fun i s => In i (visited s)) body (inputs node)) with (s := st1);
      try assumption.
    intros x y s s' Hy Hs Hx Hb.
    destruct (Hstep y s s' Hy Hs Hb) as [_ _].
    destruct Hs as (Hi & _ & _ & _). unfold body in Hb.
    destruct (has y ns); [| discriminate].
    destruct (IH _ _ _ Hi Hb) as (_ & _ & Hinc' & _). now apply Hinc'. }
  destruct HP2 as (Hi2 & Hinc2 & Hpr2 & Hno2).
  assert (Hv2 : ~ In v (visited st2)).
  { intros Hv. apply Ev. apply Hno2; [| assumption]. apply set_add_In. now left. }
  split; [| split; [| split]].
  - apply Inv_push; assumption.
  - simpl. apply set_add_In. now left.
  - simpl. intros x Hx. apply set_add_In. right. now apply Hinc2.
  - simpl. intros x Hx Hx'. apply set_add_In in Hx'. destruct Hx' as [-> | Hx'].
    + tauto.
    + apply Hno2; [| assumption]. apply set_add_In. now right.
Qed.


(** ** The errors a visit can end with *)

Lemma keys_length : length (keys ns) = length ns.
Proof. unfold keys. apply length_map. Qed.

Lemma visit_error fuel :
  forall v st e,
    NoDup (processing st) -> incl (processing st) (keys ns) ->
    length (processing st) + fuel > length ns ->
    (forall p, In p (processing st) -> reaches ns p v) ->
    In v (keys ns) ->
    visit fuel ns v st = Err e ->
    real_cycle ns e \/ real_dangling ns e.
Proof.
  induction fuel as [| fuel IH]; intros v st e Hnd Hinc Hlen Hpath Hv H.
  - exfalso. pose proof (NoDup_incl_length Hnd Hinc) as Hl.
    rewrite keys_length in Hl. lia.
  - simpl in H.
    destruct (JS.includes v (processing st)) eqn:Ep.
    { inversion H; subst. left. exists v. split; [reflexivity |].
      apply Hpath. now apply includes_In. }
    destruct (JS.includes v (visited st)) eqn:Ev; [discriminate |].
    destruct (lookup v ns) as [node |] eqn:El.
    2:{ exfalso. apply lookup_None in El. tauto. }
    match type of H with
    | match forM ?b ?l ?s with _ => _ end = _ =>
        destruct (forM b l s) as [st2 | e'] eqn:Ef; [discriminate |];
        set (body := b) in *; set (st1 := s) in *
    end.
    inversion H; subst e'; clear H.
    apply includes_false in Ep.
    destruct (forM_err (fun s => processing s = set_add v (processing st))
                       body (inputs node)) with (s := st1) (e := e)
      as (x & s0 & Hx & Hs0 & Hb); try assumption.
    { intros y s s' _ Hs Hy. unfold body in Hy.
      destruct (has y ns); [| discriminate].
      apply visit_processing in Hy. congruence. }
    { reflexivity. }
    unfold body in Hb. destruct (has x ns) eqn:Eh.
    + rewrite (set_add_new _ _ Ep) in Hs0.
      apply (IH x s0 e); try assumption.
      * rewrite Hs0. apply NoDup_app; [assumption | repeat constructor; simpl; tauto |].
        intros y Hy [<- | []]. tauto.
      * rewrite Hs0. intros y Hy. apply in_app_iff in Hy.
        destruct Hy as [Hy | [<- | []]]; auto.
      * rewrite Hs0, length_app. simpl. lia.
      * rewrite Hs0. intros p Hp. apply in_app_iff in Hp.
        assert (Hvx : edge ns v x) by (exists node; auto).
        destruct Hp as [Hp | [<- | []]].
        -- eapply t_trans; [apply Hpath; assumption | now apply t_step].
        -- now apply t_step.
      * now apply has_In.
    + inversion Hb; subst. right. exists v, x. split; [reflexivity |].
      split; [exists node; auto |].
      intros Hk. apply has_In in Hk. congruence.
Qed.

(** ** What an order that was returned tells about the graph *)

Lemma in_map_split (order : list ComputeNode) k :
  In k (map id order) -> exists l1 n l2, order = (l1 ++ n :: l2)%list /\ id n = k.
Proof.
  intros H. apply in_map_iff in H. destruct H as (n & Hn & Hin).
  apply in_split in Hin. destruct Hin as (l1 & l2 & ->). eauto.
Qed.

Lemma order_edge order :
  execution_order ns order ->
  forall l1 n l2, order = (l1 ++ n :: l2)%list ->
  forall y, edge ns (id n) y -> In y (map id l1).
Proof.
  intros [Hnd Hn Hall Ht] l1 n l2 E y (m & Hm & Hy).
  rewrite (Hn n) in Hm by (rewrite E; apply in_elt).
  inversion Hm; subst m. apply (Ht l1 n l2 E y Hy).
Qed.

Lemma order_reaches order :
  execution_order ns order ->
  forall x y, reaches ns x y ->
  forall l1 n l2, order = (l1 ++ n :: l2)%list -> id n = x -> In y (map id l1).
Proof.
  intros Ho x y Hxy. apply clos_trans_tn1 in Hxy.
  induction Hxy as [y Hxy | y z Hyz Hxy IH]; intros l1 n l2 E Hn.
  - subst x. now apply (order_edge order Ho l1 n l2).
  - specialize (IH l1 n l2 E Hn).
    apply in_map_split in IH. destruct IH as (a & m & b & -> & Hm).
    subst y. rewrite <- app_assoc in E. simpl in E.
    pose proof (order_edge order Ho a m _ E z Hyz) as Hz.
    rewrite map_app. apply in_app_iff. now left.
Qed.

Lemma edge_key a b : edge ns a b -> In a (keys ns).
Proof.
  intros (n & Hn & _). apply has_In. unfold has. now rewrite Hn.
Qed.

Lemma reaches_key a b : reaches ns a b -> In a (keys ns).
Proof.
  induction 1 as [a b H | a b c _ IH _ _]; [now apply (edge_key a b) | assumption].
Qed.

Lemma order_acyclic order : execution_order ns order -> acyclic ns.
Proof.
  intros Ho a Ha.
  pose proof (reaches_key a a Ha) as Hk.
  apply (eo_all Ho) in Hk. apply in_map_split in Hk.
  destruct Hk as (l1 & n & l2 & E & Hn).
  pose proof (order_reaches order Ho a a Ha l1 n l2 E Hn) as Hin.
  pose proof (eo_nodup Ho) as Hnd. rewrite E, map_app in Hnd. simpl in Hnd.
  apply NoDup_remove_2 in Hnd. apply Hnd. apply in_app_iff. left. now rewrite Hn.
Qed.

Lemma order_closed order :
  execution_order ns order -> forall n i, edge ns n i -> In i (keys ns).
Proof.
  intros Ho n i He.
  pose proof (edge_key n i He) as Hk.
  apply (eo_all Ho) in Hk. apply in_map_split in Hk.
  destruct Hk as (l1 & m & l2 & E & Hm). subst n.
  pose proof (order_edge order Ho l1 m l2 E i He) as Hi.
  apply in_map_iff in Hi. destruct Hi as (m' & <- & Hm').
  apply has_In. unfold has. rewrite (eo_nodes Ho m'); [reflexivity |].
  rewrite E. apply in_app_iff. now left.
Qed.

Lemma order_length order :
  NoDup (keys ns) -> execution_order ns order -> length order = length ns.
Proof.
  intros Hwf [Hnd Hn Hall Ht].
  assert (H1 : length (map id order) <= length (keys ns)).
  { apply NoDup_incl_length; [assumption |].
    intros k Hk. apply in_map_iff in Hk. destruct Hk as (n & <- & Hin).
    apply has_In. unfold has. now rewrite (Hn n Hin). }
  assert (H2 : length (keys ns) <= length (map id order)).
  { apply NoDup_incl_length; assumption. }
  rewrite length_map in H1, H2. rewrite keys_length in H1, H2. lia.
Qed.

Lemma order_In order :
  NoDup (keys ns) -> execution_order ns order -> forall n, In n order <-> In n ns.
Proof.
  intros Hwf [Hnd Hn Hall Ht] n. split; intros H.
  - apply Hn in H. now apply lookup_In in H.
  - assert (Hk : In (id n) (map id order)) by (apply Hall; unfold keys; now apply in_map).
    apply in_map_iff in Hk. destruct Hk as (m & Hm & Hin).
    pose proof (Hn m Hin) as Hl. rewrite Hm in Hl.
    rewrite (lookup_wf ns n Hwf H) in Hl. now inversion Hl; subst.
Qed.

(** ** The two loops of [getExecutionOrder] *)

Lemma top_loop l :
  incl l (keys ns) ->
  forall st,
    Inv ns st -> processing st = [] ->
    match forM (visit (S (length ns)) ns) l st with
    | Ok st' => Inv ns st' /\ processing st' = [] /\
                incl (visited st) (visited st') /\ incl l (visited st')
    | Err e => real_cycle ns e \/ real_dangling ns e
    end.
Proof.
  induction l as [| v l IH]; intros Hl st Hi Hp; cbn [forM].
  - split; [assumption | split; [assumption | split; [apply incl_refl |]]].
    intros x [].
  - destruct (visit (S (length ns)) ns v st) as [s1 | e] eqn:E.
    + pose proof (visit_processing _ _ _ _ E) as Hp1. rewrite Hp in Hp1.
      destruct (visit_spec _ _ _ _ Hi E) as (Hi1 & Hv1 & Hinc1 & _).
      specialize (IH (fun x Hx => Hl x (or_intror Hx)) s1 Hi1 Hp1).
      destruct (forM (visit (S (length ns)) ns) l s1) as [s2 | e]; [| assumption].
      destruct IH as (Hi2 & Hp2 & Hinc2 & Hl2).
      split; [assumption | split; [assumption | split]].
      * eapply incl_tran; eauto.
      * intros x [<- | Hx]; auto.
    + apply (visit_error (S (length ns)) v st e); rewrite ?Hp.
      * constructor.
      * intros x [].
      * simpl. lia.
      * intros p [].
      * apply Hl. now left.
      * assumption.
Qed.

Theorem getExecutionOrder_cases :
  match getExecutionOrder_nodes ns with
  | Ok order => execution_order ns order
  | Err e => real_cycle ns e \/ real_dangling ns e
  end.
Proof.
  unfold getExecutionOrder_nodes, getExecutionOrder_fuel.
  set (sources := map id (filter (fun n => NodeType_eqb (type n) T_source) ns)).
  assert (Hs : incl sources (keys ns)).
  { intros x Hx. unfold sources in Hx. apply in_map_iff in Hx.
    destruct Hx as (n & <- & Hn). apply filter_In in Hn.
    unfold keys. apply in_map. tauto. }
  pose proof (top_loop sources Hs visit_init Inv_init eq_refl) as H1.
  destruct (forM (visit (S (length ns)) ns) sources visit_init) as [st1 | e];
    [| assumption].
  destruct H1 as (Hi1 & Hp1 & _ & _).
  pose proof (top_loop (keys ns) (incl_refl _) st1 Hi1 Hp1) as H2.
  destruct (forM (visit (S (length ns)) ns) (keys ns) st1) as [st2 | e];
    [| assumption].
  destruct H2 as ([Ha Hb Hc Hd] & _ & _ & Hall).
  constructor.
  - now rewrite <- Ha.
  - assumption.
  - intros k Hk. rewrite <- Ha. now apply Hall.
  - assumption.
Qed.

End Traversal.

(** * Deciding the hypotheses on a given graph *)

Lemma distinct_NoDup l : distinct l = true -> NoDup l.
Proof.
  induction l as [| x l IH]; simpl; intros H; constructor.
  - apply andb_prop in H. destruct H as [H _].
    apply negb_true_iff in H. now apply includes_false.
  - apply IH. apply andb_prop in H. tauto.
Qed.

Lemma distinct_well_keyed ns : distinct (keys ns) = true -> well_keyed ns.
Proof. apply distinct_NoDup. Qed.

Lemma inputs_closedb_true ns : inputs_closedb ns = true -> inputs_closed ns.
Proof.
  unfold inputs_closedb, inputs_closed. intros H n Hn i Hi.
  rewrite forallb_forall in H. specialize (H n Hn).
  rewrite forallb_forall in H. apply has_In. now apply H.
Qed.

Lemma acyclic_of_order ns order :
  getExecutionOrder_nodes ns = Ok order -> acyclic ns.
Proof.
  intros H. pose proof (getExecutionOrder_cases ns) as Hc. rewrite H in Hc.
  now apply (order_acyclic ns order).
Qed.

Lemma closed_no_dangling ns e : inputs_closed ns -> ~ real_dangling ns e.
Proof.
  intros Hc (n & i & _ & (m & Hm & Hi) & Hk). apply Hk.
  apply (Hc m); [now apply lookup_In in Hm | assumption].
Qed.

Lemma acyclic_no_cycle ns e : acyclic ns -> ~ real_cycle ns e.
Proof. intros Ha (x & _ & Hx). now apply (Ha x). Qed.

(** * The order of execution *)

(** C6.  On a graph whose inputs all name nodes of the graph and which has
    no cycle, [getExecutionOrder] returns; the list it returns has as many
    elements as the graph has nodes, holds each node of the graph once and
    no other, and every node in it comes after all the nodes it has as
    inputs. *)
Theorem getExecutionOrder_topological (g : ComputeGraph) :
  well_keyed (nodes g) -> inputs_closed (nodes g) -> acyclic (nodes g) ->
  exists order,
    getExecutionOrder g = Ok (order, g) /\
    length order = length (nodes g) /\
    NoDup order /\
    (forall n, In n order <-> In n (nodes g)) /\
    comes_after_inputs order.
Proof.
  intros Hwf Hc Ha. unfold getExecutionOrder.
  pose proof (getExecutionOrder_cases (nodes g)) as H.
  destruct (getExecutionOrder_nodes (nodes g)) as [order | e].
  - exists order. split; [reflexivity |].
    split; [now apply order_length |].
    split; [apply (NoDup_map_inv id), (eo_nodup H) |].
    split; [now apply order_In | apply (eo_topo H)].
  - exfalso. destruct H as [H | H].
    + now apply (acyclic_no_cycle (nodes g) e).
    + now apply (closed_no_dangling (nodes g) e).
Qed.

Lemma getExecutionOrder_topological_witness :
  exists order,
    getExecutionOrder test_order_graph = Ok (order, test_order_graph) /\
    length order = length (nodes test_order_graph) /\
    NoDup order /\
    (forall n, In n order <-> In n (nodes test_order_graph)) /\
    comes_after_inputs order.
Proof.
  apply getExecutionOrder_topological.
  - apply distinct_well_keyed. reflexivity.
  - apply inputs_closedb_true. reflexivity.
  - eapply acyclic_of_order. vm_compute. reflexivity.
Defined.

Example test_order_result :
  match getExecutionOrder test_order_graph with
  | Ok (order, _) => map id order = ["src_1"; "proj_1"; "filter_1"]
  | Err _ => False
  end.
Proof. vm_compute. reflexivity. Qed.

(** * Cycles *)

(** C7, as stated, fails: the graph [cycle_and_dangling] has a cycle, and
    [getExecutionOrder] raises the error of the missing input on it, not
    the error of the cycle. *)
Lemma cycle_reported_as_dangling :
  (exists a, reaches (nodes cycle_and_dangling) a a) /\
  getExecutionOrder cycle_and_dangling = Err (DanglingReference "a" "zzz") /\
  (forall x, getExecutionOrder cycle_and_dangling <> Err (CycleDetected x)).
Proof.
  split; [| split].
  - exists "a". apply t_trans with "b"; apply t_step.
    + exists (mkNode "a" T_projection ["zzz"; "b"]). split; [reflexivity | simpl; tauto].
    + exists (mkNode "b" T_projection ["a"]). split; [reflexivity | simpl; tauto].
  - vm_compute. reflexivity.
  - intros x H. vm_compute in H. discriminate.
Qed.

(** C7, amended.  On a graph whose inputs all name nodes of the graph and
    which has a cycle along the inputs, [getExecutionOrder] returns no
    order: it raises [CycleDetected], and the node the error names lies on a
    cycle. *)
Theorem getExecutionOrder_cycle (g : ComputeGraph) :
  inputs_closed (nodes g) -> (exists a, reaches (nodes g) a a) ->
  exists x, getExecutionOrder g = Err (CycleDetected x) /\ reaches (nodes g) x x.
Proof.
  intros Hc [a Ha]. unfold getExecutionOrder.
  pose proof (getExecutionOrder_cases (nodes g)) as H.
  destruct (getExecutionOrder_nodes (nodes g)) as [order | e].
  - exfalso. now apply (order_acyclic _ _ H a).
  - destruct H as [(x & -> & Hx) | H].
    + exists x. now split.
    + exfalso. now apply (closed_no_dangling (nodes g) e).
Qed.

Lemma getExecutionOrder_cycle_witness :
  exists x, getExecutionOrder test_cycle_graph = Err (CycleDetected x)
            /\ reaches (nodes test_cycle_graph) x x.
Proof.
  apply getExecutionOrder_cycle.
  - apply inputs_closedb_true. reflexivity.
  - exists "node_1". apply t_trans with "node_2"; apply t_step.
    + eexists. split; [vm_compute; reflexivity | simpl; tauto].
    + eexists. split; [vm_compute; reflexivity | simpl; tauto].
Defined.

Example test_cycle_result :
  getExecutionOrder test_cycle_graph = Err (CycleDetected "node_1").
Proof. vm_compute. reflexivity. Qed.

(** * Writes to the store *)

Section Update.

Variable f : ComputeNode -> ComputeNode.
Hypothesis f_id : forall n, id (f n) = id n.

Lemma keys_update i ns : keys (update i f ns) = keys ns.
Proof.
  unfold keys. induction ns as [| n ns IH]; simpl; [reflexivity |].
  destruct (String.eqb (id n) i); simpl; [now rewrite f_id | now rewrite IH].
Qed.

Lemma lookup_update_same i ns n :
  lookup i ns = Some n -> lookup i (update i f ns) = Some (f n).
Proof.
  unfold lookup. induction ns as [| m ns IH]; simpl; [discriminate |].
  destruct (String.eqb (id m) i) eqn:E; simpl.
  - intros H. inversion H; subst. now rewrite f_id, E.
  - rewrite E. apply IH.
Qed.

Lemma lookup_update_other i j ns :
  i <> j -> lookup i (update j f ns) = lookup i ns.
Proof.
  unfold lookup. intros Hij. induction ns as [| m ns IH]; simpl; [reflexivity |].
  destruct (String.eqb_spec (id m) j) as [Ej | Ej]; simpl.
  - rewrite f_id. destruct (String.eqb_spec (id m) i); [congruence | reflexivity].
  - destruct (String.eqb (id m) i); [reflexivity | apply IH].
Qed.

Lemma In_update i ns n :
  In n (update i f ns) -> exists n0, In n0 ns /\ (n = n0 \/ n = f n0).
Proof.
  induction ns as [| m ns IH]; simpl; [tauto |].
  destruct (String.eqb (id m) i); simpl.
  - intros [<- | H]; eauto.
  - intros [<- | H]; [eauto |]. destruct (IH H) as (n0 & Hn0 & Hn). eauto.
Qed.

Lemma update_In i ns n0 :
  In n0 ns -> In n0 (update i f ns) \/ In (f n0) (update i f ns).
Proof.
  induction ns as [| m ns IH]; simpl; [tauto |].
  destruct (String.eqb (id m) i); simpl.
  - intros [-> | H]; auto.
  - intros [-> | H]; [auto |]. destruct (IH H); auto.
Qed.

End Update.

Lemma lookup_delete_other i j ns : i <> j -> lookup i (delete j ns) = lookup i ns.
Proof.
  unfold lookup, delete. intros Hij. induction ns as [| m ns IH]; simpl; [reflexivity |].
  destruct (String.eqb_spec (id m) j) as [Ej | Ej]; simpl.
  - destruct (String.eqb_spec (id m) i); [congruence | assumption].
  - destruct (String.eqb (id m) i); [reflexivity | assumption].
Qed.

Lemma lookup_delete_same i ns : lookup i (delete i ns) = None.
Proof.
  apply lookup_None. unfold keys, delete. intros H. apply in_map_iff in H.
  destruct H as (n & Hn & Hin). apply filter_In in Hin. destruct Hin as [_ Hin].
  rewrite Hn, String.eqb_refl in Hin. discriminate.
Qed.

Lemma In_delete i ns n : In n (delete i ns) <-> In n ns /\ id n <> i.
Proof.
  unfold delete. rewrite filter_In. rewrite negb_true_iff, String.eqb_neq. tauto.
Qed.

(** * [removeNode] and the terminal flag *)

Section RemoveNode.

Variable node : ComputeNode.

Lemma step_still_filed acc b : still_filed acc node -> still_filed (adjust_step acc b) node.
Proof.
  intros (n' & Hin & Hinp). unfold adjust_step.
  destruct (lookup b acc); [| exists n'; auto].
  destruct (update_In (set_isTerminal (negb (isStillReferenced b acc))) b acc n' Hin) as [H | H].
  - exists n'. auto.
  - eexists. split; [exact H | exact Hinp].
Qed.

Lemma still_referenced acc b :
  still_filed acc node -> In b (inputs node) -> isStillReferenced b acc = true.
Proof.
  intros (n' & Hin & Hinp) Hb. unfold isStillReferenced.
  apply existsb_exists. exists n'. split; [assumption |].
  apply includes_In. now rewrite Hinp.
Qed.

Lemma step_sets_false acc b x nx :
  still_filed acc node -> In b (inputs node) ->
  lookup x acc = Some nx -> (x = b \/ isTerminal nx = Some false) ->
  exists nx', lookup x (adjust_step acc b) = Some nx' /\ isTerminal nx' = Some false.
Proof.
  intros Hs Hb Hx Hor. unfold adjust_step.
  destruct (String.eqb_spec x b) as [-> | Hne].
  - rewrite Hx. rewrite (still_referenced acc b Hs Hb). simpl.
    eexists. split; [apply lookup_update_same; [reflexivity | eassumption] | reflexivity].
  - destruct Hor as [-> | Hf]; [congruence |].
    destruct (lookup b acc).
    + rewrite lookup_update_other; [eauto | reflexivity | assumption].
    + eauto.
Qed.

Lemma step_lookup acc b x :
  lookup x (adjust_step acc b) = None <-> lookup x acc = None.
Proof.
  unfold adjust_step. destruct (lookup b acc); [| tauto].
  rewrite !lookup_None, keys_update; [tauto | reflexivity].
Qed.

Lemma adjust_false l :
  (forall b, In b l -> In b (inputs node)) ->
  forall acc x nx,
    still_filed acc node ->
    lookup x (fold_left adjust_step l acc) = Some nx ->
    (In x l \/ exists n0, lookup x acc = Some n0 /\ isTerminal n0 = Some false) ->
    isTerminal nx = Some false.
Proof.
  induction l as [| b l IH]; simpl; intros Hl acc x nx Hs Hx Hor.
  - destruct Hor as [[] | (n0 & Hn0 & Hf)]. congruence.
  - apply (IH (fun c Hc => Hl c (or_intror Hc)) (adjust_step acc b) x nx);
      [now apply step_still_filed | assumption |].
    destruct (lookup x acc) as [n0 |] eqn:E0.
    + destruct Hor as [[<- | Hxl] | (n1 & Hn1 & Hf)].
      * right. apply (step_sets_false acc b b n0); auto.
      * now left.
      * right. inversion Hn1; subst n1.
        apply (step_sets_false acc b x n0); auto.
    + exfalso.
      assert (Hnone : lookup x (fold_left adjust_step l (adjust_step acc b)) = None).
      { clear - E0. apply (proj2 (step_lookup acc b x)) in E0. revert E0.
        generalize (adjust_step acc b). induction l as [| c l IHl]; simpl; intros a Ha.
        - assumption.
        - apply IHl. now apply (proj2 (step_lookup a c x)). }
      congruence.
Qed.

End RemoveNode.

Lemma removeNode_nodes_of (i : NodeID) (g : ComputeGraph) :
  exists g', removeNode i g = Ok (tt, g') /\ nodes g' = removeNode_nodes i (nodes g).
Proof.
  unfold removeNode, removeNode_nodes. destruct (lookup i (nodes g)); eexists; split; reflexivity.
Qed.

(** After [removeNode], an input of the removed node that is still in the
    graph is never terminal, whether or not a remaining node lists it. *)
Theorem removeNode_inputs_not_terminal (i : NodeID) (g g' : ComputeGraph)
        (node : ComputeNode) (x : NodeID) (nx : ComputeNode) :
  lookup i (nodes g) = Some node -> In x (inputs node) ->
  removeNode i g = Ok (tt, g') ->
  lookup x (nodes g') = Some nx ->
  isTerminal nx = Some false.
Proof.
  intros Hi Hx Hr Hnx.
  destruct (removeNode_nodes_of i g) as (g2 & Hr2 & Hn2).
  rewrite Hr in Hr2. inversion Hr2; subst g2; clear Hr2.
  rewrite Hn2 in Hnx. unfold removeNode_nodes in Hnx. rewrite Hi in Hnx.
  destruct (String.eqb_spec x i) as [-> | Hne].
  - rewrite lookup_delete_same in Hnx. discriminate.
  - rewrite lookup_delete_other in Hnx by assumption.
    unfold removeNode_adjust in Hnx.
    apply (adjust_false node (inputs node) (fun b Hb => Hb) (nodes g) x nx); auto.
    exists node. split; [now apply lookup_In in Hi | reflexivity].
Qed.

(** C3, at a graph the code can hold: [src_1] is the only input of
    [proj_1]; once [proj_1] is removed no node lists [src_1], and [src_1]
    is left with [isTerminal = false], where the claim has [true]. *)
Theorem removeNode_leaves_unreferenced_input_nonterminal :
  exists g' n,
    removeNode "proj_1" source_and_projection = Ok (tt, g') /\
    lookup "src_1" (nodes g') = Some n /\
    unreferenced (nodes g') "src_1" /\
    isTerminal n = Some false.
Proof.
  eexists. eexists. split; [vm_compute; reflexivity |].
  split; [vm_compute; reflexivity |].
  split; [| reflexivity].
  intros m [<- | []]. simpl. tauto.
Qed.

(** * [inlineParameters] and the other side of the condition *)

(** When the left side names the parameter node and the right side names
    another node, both sides end as the placeholder: the right side takes
    the new left side. *)
Lemma inlineCondition_overwrites_right (p v q mL mR op : string) :
  q <> p ->
  inlineCondition p v {| left := SInput p mL; right := SInput q mR; cond_op := op |}
  = {| left := SParam v; right := SParam v; cond_op := op |}.
Proof.
  intros H. unfold inlineCondition. simpl. rewrite String.eqb_refl.
  apply String.eqb_neq in H. now rewrite H.
Qed.

(** When the right side names the parameter node and the left side names
    another node, the pass does what the claim says. *)
Lemma inlineCondition_right_parameter (p v q mL mR op : string) :
  q <> p ->
  inlineCondition p v {| left := SInput q mL; right := SInput p mR; cond_op := op |}
  = {| left := SInput q mL; right := SParam v; cond_op := op |}.
Proof.
  intros H. unfold inlineCondition. simpl. rewrite String.eqb_refl.
  apply String.eqb_neq in H. now rewrite H.
Qed.

(** C1, at the graph of the query [5 < close]: the filter depends on the
    parameter node [expression_1], which its left side names, and its right
    side names [projection_1].  After the pass the left side is the
    placeholder, the parameter is gone from the inputs and the filter is
    marked; but the right side is the placeholder too, where the claim
    leaves it unchanged. *)
Theorem inlineParameters_overwrites_other_side :
  exists g g' p f f',
    after removedDuplicateProjections (fromUserQuery constant_left_query market_config)
    = Ok g /\
    lookup "expression_1" (nodes g) = Some p /\
    type p = T_expression /\ md_flag isParameter p = true /\
    lookup "filter_1" (nodes g) = Some f /\
    type f = T_filter /\ inputs f = ["expression_1"; "projection_1"] /\
    condition f = Some {| left := SInput "expression_1" "expression_1";
                          right := SInput "projection_1" "projection_1";
                          cond_op := "lt" |} /\
    inlineParameters g = Ok (tt, g') /\
    lookup "filter_1" (nodes g') = Some f' /\
    inputs f' = ["projection_1"] /\
    md_flag hasParameter f' = true /\
    condition f' = Some {| left := SParam "5"; right := SParam "5"; cond_op := "lt" |}.
Proof.
  do 5 eexists.
  split; [vm_compute; reflexivity |].
  split; [vm_compute; reflexivity |].
  split; [reflexivity |]. split; [reflexivity |].
  split; [vm_compute; reflexivity |].
  split; [reflexivity |]. split; [reflexivity |]. split; [reflexivity |].
  split; [vm_compute; reflexivity |].
  split; [vm_compute; reflexivity |].
  split; [reflexivity |]. split; reflexivity.
Qed.

(** * [optimize] and the number of nodes *)

(** C9, at a query the code compiles under a configuration whose time
    columns are not always included: the graph has 11 nodes when it is
    built and 12 after [optimize()].  When the graph is built, the first
    input of the math node is the constant, so the walk along first inputs
    of [ensureRequiredColumns] does not reach a source; the first pass of
    the optimizer sorts the inputs of the math node in place, after which
    the walk reaches both sources and the last pass adds a projection of the
    time column for each, while one node only, the constant, was removed. *)
Theorem optimize_can_add_nodes :
  exists g g',
    fromUserQuery windowed_math_query two_series_config = Ok g /\
    optimize false g = Ok (tt, g') /\
    length (nodes g) = 11 /\
    length (nodes g') = 12.
Proof.
  do 2 eexists.
  split; [vm_compute; reflexivity |].
  split; [vm_compute; reflexivity |].
  split; reflexivity.
Qed.

(** * The parameter table *)

Lemma to_uint_not_Nil n : Nat.to_uint n <> Decimal.Nil.
Proof.
  intros H. assert (E : n = 0).
  { rewrite <- (DecimalNat.Unsigned.of_to n), H. reflexivity. }
  subst. discriminate.
Qed.

Lemma String_nat_inj a b : JS.String_nat a = JS.String_nat b -> a = b.
Proof.
  unfold JS.String_nat. intros H.
  apply DecimalNat.Unsigned.to_uint_inj.
  pose proof (DecimalString.NilZero.usu (Nat.to_uint a) (to_uint_not_Nil a)) as Ha.
  pose proof (DecimalString.NilZero.usu (Nat.to_uint b) (to_uint_not_Nil b)) as Hb.
  rewrite H in Ha. congruence.
Qed.

Lemma paramName_inj a b : paramName a = paramName b -> a = b.
Proof.
  unfold paramName. intros H. apply String_nat_inj.
  simpl in H. now inversion H.
Qed.

Lemma Dict_set_fresh {V : Type} (k : string) (v : V) (d : Dict.t V) :
  ~ In k (Dict.keys d) -> Dict.set k v d = (d ++ [(k, v)])%list.
Proof.
  unfold Dict.keys. induction d as [| [k' v'] d IH]; simpl; intros H; [reflexivity |].
  destruct (String.eqb_spec k k') as [-> | Hne].
  - exfalso. apply H. now left.
  - f_equal. apply IH. tauto.
Qed.

Section ParameterTable.

Variable number : Type.
Variable String_number : number -> string.

Lemma paramName_fresh (ps : Dict.t (Value number)) :
  named_in_order ps -> ~ In (paramName (length ps + 1)) (Dict.keys ps).
Proof.
  unfold named_in_order. intros -> H. apply in_map_iff in H.
  destruct H as (j & Hj & Hin). apply paramName_inj in Hj.
  apply in_seq in Hin. lia.
Qed.

Lemma named_in_order_snoc (ps : Dict.t (Value number)) v :
  named_in_order ps ->
  named_in_order (ps ++ [(paramName (length ps + 1), v)])%list.
Proof.
  unfold named_in_order, Dict.keys. intros H.
  rewrite map_app, length_app, H. cbn [map fst length].
  rewrite !Nat.add_1_r, seq_S, map_app. reflexivity.
Qed.

(** What a call does on a table whose names are in order. *)
Lemma createParameter_on (ps : Dict.t (Value number)) value op :
  named_in_order ps ->
  let name := paramName (length ps + 1) in
  createParameter String_number value op ps =
  match value with
  | VNumber n => Ok (String_number n, ps)
  | VBoolean b => Ok (if b then "1" else "0", ps)
  | VString s =>
      Ok (placeholder name "String",
          (ps ++ [(name, VString (if op_includes_LIKE op then "%" ++ s ++ "%" else s))])%list)
  | VArray [] => Ok ("[]", ps)
  | VArray (v0 :: rest) =>
      if sameType (v0 :: rest)
      then Ok (placeholder name (arrayType v0), (ps ++ [(name, value)])%list)
      else Err MixedTypeArray
  end.
Proof.
  intros Hps name. pose proof (paramName_fresh ps Hps) as Hf.
  unfold createParameter, Dict.keys. rewrite length_map. fold name.
  destruct value as [s | n | b | [| v0 rest]]; try reflexivity.
  - destruct (op_includes_LIKE op); now rewrite Dict_set_fresh.
  - unfold sameType.
    destruct (forallb (fun v => JSType_eqb (typeof v) (typeof v0)) (v0 :: rest));
      simpl; [| reflexivity].
    rewrite Dict_set_fresh by assumption. unfold arrayType.
    now destruct (typeof v0).
Qed.

Lemma parametersAfter_named calls :
  named_in_order (parametersAfter String_number calls).
Proof.
  unfold parametersAfter.
  assert (H0 : named_in_order (@nil (string * Value number))) by reflexivity.
  revert H0. generalize (@nil (string * Value number)).
  induction calls as [| [value op] calls IH]; cbn [fold_left fst snd];
    intros ps Hps; [assumption |].
  apply IH. rewrite (createParameter_on ps value op Hps).
  destruct value as [s | n | b | [| v0 rest]]; try assumption.
  - now apply named_in_order_snoc.
  - destruct (sameType (v0 :: rest)).
    + now apply named_in_order_snoc.
    + assumption.
Qed.

(** C8.  Whatever calls came before on the graph: a number is returned as
    [String(n)] and a boolean as 1 or 0, with the table unchanged; the
    empty array is returned as [[]], with the table unchanged; a string
    (between percent signs when [op] includes LIKE) or a non-empty array
    whose elements have one type is stored under the next name, which is
    [param_i] for the i-th value stored, and the placeholder
    [{param_i: Type}] is returned, with the type String for a string and
    Array(String), Array(Float64) or Array(Boolean) for an array; a
    non-empty array with elements of several types raises the error of
    mixed types.  The names of the table are [param_1], [param_2], ... in
    the order of insertion. *)
Theorem createParameter_spec
        (calls : list (Value number * option string))
        (value : Value number) (op : option string) :
  let ps := parametersAfter String_number calls in
  let name := paramName (length ps + 1) in
  Dict.keys ps = map paramName (seq 1 (length ps)) /\
  createParameter String_number value op ps =
  match value with
  | VNumber n => Ok (String_number n, ps)
  | VBoolean b => Ok (if b then "1" else "0", ps)
  | VString s =>
      Ok ("{" ++ name ++ ": String}",
          (ps ++ [(name, VString (if op_includes_LIKE op then "%" ++ s ++ "%" else s))])%list)
  | VArray [] => Ok ("[]", ps)
  | VArray (v0 :: rest) =>
      if sameType (v0 :: rest)
      then Ok ("{" ++ name ++ ": " ++
               match typeof v0 with
               | TString => "Array(String)"
               | TNumber => "Array(Float64)"
               | TBoolean => "Array(Boolean)"
               end ++ "}",
               (ps ++ [(name, value)])%list)
      else Err MixedTypeArray
  end.
Proof.
  intros ps name. pose proof (parametersAfter_named calls) as H. fold ps in H.
  split; [exact H |].
  rewrite (createParameter_on ps value op H). reflexivity.
Qed.

End ParameterTable.

Example createParameter_first_string :
  createParameter JS.String_Z (VString "Tech") (Some "LIKE") []
  = Ok ("{param_1: String}", [("param_1", VString "%Tech%")]).
Proof. reflexivity. Qed.

Example createParameter_second_array :
  createParameter JS.String_Z (VArray [SNumber 1%Z; SNumber 2%Z]) None
                  [("param_1", VString "x")]
  = Ok ("{param_2: Array(Float64)}",
        [("param_1", VString "x"); ("param_2", VArray [SNumber 1%Z; SNumber 2%Z])]).
Proof. reflexivity. Qed.

Example createParameter_mixed :
  createParameter JS.String_Z (VArray [SNumber 1%Z; SString "a"]) None []
  = Err MixedTypeArray.
Proof. reflexivity. Qed.

Example createParameter_number :
  createParameter JS.String_Z (VNumber (-12)%Z) None [] = Ok ("-12", []).
Proof. reflexivity. Qed.

(** * The parameter pass and the inputs it leaves behind *)

Lemma same_node_refl n : same_node_fewer_inputs n n.
Proof. unfold same_node_fewer_inputs. repeat split; auto using incl_refl. Qed.

Lemma same_node_trans a b c :
  same_node_fewer_inputs a b -> same_node_fewer_inputs b c -> same_node_fewer_inputs a c.
Proof.
  intros (H1 & H2 & H3 & H4 & H5) (K1 & K2 & K3 & K4 & K5).
  unfold same_node_fewer_inputs. repeat split; try congruence.
  - eapply incl_tran; eauto.
  - destruct (H5 H H0) as (E1 & E2 & E3). destruct (K5 E2 E3) as (F1 & _). congruence.
  - destruct (H5 H H0) as (E1 & E2 & E3). destruct (K5 E2 E3) as (_ & F2 & _). assumption.
  - destruct (H5 H H0) as (E1 & E2 & E3). destruct (K5 E2 E3) as (_ & _ & F3). assumption.
Qed.

Lemma same_node_set_isTerminal b n : same_node_fewer_inputs n (set_isTerminal b n).
Proof. unfold same_node_fewer_inputs. simpl. repeat split; auto using incl_refl. Qed.

Lemma md_flag_spread n m :
  md_flag isParameter (set_metadata (Some (spread_hasParameter (metadata n))) m)
  = md_flag isParameter n.
Proof. unfold md_flag. simpl. destruct (metadata n); reflexivity. Qed.

Lemma same_node_inlineInto i v n : same_node_fewer_inputs n (inlineInto i v n).
Proof.
  unfold same_node_fewer_inputs, inlineInto.
  destruct (condition n) as [c |] eqn:Ec; destruct (criteria n) as [cs |] eqn:Ecs;
    simpl; rewrite ?Ec, ?Ecs; simpl.
  - repeat split; try discriminate.
    + intros x Hx. apply filter_In in Hx. destruct Hx as [Hx _].
      apply filter_In in Hx. tauto.
    + unfold md_flag. simpl. destruct (metadata n); reflexivity.
  - repeat split; try discriminate.
    + intros x Hx. apply filter_In in Hx. tauto.
    + unfold md_flag. simpl. destruct (metadata n); reflexivity.
  - repeat split; try discriminate.
    + intros x Hx. apply filter_In in Hx. tauto.
    + unfold md_flag. simpl. destruct (metadata n); reflexivity.
  - repeat split; auto using incl_refl.
Qed.

Lemma refines_refl ns : refines ns ns.
Proof. intros k n H. exists n. split; [assumption | apply same_node_refl]. Qed.

Lemma refines_trans a b c : refines a b -> refines b c -> refines a c.
Proof.
  intros H1 H2 k n Hn. destruct (H2 k n Hn) as (m & Hm & Hmn).
  destruct (H1 k m Hm) as (l & Hl & Hlm). exists l. split; [assumption |].
  eapply same_node_trans; eauto.
Qed.

Lemma keeps_refl o ns : keeps_but o ns ns.
Proof. intros k n H _. exists n. split; [assumption | apply same_node_refl]. Qed.

Lemma keeps_trans o a b c : keeps_but None a b -> keeps_but o b c -> keeps_but o a c.
Proof.
  intros H1 H2 k n Hn Hk. destruct (H1 k n Hn) as (m & Hm & Hnm); [discriminate |].
  destruct (H2 k m Hm Hk) as (l & Hl & Hml). exists l. split; [assumption |].
  eapply same_node_trans; eauto.
Qed.

Lemma keeps_weaken o a b : keeps_but None a b -> keeps_but o a b.
Proof. intros H k n Hn _. apply (H k n Hn). discriminate. Qed.

Section ExtensiveUpdate.

Variable f : ComputeNode -> ComputeNode.
Hypothesis f_same : forall n, same_node_fewer_inputs n (f n).

Lemma f_keeps_id n : id (f n) = id n.
Proof. apply f_same. Qed.

Lemma update_refines j ns : refines ns (update j f ns).
Proof.
  intros k n' H. destruct (String.eqb_spec k j) as [-> | Hne].
  - destruct (lookup j ns) as [n |] eqn:E.
    + rewrite (lookup_update_same f f_keeps_id j ns n E) in H.
      inversion H; subst. exists n. auto.
    + exfalso. apply lookup_None in E.
      rewrite <- (keys_update f f_keeps_id j ns) in E.
      apply lookup_None in E. congruence.
  - rewrite (lookup_update_other f f_keeps_id k j ns Hne) in H.
    exists n'. split; [assumption | apply same_node_refl].
Qed.

Lemma update_keeps j ns : keeps_but None ns (update j f ns).
Proof.
  intros k n H _. destruct (String.eqb_spec k j) as [-> | Hne].
  - exists (f n). split; [now apply lookup_update_same; [apply f_keeps_id |] | apply f_same].
  - exists n. split; [| apply same_node_refl].
    now rewrite (lookup_update_other f f_keeps_id k j ns Hne).
Qed.

Lemma fold_update_refines {A : Type} (key : A -> NodeID) (ds : list A) ns :
  refines ns (fold_left (fun acc d => update (key d) f acc) ds ns) /\
  keeps_but None ns (fold_left (fun acc d => update (key d) f acc) ds ns) /\
  keys (fold_left (fun acc d => update (key d) f acc) ds ns) = keys ns.
Proof.
  revert ns. induction ds as [| d ds IH]; simpl; intros ns.
  - split; [apply refines_refl | split; [apply keeps_refl | reflexivity]].
  - destruct (IH (update (key d) f ns)) as (H1 & H2 & H3).
    split; [| split].
    + eapply refines_trans; [apply update_refines | exact H1].
    + eapply keeps_trans; [apply update_keeps | exact H2].
    + rewrite H3. apply keys_update, f_keeps_id.
Qed.

End ExtensiveUpdate.

Lemma adjust_step_refines ns b :
  refines ns (adjust_step ns b) /\ keeps_but None ns (adjust_step ns b) /\
  keys (adjust_step ns b) = keys ns.
Proof.
  unfold adjust_step. destruct (lookup b ns).
  - split; [| split].
    + apply update_refines. intros n. apply same_node_set_isTerminal.
    + apply update_keeps. intros n. apply same_node_set_isTerminal.
    + apply keys_update. reflexivity.
  - split; [apply refines_refl | split; [apply keeps_refl | reflexivity]].
Qed.

Lemma adjust_refines l ns :
  refines ns (fold_left adjust_step l ns) /\
  keeps_but None ns (fold_left adjust_step l ns) /\
  keys (fold_left adjust_step l ns) = keys ns.
Proof.
  revert ns. induction l as [| b l IH]; simpl; intros ns.
  - split; [apply refines_refl | split; [apply keeps_refl | reflexivity]].
  - destruct (IH (adjust_step ns b)) as (H1 & H2 & H3).
    destruct (adjust_step_refines ns b) as (K1 & K2 & K3).
    split; [| split].
    + eapply refines_trans; eauto.
    + eapply keeps_trans; eauto.
    + congruence.
Qed.

Lemma delete_refines i ns : refines ns (delete i ns).
Proof.
  intros k n H. destruct (String.eqb_spec k i) as [-> | Hne].
  - rewrite lookup_delete_same in H. discriminate.
  - rewrite lookup_delete_other in H by assumption.
    exists n. split; [assumption | apply same_node_refl].
Qed.

Lemma delete_keeps i ns : keeps_but (Some i) ns (delete i ns).
Proof.
  intros k n H Hk. exists n. split; [| apply same_node_refl].
  rewrite lookup_delete_other; [assumption | congruence].
Qed.

Lemma removeNode_nodes_refines i ns :
  refines ns (removeNode_nodes i ns) /\
  keeps_but (Some i) ns (removeNode_nodes i ns) /\
  (forall n, lookup i ns = Some n -> lookup i (removeNode_nodes i ns) = None).
Proof.
  unfold removeNode_nodes. destruct (lookup i ns) as [node |] eqn:E.
  - unfold removeNode_adjust.
    destruct (adjust_refines (inputs node) ns) as (H1 & H2 & H3).
    split; [| split].
    + eapply refines_trans; [exact H1 | apply delete_refines].
    + eapply keeps_trans; [exact H2 | apply delete_keeps].
    + intros _ _. apply lookup_delete_same.
  - split; [apply refines_refl | split; [apply keeps_refl | discriminate]].
Qed.

(** One round of the loop. *)
Lemma inline_round i ns :
  refines ns (inlineParameter_nodes i ns) /\
  keeps_but (Some i) ns (inlineParameter_nodes i ns) /\
  (forall n, lookup i ns = Some n -> md_flag isParameter n = false ->
             inlineParameter_nodes i ns = ns) /\
  (forall n, lookup i ns = Some n -> md_flag isParameter n = true ->
             lookup i (inlineParameter_nodes i ns) = None).
Proof.
  unfold inlineParameter_nodes. destruct (lookup i ns) as [node |] eqn:E.
  2:{ split; [apply refines_refl | split; [apply keeps_refl |]].
      split; intros n Hn; discriminate. }
  destruct (md_flag isParameter node) eqn:Ef; simpl.
  - set (v := constantValue (expression node)).
    destruct (fold_update_refines (inlineInto i v) (same_node_inlineInto i v)
                                  id (findDependentNodes_nodes i ns) ns)
      as (H1 & H2 & H3).
    set (ns2 := fold_left (fun acc d => update (id d) (inlineInto i v) acc)
                          (findDependentNodes_nodes i ns) ns) in *.
    destruct (removeNode_nodes_refines i ns2) as (K1 & K2 & K3).
    split; [eapply refines_trans; eauto |].
    split; [eapply keeps_trans; eauto |].
    split.
    + intros n Hn Hf. inversion Hn; subst. congruence.
    + intros n Hn _.
      destruct (H2 i node E) as (n2 & Hn2 & _); [discriminate |].
      now apply (K3 n2).
  - split; [apply refines_refl | split; [apply keeps_refl |]].
    split; [reflexivity |].
    intros n Hn Hf. inversion Hn; subst. congruence.
Qed.

(** ** From the methods to their effect on [this.nodes] *)

Lemma forEach_mutate (f : ComputeNode -> ComputeNode) :
  (forall n, id (f n) = id n) ->
  forall (ds : list ComputeNode) (g : ComputeGraph),
    (forall d, In d ds -> In (id d) (keys (nodes g))) ->
    forEach (fun d => mutate (id d) f) ds g
    = Ok (tt, with_nodes (fold_left (fun acc d => update (id d) f acc) ds (nodes g)) g).
Proof.
  intros Hf. induction ds as [| d ds IH]; intros g Hds.
  - simpl. unfold ret. destruct g; reflexivity.
  - cbn [forEach fold_left]. unfold bind at 1. unfold mutate at 1.
    assert (Hd : has (id d) (nodes g) = true) by (apply has_In, Hds; now left).
    rewrite Hd. rewrite IH.
    + reflexivity.
    + intros d' Hd'. simpl. rewrite keys_update by assumption. apply Hds. now right.
Qed.

Lemma deref_ok_filed (i : NodeID) (g : ComputeGraph) (n : ComputeNode) :
  lookup i (nodes g) = Some n -> deref_ok i g = Ok (n, g).
Proof.
  intros H. unfold deref_ok, deref, deref_in, bind. now rewrite H.
Qed.

Lemma inlineParameter_pure (i : NodeID) (g : ComputeGraph) :
  In i (keys (nodes g)) ->
  exists g', inlineParameter i g = Ok (tt, g') /\
             nodes g' = inlineParameter_nodes i (nodes g).
Proof.
  intros Hi. apply has_In in Hi. unfold has in Hi.
  destruct (lookup i (nodes g)) as [node |] eqn:E; [clear Hi | discriminate].
  unfold inlineParameter, inlineParameter_nodes.
  unfold bind at 1. rewrite (deref_ok_filed i g node E), E.
  destruct (md_flag isParameter node); cbn [negb].
  - unfold bind, findDependentNodes.
    rewrite forEach_mutate.
    + destruct (removeNode_nodes_of i
                  (with_nodes
                     (fold_left
                        (fun acc d => update (id d)
                                        (inlineInto i (constantValue (expression node))) acc)
                        (findDependentNodes_nodes i (nodes g)) (nodes g)) g))
        as (g' & Hr & Hn).
      exists g'. split; [exact Hr | exact Hn].
    + intros n. apply (same_node_inlineInto i _ n).
    + intros d Hd. unfold findDependentNodes_nodes in Hd. apply filter_In in Hd.
      unfold keys. apply in_map. tauto.
  - exists g. split; reflexivity.
Qed.

(** ** The loop of [inlineParameters] *)

Lemma keeps_key i ns ns' k :
  keeps_but (Some i) ns ns' -> k <> i -> In k (keys ns) -> In k (keys ns').
Proof.
  intros H Hk Hin. apply has_In in Hin. unfold has in Hin.
  destruct (lookup k ns) as [n |] eqn:E; [| discriminate].
  destruct (H k n E) as (n' & Hn' & _); [congruence |].
  apply has_In. unfold has. now rewrite Hn'.
Qed.

Lemma refines_key ns ns' k : refines ns ns' -> In k (keys ns') -> In k (keys ns).
Proof.
  intros H Hin. apply has_In in Hin. unfold has in Hin.
  destruct (lookup k ns') as [n' |] eqn:E; [| discriminate].
  destruct (H k n' E) as (n & Hn & _). apply has_In. unfold has. now rewrite Hn.
Qed.

Lemma inline_loop (l : list NodeID) :
  NoDup l ->
  forall g,
    (forall i, In i l -> In i (keys (nodes g))) ->
    exists g',
      forEach inlineParameter l g = Ok (tt, g') /\
      refines (nodes g) (nodes g') /\
      (forall k n, lookup k (nodes g) = Some n -> md_flag isParameter n = false ->
                   exists n', lookup k (nodes g') = Some n' /\ same_node_fewer_inputs n n') /\
      (forall k n, In k l -> lookup k (nodes g) = Some n ->
                   md_flag isParameter n = true -> ~ In k (keys (nodes g'))).
Proof.
  induction l as [| i l IH]; intros Hnd g Hl.
  - exists g. split; [reflexivity |]. split; [apply refines_refl |].
    split; [| intros k n []].
    intros k n Hn _. exists n. split; [assumption | apply same_node_refl].
  - inversion Hnd as [| ? ? Hil Hnd']; subst.
    destruct (inlineParameter_pure i g (Hl i (or_introl eq_refl))) as (g1 & Hr1 & Hn1).
    destruct (inline_round i (nodes g)) as (R1 & K1 & F1 & T1).
    rewrite <- Hn1 in R1, K1, F1, T1.
    destruct (IH Hnd' g1) as (g' & Hr' & R' & K' & T').
    { intros j Hj. apply (keeps_key i (nodes g)); [assumption | | apply Hl; now right].
      intros ->. contradiction. }
    exists g'. split; [| split; [| split]].
    + cbn [forEach]. unfold bind. now rewrite Hr1.
    + eapply refines_trans; eauto.
    + intros k n Hn Hf.
      assert (H1 : exists n1, lookup k (nodes g1) = Some n1 /\ same_node_fewer_inputs n n1).
      { destruct (String.eqb_spec k i) as [-> | Hne].
        - rewrite (F1 n Hn Hf). exists n. split; [assumption | apply same_node_refl].
        - apply (K1 k n Hn). congruence. }
      destruct H1 as (n1 & Hn1' & S1).
      destruct (K' k n1 Hn1') as (n' & Hn' & S').
      { destruct S1 as (_ & _ & _ & Hflag & _). congruence. }
      exists n'. split; [assumption |]. eapply same_node_trans; eauto.
    + intros k n [<- | Hk] Hn Hf Hin.
      * apply (refines_key _ _ _ R') in Hin. apply lookup_None in Hin; [tauto |].
        now apply (T1 n).
      * assert (Hne : k <> i) by (intros ->; contradiction).
        destruct (K1 k n Hn) as (n1 & Hn1' & S1); [congruence |].
        apply (T' k n1 Hk Hn1'); [| assumption].
        destruct S1 as (_ & _ & _ & Hflag & _). congruence.
Qed.

Lemma NoDup_ids_of_type t ns : NoDup (keys ns) -> NoDup (ids_of_type t ns).
Proof.
  unfold keys, ids_of_type. induction ns as [| n ns IH]; simpl; intros H; [constructor |].
  inversion H as [| ? ? Hn Hns]; subst.
  destruct (NodeType_eqb (type n) t); simpl; [| now apply IH].
  constructor; [| now apply IH].
  intros Hin. apply Hn. apply in_map_iff in Hin. destruct Hin as (m & Hm & Hin).
  apply filter_In in Hin. rewrite <- Hm. apply in_map. tauto.
Qed.

Lemma NodeType_eqb_refl t : NodeType_eqb t t = true.
Proof. destruct t; reflexivity. Qed.

Lemma refines_edge ns ns' a b : refines ns ns' -> edge ns' a b -> edge ns a b.
Proof.
  intros H (n' & Hn' & Hb). destruct (H a n' Hn') as (n & Hn & _ & Hinc & _).
  exists n. split; [assumption | now apply Hinc].
Qed.

Lemma refines_reaches ns ns' a b : refines ns ns' -> reaches ns' a b -> reaches ns a b.
Proof.
  intros H Hr. induction Hr as [a b Hab | a b c _ IH1 _ IH2].
  - apply t_step. now apply (refines_edge ns ns').
  - eapply t_trans; eauto.
Qed.

(** C2.  Let a graph without cycle hold an expression node [p] marked
    [isParameter] and a node [m], itself no parameter, that lists [p] among
    its inputs and carries neither a condition nor criteria (a math
    expression with a constant operand is such a node).  The parameter pass
    returns; after it [p] is no longer in the graph, [m] still lists [p],
    and [getExecutionOrder] raises the error of the missing input. *)
Theorem inlineParameters_leaves_dangling_input
        (g : ComputeGraph) (p m : NodeID) (pn mn : ComputeNode) :
  well_keyed (nodes g) -> acyclic (nodes g) ->
  lookup p (nodes g) = Some pn -> type pn = T_expression ->
  md_flag isParameter pn = true ->
  lookup m (nodes g) = Some mn -> In p (inputs mn) ->
  md_flag isParameter mn = false -> condition mn = None -> criteria mn = None ->
  exists g' mn' n i,
    inlineParameters g = Ok (tt, g') /\
    has p (nodes g') = false /\
    lookup m (nodes g') = Some mn' /\ In p (inputs mn') /\
    getExecutionOrder g' = Err (DanglingReference n i).
Proof.
  intros Hwf Hac Hp Hpt Hpf Hm Hmp Hmf Hmc Hmcr.
  destruct (inline_loop (ids_of_type T_expression (nodes g))
                        (NoDup_ids_of_type T_expression (nodes g) Hwf) g)
    as (g' & Hrun & R & K & T).
  { intros i Hi. unfold ids_of_type in Hi. apply in_map_iff in Hi.
    destruct Hi as (n & <- & Hn). apply filter_In in Hn. unfold keys. apply in_map. tauto. }
  destruct (K m mn Hm Hmf) as (mn' & Hm' & (_ & _ & _ & _ & Hsame)).
  destruct (Hsame Hmc Hmcr) as (Hinp & _ & _).
  assert (Hpgone : ~ In p (keys (nodes g'))).
  { apply (T p pn); try assumption.
    unfold ids_of_type. apply in_map_iff. exists pn. split; [now apply lookup_id in Hp |].
    apply filter_In. split; [now apply lookup_In in Hp |].
    rewrite Hpt. apply NodeType_eqb_refl. }
  assert (Hedge : edge (nodes g') m p).
  { unfold edge. exists mn'. split; [assumption | now rewrite Hinp]. }
  pose proof (getExecutionOrder_cases (nodes g')) as Hc.
  destruct (getExecutionOrder_nodes (nodes g')) as [order | e] eqn:Eo.
  - exfalso. apply Hpgone. apply (order_closed _ _ Hc m p Hedge).
  - destruct Hc as [(x & -> & Hx) | (n & i & -> & _)].
    + exfalso. apply (Hac x). now apply (refines_reaches (nodes g) (nodes g')).
    + exists g', mn', n, i. split; [| split; [| split; [| split]]].
      * unfold inlineParameters, bind, getNodes. exact Hrun.
      * destruct (has p (nodes g')) eqn:Eh; [| reflexivity].
        apply has_In in Eh. contradiction.
      * assumption.
      * now rewrite Hinp.
      * unfold getExecutionOrder. now rewrite Eo.
Qed.

Lemma inlineParameters_leaves_dangling_input_witness :
  exists g' mn' n i,
    inlineParameters math_constant_graph = Ok (tt, g') /\
    has "expression_1" (nodes g') = false /\
    lookup "expression_2" (nodes g') = Some mn' /\ In "expression_1" (inputs mn') /\
    getExecutionOrder g' = Err (DanglingReference n i).
Proof.
  eapply (inlineParameters_leaves_dangling_input
            math_constant_graph "expression_1" "expression_2").
  - apply distinct_well_keyed. vm_compute. reflexivity.
  - eapply acyclic_of_order. vm_compute. reflexivity.
  - vm_compute. reflexivity.
  - reflexivity.
  - reflexivity.
  - vm_compute. reflexivity.
  - simpl. tauto.
  - reflexivity.
  - reflexivity.
  - reflexivity.
Defined.

(** The query [close / 2 > 5] is valid, and the graph that [buildQuery]
    hands to the emitter has no execution order. *)
Example math_constant_query_has_no_order :
  exists g g',
    fromUserQuery math_constant_query market_config = Ok g /\
    optimize false g = Ok (tt, g') /\
    getExecutionOrder g' = Err (DanglingReference "expression_2" "expression_1").
Proof.
  do 2 eexists. split; [vm_compute; reflexivity |].
  split; vm_compute; reflexivity.
Qed.

(** * The emitter: the time window of a CTE *)

(** The day [addLargestTimeRangeFilter] prints for the start of an absolute
    range: 86400 milliseconds before [from] is the day before only in the
    first 87 seconds of a day. *)
Lemma prewhere_from_day (from : Z) :
  JSDate.Day (from * 1000 - 86400)
  = (if (from mod 86400 <? 87)%Z then JSDate.Day (from * 1000) - 1
     else JSDate.Day (from * 1000))%Z.
Proof.
  unfold JSDate.Day, JSDate.msPerDay.
  pose proof (Z.div_mod from 86400 ltac:(lia)) as E.
  pose proof (Z.mod_pos_bound from 86400 ltac:(lia)) as B.
  set (q := (from / 86400)%Z) in *. set (r := (from mod 86400)%Z) in *.
  assert (D : (from * 1000 / 86400000 = q)%Z).
  { symmetry. apply Z.div_unique with (r := (r * 1000)%Z); lia. }
  rewrite D.
  destruct (Z.ltb_spec r 87).
  - symmetry. apply Z.div_unique with (r := (r * 1000 + 86400000 - 86400)%Z); lia.
  - symmetry. apply Z.div_unique with (r := (r * 1000 - 86400)%Z); lia.
Qed.

(** C4. A range that begins on 2024-01-01 at 12:00:00Z and ends on
    2024-12-31: the PREWHERE clause of the CTE begins at
    [toDate('2024-01-01')], the date of [from] itself, and the day before
    is 2023-12-31. *)
Theorem addLargestTimeRangeFilter_from_not_day_before :
  addLargestTimeRangeFilter [daily_agg_config] [Absolute 1704110400 1735603200] []
  = Ok ["daily_agg.date BETWEEN toDate('2024-01-01') AND toDate('2024-12-31')"]
  /\ dateOf 1704110400 = "2024-01-01"
  /\ dayBefore 1704110400 = "2023-12-31"
  /\ dateOf 1735603200 = "2024-12-31".
Proof. vm_compute. repeat split; reflexivity. Qed.

(** The same range from midnight gives the day before, as in the test of
    the absolute range. *)
Example addLargestTimeRangeFilter_from_midnight :
  addLargestTimeRangeFilter [daily_agg_config] [Absolute 1704067200 1735603200] []
  = Ok ["daily_agg.date BETWEEN toDate('2023-12-31') AND toDate('2024-12-31')"]
  /\ dayBefore 1704067200 = "2023-12-31".
Proof. vm_compute. split; reflexivity. Qed.

(** The whole pipeline on the request of the noon range. *)
Example noon_range_query_prewhere :
  exists q ps,
    buildMarketQuery noon_range_query = Ok (q, ps)
    /\ nth 3 (split_lines q) ""
       = "PREWHERE daily_agg.date BETWEEN toDate('2024-01-01') AND toDate('2024-12-31')".
Proof. eexists. eexists. split; [vm_compute; reflexivity | vm_compute; reflexivity]. Qed.

(** * The emitter: the order of the clauses *)


(** The body of a CTE is in that order unless it has both a QUALIFY and a
    WHERE clause. *)
Lemma cteBodyParts_clause_order cols fromStmt preWhere qualify where_ groupBy
      orderBy limitClause :
  in_clause_order
    (map fst (cteBodyParts cols fromStmt preWhere qualify where_ groupBy orderBy
                           limitClause))
  = match qualify, where_ with
    | _ :: _, _ :: _ => false
    | _, _ => true
    end.
Proof.
  unfold cteBodyParts, clause_if_any.
  destruct preWhere, qualify, where_, groupBy, orderBy,
    (String.eqb limitClause ""); reflexivity.
Qed.

(** C5. The request of the test "should handle maximum timestamp", a
    filter on [last(close)] over an absolute range: the body of its one
    CTE has the clauses SELECT, FROM, PREWHERE, QUALIFY, WHERE, with
    QUALIFY before WHERE. *)
Theorem cte_body_qualify_before_where :
  exists c,
    marketCTEs max_timestamp_query = Ok [c]
    /\ textClauses (cte_sql c) = [SELECT; FROM; PREWHERE; QUALIFY; WHERE]
    /\ in_clause_order (textClauses (cte_sql c)) = false.
Proof.
  eexists. split; [vm_compute; reflexivity |].
  split; vm_compute; reflexivity.
Qed.

(** The lines of the statement for that request. *)
Example max_timestamp_query_lines :
  exists q ps,
    buildMarketQuery max_timestamp_query = Ok (q, ps)
    /\ textClauses q = [SELECT; FROM; PREWHERE; QUALIFY; WHERE; SELECT; FROM]
    /\ nth 4 (split_lines q) "" = "QUALIFY last_close_19700101_20380119 > 100"
    /\ nth 5 (split_lines q) ""
       = "WHERE date BETWEEN toDate('1970-01-01') AND toDate('2038-01-19')".
Proof.
  eexists. eexists. split; [vm_compute; reflexivity |].
  repeat split; vm_compute; reflexivity.
Qed.

(** * The emitter: composite filters *)

Section NotFilter.

Variable DEFAULT_CONFIG : QueryBuilderConfig.
Variable randomSuffix : NodeID -> string.

(** The loop over the children of a composite filter keeps the texts that
    are not empty, in order. *)
Lemma children_loop fuel ctx ignoreIds winAliases childIds (acc : list string * bool) :
  forM (fun cid (acc : list string * bool) =>
          match lookup cid ctx with
          | None => Err (TypeError "childNode is undefined")
          | Some childNode =>
              match translateFilter DEFAULT_CONFIG randomSuffix fuel childNode ctx
                                    ignoreIds winAliases with
              | Err e => Err e
              | Ok (childSql, childWin) =>
                  if String.eqb childSql "" then Ok acc
                  else Ok ((fst acc ++ [childSql])%list, snd acc || childWin)
              end
          end)
       childIds acc
  = match childResults DEFAULT_CONFIG randomSuffix fuel ctx ignoreIds winAliases
                       childIds with
    | Err e => Err e
    | Ok rs =>
        Ok ((fst acc ++ map fst (nonEmptyResults rs))%list,
            snd acc || existsb snd (nonEmptyResults rs))
    end.
Proof.
  revert acc. induction childIds as [|cid r IH]; intros acc.
  - cbn. rewrite app_nil_r, orb_false_r. now destruct acc.
  - cbn [forM childResults].
    destruct (lookup cid ctx) as [childNode|]; [|reflexivity].
    destruct (translateFilter DEFAULT_CONFIG randomSuffix fuel childNode ctx
                              ignoreIds winAliases) as [[childSql childWin]|e];
      [|reflexivity].
    destruct (String.eqb childSql "") eqn:Es.
    + rewrite IH.
      destruct (childResults DEFAULT_CONFIG randomSuffix fuel ctx ignoreIds
                             winAliases r) as [rs|e]; [|reflexivity].
      unfold nonEmptyResults. cbn [filter fst]. rewrite Es. reflexivity.
    + rewrite IH.
      destruct (childResults DEFAULT_CONFIG randomSuffix fuel ctx ignoreIds
                             winAliases r) as [rs|e]; [|reflexivity].
      unfold nonEmptyResults. cbn [filter fst snd negb]. rewrite Es.
      cbn [negb map existsb fst snd]. rewrite <- app_assoc, orb_assoc. reflexivity.
Qed.

(** A composite filter none of whose children gives a text gives none. *)
Lemma translateFilter_composite_empty fuel f ctx ignoreIds winAliases rs :
  type f = T_composite_filter ->
  childResults DEFAULT_CONFIG randomSuffix fuel ctx ignoreIds winAliases
               (filter (fun i => negb (JS.includes i ignoreIds)) (inputs f)) = Ok rs ->
  nonEmptyResults rs = [] ->
  translateFilter DEFAULT_CONFIG randomSuffix (S fuel) f ctx ignoreIds winAliases
  = Ok ("", false).
Proof.
  intros Ht Hc Hn. cbn [translateFilter]. rewrite Ht. cbn [NodeType_eqb].
  rewrite children_loop, Hc, Hn. reflexivity.
Qed.

(** C10. A composite filter with the operator [not]: the text is
    [NOT (c1)] for the first child [c1] whose text is not empty; the
    texts of the other children are not in it. *)
Theorem translateFilter_not fuel f ctx ignoreIds winAliases rs c1 w1 rest :
  type f = T_composite_filter ->
  operator f = Some "not" ->
  childResults DEFAULT_CONFIG randomSuffix fuel ctx ignoreIds winAliases
               (filter (fun i => negb (JS.includes i ignoreIds)) (inputs f)) = Ok rs ->
  nonEmptyResults rs = (c1, w1) :: rest ->
  translateFilter DEFAULT_CONFIG randomSuffix (S fuel) f ctx ignoreIds winAliases
  = Ok ("NOT (" ++ c1 ++ ")", w1 || existsb snd rest).
Proof.
  intros Ht Ho Hc Hn. cbn [translateFilter]. rewrite Ht. cbn [NodeType_eqb].
  rewrite children_loop, Hc, Hn, Ho. reflexivity.
Qed.

End NotFilter.

Lemma translateFilter_not_witness :
  inputs not_two_children_filter = ["filter_1"; "filter_2"]
  /\ childResults market_config no_random 1 not_two_children_nodes [] []
                  ["filter_1"; "filter_2"]
     = Ok [("col_???? = {param_1: String}", false);
           ("col_???? = {param_2: String}", false)]
  /\ translateFilter market_config no_random 2 not_two_children_filter
                     not_two_children_nodes [] []
     = Ok ("NOT (col_???? = {param_1: String})", false).
Proof.
  split; [reflexivity |]. split; [reflexivity |].
  apply (translateFilter_not market_config no_random 1 not_two_children_filter
           not_two_children_nodes [] []
           [("col_???? = {param_1: String}", false);
            ("col_???? = {param_2: String}", false)]
           "col_???? = {param_1: String}" false
           [("col_???? = {param_2: String}", false)]);
    reflexivity.
Defined.

(** The whole pipeline on [not (sector = 'Tech', country = 'US')]: both
    values are parameters, and the last line negates the first child
    only. *)
Example not_two_children_query_text :
  exists q,
    buildMarketQuery not_two_children_query
    = Ok (q, [("param_1", VString "Tech"); ("param_2", VString "US")])
    /\ last (split_lines q) "" = "WHERE NOT (col_???? = {param_1: String})".
Proof. eexists. split; vm_compute; reflexivity. Qed.

(** * The node table: [addNode], [removeNode], [replaceNodeID] *)












(** [replaceNodeID]: the ids a node refers to. *)
Lemma replace_side_clean oldId newId oldAlias s :
  oldId <> newId ->
  match replace_side oldId newId oldAlias s with
  | SInput input _ => input <> oldId
  | _ => True
  end.
Proof.
  intros H. unfold replace_side. destruct s as [input metric | |]; try exact I.
  destruct (String.eqb_spec input oldId); [congruence | assumption].
Qed.

Lemma side_refers_replace oldId newId oldAlias s :
  oldId <> newId -> side_refers oldId (replace_side oldId newId oldAlias s) = false.
Proof.
  intros H. unfold replace_side. destruct s as [input metric | |]; try reflexivity.
  destruct (String.eqb_spec input oldId) as [-> | Hn]; simpl.
  - apply String.eqb_neq. congruence.
  - now apply String.eqb_neq.
Qed.

Lemma replace_side_same oldId newId oldAlias s :
  side_refers oldId s = false -> replace_side oldId newId oldAlias s = s.
Proof.
  unfold replace_side, side_refers. destruct s; try reflexivity.
  intros ->. reflexivity.
Qed.

Lemma map_same {A : Type} (f : A -> A) (l : list A) :
  (forall x, In x l -> f x = x) -> map f l = l.
Proof.
  induction l as [| x l IH]; simpl; intros H; [reflexivity |].
  rewrite (H x (or_introl eq_refl)), IH; [reflexivity |].
  intros y Hy. apply H. now right.
Qed.

Lemma existsb_false {A : Type} (p : A -> bool) (l : list A) :
  existsb p l = false <-> forall x, In x l -> p x = false.
Proof.
  induction l as [| x l IH]; simpl.
  - split; [intros _ y [] | reflexivity].
  - rewrite orb_false_iff, IH. split.
    + intros [Hx Hl] y [<- | Hy]; auto.
    + intros H. split; [apply H; now left | intros y Hy; apply H; now right].
Qed.

Lemma replaceNodeID_node_id oldId newId oldAlias n :
  id (replaceNodeID_node oldId newId oldAlias n) = id n.
Proof.
  unfold replaceNodeID_node. destruct (String.eqb (id n) newId); [reflexivity |].
  cbn. destruct (condition n); cbn; destruct (criteria n); cbn;
    destruct (columns n); reflexivity.
Qed.

Ltac node_fields :=
  cbn [id type inputs isTerminal metadata table timeColumn columns expression alias
       condition operator criteria limit joinType joinConditions left right cond_op
       set_inputs set_condition set_criteria set_columns] in *.

Lemma replaceNodeID_node_clean oldId newId oldAlias n :
  oldId <> newId -> id n <> newId ->
  refersTo oldId (replaceNodeID_node oldId newId oldAlias n) = false.
Proof.
  intros Hne Hid. unfold replaceNodeID_node.
  apply String.eqb_neq in Hid. rewrite Hid.
  assert (Hin : JS.includes oldId
                  (map (fun input => if String.eqb input oldId then newId else input)
                       (inputs n)) = false).
  { apply includes_false. intros H. apply in_map_iff in H. destruct H as (x & Hx & _).
    destruct (String.eqb_spec x oldId); congruence. }
  assert (Hcr : forall cs, existsb (fun c => String.eqb (crit_expression c) oldId)
                                   (map (replace_criterion oldId newId) cs) = false).
  { intros cs. apply existsb_false. intros c Hc. apply in_map_iff in Hc.
    destruct Hc as (c0 & <- & _). unfold replace_criterion.
    destruct (String.eqb_spec (crit_expression c0) oldId) as [E | E]; simpl.
    - apply String.eqb_neq. congruence.
    - now apply String.eqb_neq. }
  assert (Hco : forall cs, existsb (fun c => option_string_eqb (sourceNode c) (Some oldId))
                                   (map (replace_column oldId newId) cs) = false).
  { intros cs. apply existsb_false. intros c Hc. apply in_map_iff in Hc.
    destruct Hc as (c0 & <- & _). unfold replace_column.
    destruct (sourceNode c0) as [s |] eqn:Es; [| now rewrite Es].
    destruct (String.eqb_spec s oldId) as [E | E]; simpl.
    - apply String.eqb_neq. congruence.
    - rewrite Es. simpl. now apply String.eqb_neq. }
  destruct n as [i t ins term md tb tc cols ex al cond op crit lim jt jc].
  unfold refersTo. node_fields.
  destruct cond as [c |]; node_fields; destruct crit as [cs |]; node_fields;
    destruct cols as [cl |]; node_fields;
    rewrite ?Hin, ?Hcr, ?Hco,
      ?(side_refers_replace oldId newId oldAlias (left c) Hne),
      ?(side_refers_replace oldId newId oldAlias (right c) Hne); reflexivity.
Qed.

Lemma replaceNodeID_node_same oldId newId oldAlias n :
  refersTo oldId n = false -> replaceNodeID_node oldId newId oldAlias n = n.
Proof.
  unfold replaceNodeID_node, refersTo. intros H.
  destruct (String.eqb (id n) newId); [reflexivity |].
  destruct n as [i t ins term md tb tc cols ex al cond op crit lim jt jc]. node_fields.
  apply orb_false_iff in H. destruct H as [H Hcols].
  apply orb_false_iff in H. destruct H as [H Hcrit].
  apply orb_false_iff in H. destruct H as [Hins Hcond].
  assert (Ei : map (fun input => if String.eqb input oldId then newId else input) ins = ins).
  { apply map_same. intros x Hx. destruct (String.eqb_spec x oldId) as [-> | _];
      [| reflexivity].
    apply includes_false in Hins. contradiction. }
  rewrite Ei.
  assert (Ec : match cond with
               | Some c => Some {| left := replace_side oldId newId oldAlias (left c);
                                   right := replace_side oldId newId oldAlias (right c);
                                   cond_op := cond_op c |}
               | None => None
               end = cond).
  { destruct cond as [c |]; [| reflexivity].
    apply orb_false_iff in Hcond. destruct Hcond as [Hl Hr].
    rewrite (replace_side_same oldId newId oldAlias _ Hl),
      (replace_side_same oldId newId oldAlias _ Hr). now destruct c. }
  assert (Ecr : match crit with
                | Some cs => Some (map (replace_criterion oldId newId) cs)
                | None => None
                end = crit).
  { destruct crit as [cs |]; [| reflexivity]. f_equal. apply map_same.
    intros c Hc. unfold replace_criterion.
    rewrite (proj1 (existsb_false _ cs) Hcrit c Hc). reflexivity. }
  assert (Eco : match cols with
                | Some cs => Some (map (replace_column oldId newId) cs)
                | None => None
                end = cols).
  { destruct cols as [cs |]; [| reflexivity]. f_equal. apply map_same.
    intros c Hc. unfold replace_column.
    pose proof (proj1 (existsb_false _ cs) Hcols c Hc) as Hs. cbv beta in Hs.
    destruct (sourceNode c) as [s |]; [| reflexivity]. simpl in Hs. now rewrite Hs. }
  destruct cond as [c |]; node_fields; destruct crit as [cs |]; node_fields;
    destruct cols as [cl |]; node_fields; try (injection Ec as Ec); try (injection Ecr as Ecr); try (injection Eco as Eco); rewrite ?Ec, ?Ecr, ?Eco, ?Ei; reflexivity.
Qed.

(** X3. [replaceNodeID(oldId, newId)] with two different ids keeps the
    nodes and their keys; afterwards no node but the node [newId] refers
    to [oldId] (in its inputs, its condition, its criteria or its columns);
    the node [newId] and the nodes that did not refer to [oldId] are as
    they were. *)
Theorem replaceNodeID_spec (oldId newId : NodeID) (oldAlias : option string)
        (g : ComputeGraph) :
  oldId <> newId ->
  exists g',
    replaceNodeID oldId newId oldAlias g = Ok (tt, g') /\
    keys (nodes g') = keys (nodes g) /\
    (forall n', In n' (nodes g') -> id n' <> newId -> refersTo oldId n' = false) /\
    (forall n, In n (nodes g) -> id n = newId \/ refersTo oldId n = false ->
               In n (nodes g')).
Proof.
  intros Hne. eexists. split; [reflexivity |]. cbn [nodes with_nodes].
  split; [| split].
  - unfold keys. rewrite map_map. apply map_ext. intros n.
    apply replaceNodeID_node_id.
  - intros n' Hn' Hid. apply in_map_iff in Hn'. destruct Hn' as (n & <- & _).
    rewrite replaceNodeID_node_id in Hid. now apply replaceNodeID_node_clean.
  - intros n Hn Hor. apply in_map_iff. exists n. split; [| assumption].
    destruct Hor as [E | E].
    + unfold replaceNodeID_node. apply String.eqb_eq in E. now rewrite E.
    + now apply replaceNodeID_node_same.
Qed.

Lemma replaceNodeID_spec_witness :
  exists g',
    replaceNodeID "proj_1" "src_1" None test_order_graph = Ok (tt, g') /\
    keys (nodes g') = keys (nodes test_order_graph) /\
    (forall n', In n' (nodes g') -> id n' <> "src_1" -> refersTo "proj_1" n' = false) /\
    (forall n, In n (nodes test_order_graph) ->
               id n = "src_1" \/ refersTo "proj_1" n = false -> In n (nodes g')).
Proof. apply replaceNodeID_spec. discriminate. Defined.

(** * [getExecutionOrder]: when it returns and what its errors say *)

(** X4. On a table keyed by the ids of its nodes, [getExecutionOrder]
    returns an order if and only if the graph has no cycle along the
    inputs and every input of every node is the id of a node; the graph is
    left as it is. *)
Theorem getExecutionOrder_returns_iff (g : ComputeGraph) :
  well_keyed (nodes g) ->
  ((exists order, getExecutionOrder g = Ok (order, g))
   <-> acyclic (nodes g) /\ inputs_closed (nodes g)).
Proof.
  intros Hwf. unfold getExecutionOrder.
  pose proof (getExecutionOrder_cases (nodes g)) as Hc.
  destruct (getExecutionOrder_nodes (nodes g)) as [order | e] eqn:E.
  - split; [intros _ | intros _; now exists order].
    split; [now apply (order_acyclic (nodes g) order) |].
    intros n Hn i Hi. apply (order_closed (nodes g) order Hc (id n) i).
    exists n. split; [now apply lookup_wf | assumption].
  - split; [intros [order H]; discriminate |].
    intros [Ha Hcl]. exfalso. destruct Hc as [Hc | Hc].
    + now apply (acyclic_no_cycle (nodes g) e).
    + now apply (closed_no_dangling (nodes g) e).
Qed.

Lemma getExecutionOrder_returns_iff_witness :
  (exists order, getExecutionOrder test_order_graph = Ok (order, test_order_graph))
  <-> acyclic (nodes test_order_graph) /\ inputs_closed (nodes test_order_graph).
Proof.
  apply getExecutionOrder_returns_iff. apply distinct_well_keyed. reflexivity.
Defined.



(** * [findOrCreateSourceNode] *)

Lemma find_add_source (p : ComputeNode -> bool) node ns :
  find p ns = None -> p (set_isTerminal true node) = true ->
  find p (update (id node) (set_isTerminal true) (store node ns))
  = Some (set_isTerminal true node).
Proof.
  intros Hn Hp. induction ns as [| m ns IH]; simpl in *.
  - rewrite String.eqb_refl. simpl. now rewrite Hp.
  - destruct (p m) eqn:Em; [discriminate |].
    destruct (String.eqb (id m) (id node)) eqn:E; simpl.
    + rewrite String.eqb_refl. simpl. now rewrite Hp.
    + rewrite E. simpl. rewrite Em. now apply IH.
Qed.

Lemma length_update f j ns : length (update j f ns) = length ns.
Proof.
  induction ns as [| m ns IH]; simpl; [reflexivity |].
  destruct (String.eqb (id m) j); simpl; now rewrite ?IH.
Qed.

Lemma length_store node ns : length (store node ns) <= S (length ns).
Proof.
  induction ns as [| m ns IH]; simpl; [lia |].
  destruct (String.eqb (id m) (id node)); simpl; lia.
Qed.

(** X6. [findOrCreateSourceNode(table)] always returns; the id it returns
    is the id of a source node of the graph for that table; a second call
    for the same table returns the same id and changes nothing; and the
    first call adds at most one node. *)
Theorem findOrCreateSourceNode_idempotent (table_ : string) (g : ComputeGraph) :
  exists i g1,
    findOrCreateSourceNode table_ g = Ok (i, g1) /\
    findOrCreateSourceNode table_ g1 = Ok (i, g1) /\
    (exists n, In n (nodes g1) /\ id n = i /\ type n = T_source
               /\ table n = Some table_) /\
    length (nodes g1) <= S (length (nodes g)).
Proof.
  unfold findOrCreateSourceNode, bind, getNodes, ret.
  set (p := fun node => NodeType_eqb (type node) T_source
                        && option_string_eqb (table node) (Some table_)).
  assert (Hp : forall n, p n = true -> type n = T_source /\ table n = Some table_).
  { intros n H. unfold p in H. apply andb_true_iff in H. destruct H as [Ht Hs]. split.
    - destruct (type n); try discriminate; reflexivity.
    - unfold option_string_eqb in Hs. destruct (table n) as [s |]; [| discriminate].
      apply String.eqb_eq in Hs. now subst. }
  destruct (find p (nodes g)) as [existingNode |] eqn:E.
  - exists (id existingNode), g. split; [reflexivity |]. rewrite E.
    split; [reflexivity |]. split; [| lia].
    exists existingNode. apply find_some in E. destruct E as [Hin Hpe].
    destruct (Hp _ Hpe). auto.
  - unfold getConfig, generateNodeID, addNode. cbn [nodes config with_nodes].
    eexists. eexists. split; [reflexivity |]. cbn [nodes with_nodes].
    unfold addNode_nodes. cbn [inputs fold_left id].
    match goal with
    | |- context [store ?nd (nodes g)] => set (node := nd)
    end.
    assert (Hf : find p (update (id node) (set_isTerminal true) (store node (nodes g)))
                 = Some (set_isTerminal true node)).
    { apply find_add_source; [assumption |]. unfold p. cbn.
      now rewrite String.eqb_refl. }
    change (JS.replaceFirst_char "-" "_" (NodeType_name T_source) ++ "_"
            ++ JS.String_nat (nodeTypesCounter g T_source + 1)) with (id node).
    rewrite Hf. split; [reflexivity |]. split.
    + exists (set_isTerminal true node). apply find_some in Hf.
      destruct Hf as [Hin _]. repeat split; assumption.
    + rewrite length_update. apply length_store.
Qed.

(** * [inlineParameters]: what is left of the parameters *)

(** X7. On a table keyed by the ids of its nodes, [inlineParameters]
    returns; afterwards no expression node is marked [isParameter]; every
    node that was not so marked is still in the graph, with its type and
    with no input it did not have; and no node is added. *)
Theorem inlineParameters_removes_parameters (g : ComputeGraph) :
  well_keyed (nodes g) ->
  exists g',
    inlineParameters g = Ok (tt, g') /\
    (forall k n', lookup k (nodes g') = Some n' -> type n' = T_expression ->
                  md_flag isParameter n' = false) /\
    (forall k n, lookup k (nodes g) = Some n -> md_flag isParameter n = false ->
                 exists n', lookup k (nodes g') = Some n' /\ type n' = type n
                            /\ incl (inputs n') (inputs n)) /\
    (forall k, In k (keys (nodes g')) -> In k (keys (nodes g))).
Proof.
  intros Hwf.
  destruct (inline_loop (ids_of_type T_expression (nodes g))
                        (NoDup_ids_of_type T_expression (nodes g) Hwf) g)
    as (g' & Hrun & R & K & T).
  { intros i Hi. unfold ids_of_type in Hi. apply in_map_iff in Hi.
    destruct Hi as (n & <- & Hn). apply filter_In in Hn. unfold keys. apply in_map. tauto. }
  exists g'. split; [| split; [| split]].
  - unfold inlineParameters, bind, getNodes. exact Hrun.
  - intros k n' Hn' Ht.
    destruct (R k n' Hn') as (n & Hn & (_ & _ & Hty & Hflag & _)).
    destruct (md_flag isParameter n') eqn:Ef; [| reflexivity]. exfalso.
    apply (T k n); [| assumption | congruence |].
    + unfold ids_of_type. apply in_map_iff. exists n.
      split; [now apply lookup_id in Hn |].
      apply filter_In. split; [now apply lookup_In in Hn |].
      rewrite <- Hty, Ht. reflexivity.
    + apply has_In. unfold has. now rewrite Hn'.
  - intros k n Hn Hf. destruct (K k n Hn Hf) as (n' & Hn' & (_ & Hincl & Hty & _)).
    exists n'. auto.
  - intros k Hk. now apply (refines_key (nodes g) (nodes g')).
Qed.

Lemma inlineParameters_removes_parameters_witness :
  exists g',
    inlineParameters math_constant_graph = Ok (tt, g') /\
    (forall k n', lookup k (nodes g') = Some n' -> type n' = T_expression ->
                  md_flag isParameter n' = false) /\
    (forall k n, lookup k (nodes math_constant_graph) = Some n ->
                 md_flag isParameter n = false ->
                 exists n', lookup k (nodes g') = Some n' /\ type n' = type n
                            /\ incl (inputs n') (inputs n)) /\
    (forall k, In k (keys (nodes g')) -> In k (keys (nodes math_constant_graph))).
Proof.
  apply inlineParameters_removes_parameters.
  apply distinct_well_keyed. vm_compute. reflexivity.
Defined.

(** * The emitter: the main SELECT *)




(** * The emitter: composite filters with [and] and [or] *)

(** X9. A composite filter whose operator is not [not]: the children
    without text are skipped; if none has a text the filter has none;
    otherwise the text is the texts of the others, in order, joined by the
    operator in upper case and put between parentheses, also when one child
    only is left; the filter touches a window when one of those children
    does. *)
Theorem translateFilter_and_or
        (DEFAULT_CONFIG : QueryBuilderConfig) (randomSuffix : NodeID -> string)
        (fuel : nat) (f : ComputeNode) (ctx : list ComputeNode)
        (ignoreIds winAliases : list string) (rs : list (string * bool)) (o : string) :
  type f = T_composite_filter ->
  operator f = Some o -> o <> "not" ->
  childResults DEFAULT_CONFIG randomSuffix fuel ctx ignoreIds winAliases
               (filter (fun i => negb (JS.includes i ignoreIds)) (inputs f)) = Ok rs ->
  translateFilter DEFAULT_CONFIG randomSuffix (S fuel) f ctx ignoreIds winAliases
  = Ok (match nonEmptyResults rs with
        | [] => ""
        | parts => "(" ++ JS.join (" " ++ JS.toUpperCase o ++ " ") (map fst parts) ++ ")"
        end,
        existsb snd (nonEmptyResults rs)).
Proof.
  intros Ht Ho Hn Hc. cbn [translateFilter]. rewrite Ht. cbn [NodeType_eqb].
  rewrite children_loop, Hc, Ho. cbn [fst snd app orb].
  destruct (nonEmptyResults rs) as [| [c1 w1] rest]; [reflexivity |].
  cbn [map fst option_string_eqb].
  apply String.eqb_neq in Hn. rewrite Hn. reflexivity.
Qed.

Lemma translateFilter_and_or_witness :
  translateFilter market_config no_random 2 or_two_children_filter
                  (ctx_nodes (marketContext or_two_children_query)) [] []
  = Ok (match nonEmptyResults [("col_???? = {param_1: String}", false);
                               ("col_???? = {param_2: String}", false)] with
        | [] => ""
        | parts => "(" ++ JS.join (" " ++ JS.toUpperCase "or" ++ " ") (map fst parts) ++ ")"
        end,
        existsb snd (nonEmptyResults [("col_???? = {param_1: String}", false);
                                      ("col_???? = {param_2: String}", false)])).
Proof.
  apply (translateFilter_and_or market_config no_random 1 or_two_children_filter
           (ctx_nodes (marketContext or_two_children_query)) [] []
           [("col_???? = {param_1: String}", false);
            ("col_???? = {param_2: String}", false)] "or").
  - reflexivity.
  - reflexivity.
  - discriminate.
  - vm_compute. reflexivity.
Defined.

Example or_two_children_text :
  translateFilter market_config no_random 2 or_two_children_filter
                  (ctx_nodes (marketContext or_two_children_query)) [] []
  = Ok ("(col_???? = {param_1: String} OR col_???? = {param_2: String})", false).
Proof. vm_compute. reflexivity. Qed.

(** * The emitter: the largest time range *)

Lemma largest_loop (l : list TimeRange) :
  forall (best : option TimeRange) (d : Z) res d',
    fold_left (fun acc range =>
                 if (snd acc <? rangeDuration10 range)%Z
                 then (Some range, rangeDuration10 range)
                 else acc) l (best, d) = (res, d') ->
    (res = best /\ d' = d /\ forall r, In r l -> (rangeDuration10 r <= d)%Z)
    \/ (exists l1 r l2,
          l = (l1 ++ r :: l2)%list /\ res = Some r /\ d' = rangeDuration10 r /\
          (d < rangeDuration10 r)%Z /\
          (forall r', In r' l1 -> (rangeDuration10 r' < rangeDuration10 r)%Z) /\
          (forall r', In r' l2 -> (rangeDuration10 r' <= rangeDuration10 r)%Z)).
Proof.
  induction l as [| x l IH]; intros best d res d' H; simpl in H.
  - inversion H; subst. left. repeat split. intros r [].
  - destruct (Z.ltb_spec d (rangeDuration10 x)) as [Hlt | Hge].
    + destruct (IH _ _ _ _ H) as [(-> & -> & Hall) | (l1 & r & l2 & -> & -> & -> & Hd & H1 & H2)].
      * right. exists [], x, l. repeat split; auto. intros r' [].
      * right. exists (x :: l1), r, l2. repeat split; auto; try lia.
        intros r' [<- | Hr']; [lia | now apply H1].
    + destruct (IH _ _ _ _ H) as [(-> & -> & Hall) | (l1 & r & l2 & -> & -> & -> & Hd & H1 & H2)].
      * left. repeat split. intros r [<- | Hr]; [lia | now apply Hall].
      * right. exists (x :: l1), r, l2. repeat split; auto.
        intros r' [<- | Hr']; [lia | now apply H1].
Qed.

(** X10. [chooseLargestTimeRange] gives no range exactly when no range of
    the list has a positive duration (an absolute range that ends where it
    begins or before, a relative range of no duration); otherwise it gives
    the first range of the list whose duration is the largest. *)
Theorem chooseLargestTimeRange_spec (timeRanges : list TimeRange) :
  match chooseLargestTimeRange timeRanges with
  | None => forall r, In r timeRanges -> (rangeDuration10 r <= 0)%Z
  | Some r =>
      (0 < rangeDuration10 r)%Z /\
      exists l1 l2,
        timeRanges = (l1 ++ r :: l2)%list /\
        (forall r', In r' l1 -> (rangeDuration10 r' < rangeDuration10 r)%Z) /\
        (forall r', In r' l2 -> (rangeDuration10 r' <= rangeDuration10 r)%Z)
  end.
Proof.
  unfold chooseLargestTimeRange.
  destruct (fold_left _ timeRanges (None, 0%Z)) as [res d'] eqn:E.
  destruct (largest_loop timeRanges None 0%Z res d' E)
    as [(-> & -> & Hall) | (l1 & r & l2 & -> & -> & -> & Hd & H1 & H2)]; cbn [fst].
  - assumption.
  - split; [assumption |]. exists l1, l2. auto.
Qed.

(** * [areExpressionsEqual] and [areFiltersEqual] *)

Lemma option_string_eqb_sym a b : option_string_eqb a b = option_string_eqb b a.
Proof. destruct a, b; simpl; auto using String.eqb_sym. Qed.

Lemma Value_strict_eqb_sym a b : Value_strict_eqb a b = Value_strict_eqb b a.
Proof.
  destruct a as [s | n | b1 | l], b as [s' | n' | b2 | l']; simpl;
    auto using String.eqb_sym, Z.eqb_sym.
  now destruct b1, b2.
Qed.

Lemma Expression_Filter_induction (P : Expression -> Prop) (Q : Filter -> Prop) :
  (forall v a, P (Constant v a)) ->
  (forall m f a, (forall x, f = Some x -> Q x) -> P (Metric m f a)) ->
  (forall o ops a, Forall P ops -> P (Math o ops a)) ->
  (forall t g tr f a, P t -> (forall x, f = Some x -> Q x) -> P (Aggregate t g tr f a)) ->
  (forall t o v, P t -> P v -> Q (Simple t o v)) ->
  (forall o fs, Forall Q fs -> Q (Composite o fs)) ->
  (forall e, P e) /\ (forall f, Q f).
Proof.
  intros H1 H2 H3 H4 H5 H6. split.
  - now apply (@Expression_induction P Q).
  - now apply (@Filter_induction P Q).
Qed.

(** X11. [areExpressionsEqual] and [areFiltersEqual] do not depend on the
    order of their two arguments. *)
Theorem areExpressionsEqual_symmetric :
  (forall e1 e2, areExpressionsEqual e1 e2 = areExpressionsEqual e2 e1)
  /\ (forall f1 f2, areFiltersEqual f1 f2 = areFiltersEqual f2 f1).
Proof.
  apply Expression_Filter_induction.
  - intros v a [v2 a2 | | |]; simpl; try reflexivity.
    now rewrite option_string_eqb_sym, Value_strict_eqb_sym.
  - intros m f a _ [| m2 f2 a2 | |]; simpl; try reflexivity.
    now rewrite option_string_eqb_sym, String.eqb_sym.
  - intros o ops a Hops [| | o2 ops2 a2 |]; simpl; try reflexivity.
    rewrite option_string_eqb_sym, (String.eqb_sym o), (Nat.eqb_sym (length ops)).
    f_equal. clear -Hops. revert ops2.
    induction Hops as [| x l Hx Hl IH]; intros [| y r]; simpl; try reflexivity.
    now rewrite Hx, IH.
  - intros t g tr f a Ht Hf [| | | t2 g2 tr2 f2 a2]; simpl; try reflexivity.
    rewrite option_string_eqb_sym, (String.eqb_sym g), Ht.
    f_equal; [f_equal; f_equal |].
    + destruct tr as [r1 |], tr2 as [r2 |]; try reflexivity. apply String.eqb_sym.
    + destruct f as [x |], f2 as [y |]; try reflexivity. now apply Hf.
  - intros t o v Ht Hv [t2 o2 v2 |]; simpl; try reflexivity.
    now rewrite Ht, Hv, String.eqb_sym.
  - intros o fs Hfs [| o2 fs2]; simpl; try reflexivity.
    rewrite (String.eqb_sym o), (Nat.eqb_sym (length fs)).
    f_equal. clear -Hfs. revert fs2.
    induction Hfs as [| x l Hx Hl IH]; intros [| y r]; simpl; try reflexivity.
    now rewrite Hx, IH.
Qed.

Lemma TimeRange_type_erase r : TimeRange_type (eraseRange r) = TimeRange_type r.
Proof. now destruct r. Qed.

(** X12. [areExpressionsEqual] and [areFiltersEqual] look at the kind of a
    time range only, not at its bounds, its duration or its unit, and they
    do not look at the filter of a metric: the answer is the same once all
    of these are wiped out of both arguments, at any depth. *)
Theorem areExpressionsEqual_blind_to_bounds :
  (forall e1 e2,
     areExpressionsEqual e1 e2 = areExpressionsEqual (eraseBounds e1) (eraseBounds e2))
  /\ (forall f1 f2,
        areFiltersEqual f1 f2
        = areFiltersEqual (eraseFilterBounds f1) (eraseFilterBounds f2)).
Proof.
  apply Expression_Filter_induction.
  - intros v a [v2 a2 | | |]; reflexivity.
  - intros m f a _ [| m2 f2 a2 | |]; reflexivity.
  - intros o ops a Hops [| | o2 ops2 a2 |]; simpl; try reflexivity.
    rewrite !length_map. f_equal. clear -Hops. revert ops2.
    induction Hops as [| x l Hx Hl IH]; intros [| y r]; simpl; try reflexivity.
    now rewrite Hx, IH.
  - intros t g tr f a Ht Hf [| | | t2 g2 tr2 f2 a2]; simpl; try reflexivity.
    rewrite <- Ht. f_equal; [f_equal; f_equal |].
    + destruct tr as [r1 |], tr2 as [r2 |]; simpl; try reflexivity.
      now rewrite !TimeRange_type_erase.
    + destruct f as [x |], f2 as [y |]; simpl; try reflexivity. now apply Hf.
  - intros t o v Ht Hv [t2 o2 v2 |]; simpl; try reflexivity.
    now rewrite <- Ht, <- Hv.
  - intros o fs Hfs [| o2 fs2]; simpl; try reflexivity.
    rewrite !length_map. f_equal. clear -Hfs. revert fs2.
    induction Hfs as [| x l Hx Hl IH]; intros [| y r]; simpl; try reflexivity.
    now rewrite Hx, IH.
Qed.

(** Two averages of the same metric, one over 30 days and one over 60
    days, are equal for [areExpressionsEqual]. *)
Example areExpressionsEqual_30_60 :
  areExpressionsEqual
    (Aggregate (Metric "close" None None) "avg" (Some (Relative 30 day None)) None None)
    (Aggregate (Metric "close" None None) "avg" (Some (Relative 60 day None)) None None)
  = true.
Proof. reflexivity. Qed.

(** * [truncateForLabel] *)

Lemma length_substring_le n m s : String.length (String.substring n m s) <= m.
Proof.
  revert n m. induction s as [| c s IH]; intros n m.
  - destruct n, m; simpl; lia.
  - destruct n as [| n]; destruct m as [| m]; simpl; try lia.
    + specialize (IH 0 m). lia.
    + apply IH.
    + apply IH.
Qed.

Lemma length_substring_0 m s :
  m <= String.length s -> String.length (String.substring 0 m s) = m.
Proof.
  revert m. induction s as [| c s IH]; intros m H; simpl in *.
  - destruct m; [reflexivity | lia].
  - destruct m as [| m]; [reflexivity |]. simpl. rewrite IH; [reflexivity | lia].
Qed.

Lemma length_append s t : String.length (s ++ t) = String.length s + String.length t.
Proof. induction s as [| c s IH]; simpl; [reflexivity | now rewrite IH]. Qed.

(** X13. [truncateForLabel(value, maxLength)] with [maxLength] at least 3:
    a value of at most [maxLength] characters is returned as it is; a
    longer one is cut to its first [maxLength - 3] characters followed by
    three dots, so that the result has [maxLength] characters. *)
Theorem truncateForLabel_length (value : string) (maxLength : Z) :
  (3 <= maxLength)%Z ->
  (Z.of_nat (String.length (truncateForLabel value maxLength)) <= maxLength)%Z /\
  ((Z.of_nat (String.length value) <= maxLength)%Z ->
   truncateForLabel value maxLength = value) /\
  ((maxLength < Z.of_nat (String.length value))%Z ->
   truncateForLabel value maxLength
   = String.substring 0 (Z.to_nat (maxLength - 3)) value ++ "..."
   /\ Z.of_nat (String.length (truncateForLabel value maxLength)) = maxLength).
Proof.
  intros H3. unfold truncateForLabel, slice0Z.
  destruct (Z.ltb_spec maxLength (Z.of_nat (String.length value))) as [Hlt | Hge].
  - destruct (Z.ltb_spec (maxLength - 3) 0) as [Hneg | _]; [lia |].
    assert (Hl : String.length (String.substring 0 (Z.to_nat (maxLength - 3)) value
                                ++ "...")
                 = Z.to_nat (maxLength - 3) + 3).
    { rewrite length_append, length_substring_0; [reflexivity | lia]. }
    rewrite Hl. repeat split; try lia.
  - repeat split; try lia.
Qed.

Lemma truncateForLabel_length_witness :
  (Z.of_nat (String.length
               (truncateForLabel "'a constant that is much longer than forty characters'"
                                 40)) <= 40)%Z /\
  ((Z.of_nat (String.length "'a constant that is much longer than forty characters'")
    <= 40)%Z ->
   truncateForLabel "'a constant that is much longer than forty characters'" 40
   = "'a constant that is much longer than forty characters'") /\
  ((40 < Z.of_nat (String.length
                     "'a constant that is much longer than forty characters'"))%Z ->
   truncateForLabel "'a constant that is much longer than forty characters'" 40
   = String.substring 0 (Z.to_nat (40 - 3))
                      "'a constant that is much longer than forty characters'" ++ "..."
   /\ Z.of_nat (String.length
                  (truncateForLabel
                     "'a constant that is much longer than forty characters'" 40))
      = 40%Z).
Proof. apply truncateForLabel_length. lia. Defined.

(** * What the methods keep: a calculus for [respects] *)

Section Respects.

Variable R : list ComputeNode -> list ComputeNode -> Prop.
Hypothesis R_refl : forall ns, R ns ns.
Hypothesis R_trans : forall a b c, R a b -> R b c -> R a c.

Lemma respects_ret {A} (a : A) : respects R (ret a).
Proof using R_refl R_trans. intros g x g' H. inversion H; subst. apply R_refl. Qed.

Lemma respects_throw {A} e : respects R (@throw A e).
Proof using R_refl R_trans. intros g x g' H. discriminate. Qed.

Lemma respects_bind {A B} (c : M A) (k : A -> M B) :
  respects R c -> (forall a, respects R (k a)) -> respects R (bind c k).
Proof using R_refl R_trans.
  intros Hc Hk g b g' H. unfold bind in H.
  destruct (c g) as [[a g1] |] eqn:E; [| discriminate].
  eapply R_trans; [eapply Hc; eassumption | eapply Hk; eassumption].
Qed.

Lemma respects_pure {A} (m : M A) :
  (forall g a g', m g = Ok (a, g') -> nodes g' = nodes g) -> respects R m.
Proof using R_refl R_trans. intros Hm g a g' H. rewrite (Hm g a g' H). apply R_refl. Qed.

Lemma respects_getNodes : respects R getNodes.
Proof using R_refl R_trans. apply respects_pure. intros g a g' H. now inversion H. Qed.

Lemma respects_getConfig : respects R getConfig.
Proof using R_refl R_trans. apply respects_pure. intros g a g' H. now inversion H. Qed.

Lemma respects_node_at i : respects R (node_at i).
Proof using R_refl R_trans. apply respects_pure. intros g a g' H. now inversion H. Qed.

Lemma respects_deref i : respects R (deref i).
Proof using R_refl R_trans. apply respects_pure. intros g a g' H. now inversion H. Qed.

Lemma respects_findDependentNodes i : respects R (findDependentNodes i).
Proof using R_refl R_trans. apply respects_pure. intros g a g' H. now inversion H. Qed.

Lemma respects_generateNodeID t : respects R (generateNodeID t).
Proof using R_refl R_trans. apply respects_pure. intros g a g' H. now inversion H. Qed.

Lemma respects_createParameterM v op : respects R (createParameterM v op).
Proof using R_refl R_trans.
  apply respects_pure. intros g a g' H. unfold createParameterM in H.
  destruct (createParameter JS.String_Z v op (parameters g)) as [[s ps] |];
    [| discriminate].
  now inversion H.
Qed.

Lemma respects_deref_ok i : respects R (deref_ok i).
Proof using R_refl R_trans.
  unfold deref_ok. apply respects_bind; [apply respects_deref |].
  intros [n |]; [apply respects_ret | apply respects_throw].
Qed.

Lemma respects_forEach {A} (body : A -> M unit) l :
  (forall x, respects R (body x)) -> respects R (forEach body l).
Proof using R_refl R_trans.
  intros Hb. induction l as [| x l IH]; cbn [forEach].
  - apply respects_ret.
  - apply respects_bind; [apply Hb | intros _; apply IH].
Qed.

Lemma respects_mapM {A B} (f : A -> M B) l :
  (forall x, respects R (f x)) -> respects R (mapM f l).
Proof using R_refl R_trans.
  intros Hf. induction l as [| x l IH]; cbn [mapM].
  - apply respects_ret.
  - apply respects_bind; [apply Hf | intros y].
    apply respects_bind; [apply IH | intros ys; apply respects_ret].
Qed.

Lemma respects_filterM {A} (p : A -> M bool) l :
  (forall x, respects R (p x)) -> respects R (filterM p l).
Proof using R_refl R_trans.
  intros Hp. induction l as [| x l IH]; cbn [filterM].
  - apply respects_ret.
  - apply respects_bind; [apply Hp | intros b].
    apply respects_bind; [apply IH | intros ys; apply respects_ret].
Qed.

Lemma respects_someM {A} (p : A -> M bool) l :
  (forall x, respects R (p x)) -> respects R (someM p l).
Proof using R_refl R_trans.
  intros Hp. induction l as [| x l IH]; cbn [someM].
  - apply respects_ret.
  - apply respects_bind; [apply Hp | intros [|]; [apply respects_ret | apply IH]].
Qed.

Lemma respects_foldM {A S} (body : A -> S -> M S) l :
  (forall x s, respects R (body x s)) -> forall s, respects R (foldM body l s).
Proof using R_refl R_trans.
  intros Hb. induction l as [| x l IH]; intros s; cbn [foldM].
  - apply respects_ret.
  - apply respects_bind; [apply Hb | intros s'; apply IH].
Qed.

End Respects.

(** * The passes that only rewrite and remove *)

Lemma no_more_refl ns : no_more ns ns.
Proof. unfold no_more. lia. Qed.

Lemma no_more_trans a b c : no_more a b -> no_more b c -> no_more a c.
Proof. unfold no_more. lia. Qed.

Lemma no_more_mutate i f : respects no_more (mutate i f).
Proof.
  intros g a g' H. unfold mutate in H.
  destruct (has i (nodes g)); inversion H; subst; cbn [nodes with_nodes]; unfold no_more.
  - now rewrite length_update.
  - lia.
Qed.

Lemma length_fold_adjust l ns : length (fold_left adjust_step l ns) = length ns.
Proof.
  revert ns. induction l as [| b l IH]; intros ns; simpl; [reflexivity |].
  rewrite IH. unfold adjust_step. destruct (lookup b ns); [apply length_update | reflexivity].
Qed.

Lemma no_more_removeNode i : respects no_more (removeNode i).
Proof.
  intros g a g' H. unfold removeNode in H.
  destruct (lookup i (nodes g)) as [node |]; inversion H; subst; cbn [nodes];
    unfold no_more; [| lia].
  unfold delete. etransitivity; [apply filter_length_le |].
  unfold removeNode_adjust. now rewrite length_fold_adjust.
Qed.

Lemma no_more_replaceNodeID o n a : respects no_more (replaceNodeID o n a).
Proof.
  intros g x g' H. inversion H; subst. cbn [nodes with_nodes]. unfold no_more.
  now rewrite length_map.
Qed.

Ltac no_more_step :=
  first
    [ apply (respects_ret no_more no_more_refl no_more_trans)
    | apply (respects_throw no_more no_more_refl no_more_trans)
    | apply (respects_getNodes no_more no_more_refl no_more_trans)
    | apply (respects_getConfig no_more no_more_refl no_more_trans)
    | apply (respects_node_at no_more no_more_refl no_more_trans)
    | apply (respects_deref no_more no_more_refl no_more_trans)
    | apply (respects_deref_ok no_more no_more_refl no_more_trans)
    | apply (respects_findDependentNodes no_more no_more_refl no_more_trans)
    | apply no_more_mutate
    | apply no_more_removeNode
    | apply no_more_replaceNodeID
    | apply (respects_forEach no_more no_more_refl no_more_trans); intros
    | apply (respects_mapM no_more no_more_refl no_more_trans); intros
    | apply (respects_filterM no_more no_more_refl no_more_trans); intros
    | apply (respects_foldM no_more no_more_refl no_more_trans); intros
    | apply (respects_bind no_more no_more_refl no_more_trans); [| intros]
    | match goal with
      | |- respects _ (match ?x with _ => _ end) => destruct x
      | |- respects _ (if ?b then _ else _) => destruct b
      end ].

Ltac no_more_auto := repeat no_more_step.

Lemma no_more_sortInputs i : respects no_more (sortInputs i).
Proof. unfold sortInputs. no_more_auto. Qed.

Lemma no_more_rewireDependents o n : respects no_more (rewireDependents o n).
Proof. unfold rewireDependents. no_more_auto. Qed.

Lemma no_more_removedDuplicateProjections : respects no_more removedDuplicateProjections.
Proof.
  unfold removedDuplicateProjections, dedupeProjection.
  no_more_auto; try apply no_more_sortInputs; no_more_auto;
    try apply no_more_sortInputs; no_more_auto.
Qed.

Lemma no_more_inlineParameters : respects no_more inlineParameters.
Proof. unfold inlineParameters, inlineParameter. no_more_auto. Qed.

Lemma no_more_removeUselessCompositeFilters :
  respects no_more removeUselessCompositeFilters.
Proof.
  unfold removeUselessCompositeFilters, removeUselessCompositeFilter.
  no_more_auto; try apply no_more_rewireDependents; no_more_auto.
Qed.

Lemma no_more_removeDuplicateProjectionExpressions :
  respects no_more removeDuplicateProjectionExpressions.
Proof.
  unfold removeDuplicateProjectionExpressions, dedupeExpression. no_more_auto.
Qed.

Lemma no_more_removeDuplicateFilters : respects no_more removeDuplicateFilters.
Proof. unfold removeDuplicateFilters, dedupeFilter. no_more_auto. Qed.

(** X14. The passes [removedDuplicateProjections], [inlineParameters],
    [removeUselessCompositeFilters], [removeDuplicateProjectionExpressions]
    and [removeDuplicateFilters] never add a node: when one of them
    returns, the graph has at most as many nodes as before. *)
Theorem removing_passes_add_no_node (pass : M unit) (g g' : ComputeGraph) :
  In pass removingPasses ->
  pass g = Ok (tt, g') ->
  length (nodes g') <= length (nodes g).
Proof.
  intros Hin H.
  assert (Hr : respects no_more pass).
  { unfold removingPasses in Hin. simpl in Hin.
    destruct Hin as [<- | [<- | [<- | [<- | [<- | []]]]]].
    - apply no_more_removedDuplicateProjections.
    - apply no_more_inlineParameters.
    - apply no_more_removeUselessCompositeFilters.
    - apply no_more_removeDuplicateProjectionExpressions.
    - apply no_more_removeDuplicateFilters. }
  exact (Hr g tt g' H).
Qed.

Lemma removing_passes_add_no_node_witness :
  length (nodes (match inlineParameters math_constant_graph with
                 | Ok (_, g') => g'
                 | Err _ => math_constant_graph
                 end))
  <= length (nodes math_constant_graph).
Proof.
  apply (removing_passes_add_no_node inlineParameters math_constant_graph).
  - simpl. tauto.
  - vm_compute. reflexivity.
Defined.

(** * The graph the constructor builds *)

(** ** Ids *)

Lemma nodeIdOf_inj t k t' k' : nodeIdOf t k = nodeIdOf t' k' -> t = t' /\ k = k'.
Proof.
  unfold nodeIdOf. intros H.
  destruct t, t'; cbn in H; try congruence;
    (split; [reflexivity |]);
    repeat (injection H as H); now apply String_nat_inj.
Qed.

Lemma generated_fresh g t :
  ids_generated g -> ~ In (nodeIdOf t (nodeTypesCounter g t + 1)) (keys (nodes g)).
Proof.
  intros Hg Hin. unfold keys in Hin. apply in_map_iff in Hin.
  destruct Hin as (n & Hid & Hn). destruct (Hg n Hn) as (t' & k & E & Hk).
  rewrite E in Hid. apply nodeIdOf_inj in Hid. destruct Hid as [-> ->]. lia.
Qed.

(** ** Shapes *)

Lemma shape_In ns n : In n ns -> In (shape n) (map shape ns).
Proof. apply in_map. Qed.

Lemma In_shape ns s : In s (map shape ns) -> exists n, In n ns /\ shape n = s.
Proof. intros H. apply in_map_iff in H. destruct H as (n & E & Hn). eauto. Qed.

Lemma keys_shapes ns : keys ns = map (fun s => fst (fst s)) (map shape ns).
Proof. unfold keys. rewrite map_map. reflexivity. Qed.

Lemma shapes_update f i ns :
  (forall n, shape (f n) = shape n) -> map shape (update i f ns) = map shape ns.
Proof.
  intros Hf. induction ns as [| m ns IH]; simpl; [reflexivity |].
  destruct (String.eqb (id m) i); simpl; [now rewrite Hf | now rewrite IH].
Qed.

Lemma shapes_fold_update f (l : list NodeID) ns :
  (forall n, shape (f n) = shape n) ->
  map shape (fold_left (fun acc j => update j f acc) l ns) = map shape ns.
Proof.
  intros Hf. revert ns. induction l as [| j l IH]; intros ns; simpl; [reflexivity |].
  now rewrite IH, shapes_update.
Qed.

Lemma store_fresh node ns : ~ In (id node) (keys ns) -> store node ns = (ns ++ [node])%list.
Proof.
  unfold keys. induction ns as [| m ns IH]; simpl; intros H; [reflexivity |].
  destruct (String.eqb_spec (id m) (id node)) as [E | E]; [tauto |].
  rewrite IH; [reflexivity | tauto].
Qed.

Lemma shapes_addNode node ns :
  ~ In (id node) (keys ns) ->
  map shape (addNode_nodes node ns) = (map shape ns ++ [shape node])%list.
Proof.
  intros Hf. unfold addNode_nodes.
  rewrite shapes_update by reflexivity.
  rewrite shapes_fold_update by reflexivity.
  rewrite (store_fresh node ns Hf), map_app. reflexivity.
Qed.

(** The invariants read the shapes only. *)
Lemma ranked_shapes rank ns ns' :
  map shape ns' = map shape ns -> ranked rank ns -> ranked rank ns'.
Proof.
  intros E H n Hn i Hi. apply shape_In in Hn. rewrite E in Hn.
  apply In_shape in Hn. destruct Hn as (n0 & Hn0 & Es).
  unfold shape in Es. injection Es as Eid Ety Ein.
  rewrite <- Ein in Hi. destruct (H n0 Hn0 i Hi) as [Hk Hr].
  split; [rewrite keys_shapes, E, <- keys_shapes; assumption | congruence].
Qed.

Lemma leaves_shapes ns ns' :
  map shape ns' = map shape ns -> sources_are_leaves ns -> sources_are_leaves ns'.
Proof.
  intros E H n Hn Ht. apply shape_In in Hn. rewrite E in Hn.
  apply In_shape in Hn. destruct Hn as (n0 & Hn0 & Es).
  unfold shape in Es. injection Es as Eid Ety Ein.
  rewrite <- Ein. apply H; congruence.
Qed.

Lemma built_shapes g g' :
  map shape (nodes g') = map shape (nodes g) ->
  (forall t, nodeTypesCounter g t <= nodeTypesCounter g' t) ->
  built g -> built g'.
Proof.
  intros E Hc [Hk Hi [rank Hr] Hs]. constructor.
  - unfold well_keyed. now rewrite keys_shapes, E, <- keys_shapes.
  - intros n Hn. apply shape_In in Hn. rewrite E in Hn.
    apply In_shape in Hn. destruct Hn as (n0 & Hn0 & Es).
    unfold shape in Es. injection Es as Eid Ety Ein.
    destruct (Hi n0 Hn0) as (t & k & Ek & Hle). exists t, k.
    split; [congruence |]. specialize (Hc t). lia.
  - exists rank. now apply (ranked_shapes rank (nodes g)).
  - now apply (leaves_shapes (nodes g)).
Qed.

(** ** A fresh id and the node filed under it *)

Lemma built_empty cfg : built (emptyGraph cfg).
Proof.
  constructor.
  - constructor.
  - intros n [].
  - exists (fun _ => 0). intros n [].
  - intros n [].
Qed.

Lemma gen_spec g t i g1 :
  built g -> generateNodeID t g = Ok (i, g1) ->
  nodes g1 = nodes g /\ built g1 /\ ~ In i (keys (nodes g1))
  /\ exists t' k, i = nodeIdOf t' k /\ k <= nodeTypesCounter g1 t'.
Proof.
  intros Hb H. unfold generateNodeID in H. inversion H; subst; clear H. cbn [nodes].
  split; [reflexivity |].
  assert (Hc : forall t', nodeTypesCounter g t'
                          <= (if NodeType_eqb t' t then nodeTypesCounter g t + 1
                              else nodeTypesCounter g t')).
  { intros t'. destruct (NodeType_eqb t' t) eqn:E; [| lia].
    destruct t', t; try discriminate; lia. }
  split; [| split].
  - apply (built_shapes g); [reflexivity | exact Hc | assumption].
  - apply (generated_fresh g t). apply Hb.
  - exists t, (nodeTypesCounter g t + 1). split; [reflexivity |].
    cbn [nodeTypesCounter]. rewrite NodeType_eqb_refl. lia.
Qed.

Lemma list_max_In (f : NodeID -> nat) l x : In x l -> f x <= list_max (map f l).
Proof.
  intros H. assert (Hf : Forall (fun k => k <= list_max (map f l)) (map f l)).
  { apply list_max_le. lia. }
  rewrite Forall_forall in Hf. apply Hf. now apply in_map.
Qed.

Lemma add_spec g node a g2 :
  built g -> ~ In (id node) (keys (nodes g)) ->
  (exists t k, id node = nodeIdOf t k /\ k <= nodeTypesCounter g t) ->
  incl (inputs node) (keys (nodes g)) ->
  (type node = T_source -> inputs node = []) ->
  addNode node g = Ok (a, g2) ->
  a = id node /\ built g2
  /\ keys (nodes g2) = (keys (nodes g) ++ [id node])%list
  /\ nodeTypesCounter g2 = nodeTypesCounter g
  /\ map shape (nodes g2) = (map shape (nodes g) ++ [shape node])%list.
Proof.
  intros [Hk Hi [rank Hr] Hs] Hf (t & k & Ek & Hle) Hin Hsrc H.
  unfold addNode in H. inversion H; subst; clear H. cbn [nodes with_nodes nodeTypesCounter].
  pose proof (shapes_addNode node (nodes g) Hf) as E.
  assert (Ekeys : keys (addNode_nodes node (nodes g)) = (keys (nodes g) ++ [id node])%list).
  { rewrite keys_shapes, E, map_app, <- keys_shapes. reflexivity. }
  split; [reflexivity |]. split; [| split; [assumption | split; [reflexivity | assumption]]].
  constructor; unfold well_keyed, ids_generated, sources_are_leaves;
    cbn [nodes with_nodes nodeTypesCounter].
  - rewrite Ekeys. apply NoDup_app; [assumption | | ].
    + constructor; [intros [] | constructor].
    + intros x Hx [<- | []]. contradiction.
  - intros n Hn. apply shape_In in Hn. rewrite E in Hn. apply in_app_or in Hn.
    destruct Hn as [Hn | [Hn | []]].
    + apply In_shape in Hn. destruct Hn as (n0 & Hn0 & Es).
      unfold shape in Es. injection Es as Eid Ety Ein.
      destruct (Hi n0 Hn0) as (t0 & k0 & E0 & H0). exists t0, k0. split; [congruence | lia].
    + unfold shape in Hn. injection Hn as Eid Ety Ein. exists t, k. split; [congruence | lia].
  - exists (fun x => if String.eqb x (id node)
                     then S (list_max (map rank (inputs node))) else rank x).
    intros n Hn i Hi'. rewrite Ekeys.
    apply shape_In in Hn. rewrite E in Hn. apply in_app_or in Hn.
    destruct Hn as [Hn | [Hn | []]].
    + apply In_shape in Hn. destruct Hn as (n0 & Hn0 & Es).
      unfold shape in Es. injection Es as Eid Ety Ein.
      rewrite <- Ein in Hi'. destruct (Hr n0 Hn0 i Hi') as [Hik Hlt].
      split; [apply in_or_app; now left |].
      assert (Hn0k : In (id n0) (keys (nodes g))) by (unfold keys; now apply in_map).
      destruct (String.eqb_spec i (id node)) as [-> | _]; [contradiction |].
      rewrite <- Eid.
      destruct (String.eqb_spec (id n0) (id node)) as [E1 | _]; [| assumption].
      rewrite E1 in Hn0k. contradiction.
    + unfold shape in Hn. injection Hn as Eid Ety Ein.
      rewrite <- Ein in Hi'. pose proof (Hin i Hi') as Hik.
      split; [apply in_or_app; now left |].
      destruct (String.eqb_spec i (id node)) as [-> | _]; [contradiction |].
      rewrite <- Eid, String.eqb_refl.
      pose proof (list_max_In rank (inputs node) i Hi'). lia.
  - intros n Hn Ht. apply shape_In in Hn. rewrite E in Hn. apply in_app_or in Hn.
    destruct Hn as [Hn | [Hn | []]].
    + apply In_shape in Hn. destruct Hn as (n0 & Hn0 & Es).
      unfold shape in Es. injection Es as Eid Ety Ein.
      rewrite <- Ein. apply Hs; congruence.
    + unfold shape in Hn. injection Hn as Eid Ety Ein.
      rewrite <- Ein. apply Hsrc. congruence.
Qed.

(** ** The methods of the constructor *)

Lemma grows_refl g : built g -> grows_built g g.
Proof. intros H. split; [assumption | apply incl_refl]. Qed.

Lemma grows_trans g1 g2 g3 : grows_built g1 g2 -> grows_built g2 g3 -> grows_built g1 g3.
Proof. intros [_ H1] [Hb H2]. split; [assumption | eapply incl_tran; eauto]. Qed.

(** [generateNodeID] followed by [addNode] of a node with that id. *)
Lemma fresh_node_spec g t (mk : NodeID -> ComputeNode) a g' :
  built g ->
  (forall i, id (mk i) = i) ->
  (forall i, incl (inputs (mk i)) (keys (nodes g))) ->
  (forall i, type (mk i) = T_source -> inputs (mk i) = []) ->
  bind (generateNodeID t) (fun i => addNode (mk i)) g = Ok (a, g') ->
  grows_built g g' /\ In a (keys (nodes g')).
Proof.
  intros Hb Hid Hin Hsrc H. unfold bind in H.
  destruct (generateNodeID t g) as [[i g1] |] eqn:E; [| discriminate].
  destruct (gen_spec g t i g1 Hb E) as (En & Hb1 & Hf & Hgen).
  destruct (add_spec g1 (mk i) a g' Hb1) as (-> & Hb' & Ek & _); try assumption.
  - now rewrite Hid.
  - now rewrite Hid.
  - rewrite En. apply Hin.
  - apply Hsrc.
  - split; [split; [assumption |] |].
    + rewrite Ek, En. intros x Hx. apply in_or_app. now left.
    + rewrite Ek. apply in_or_app. right. now left.
Qed.

Lemma findOrCreateSourceNode_spec table_ g i g' :
  built g -> findOrCreateSourceNode table_ g = Ok (i, g') ->
  grows_built g g' /\ In i (keys (nodes g')).
Proof.
  intros Hb H. unfold findOrCreateSourceNode in H. unfold bind at 1 in H.
  cbn [getNodes] in H.
  destruct (find _ (nodes g)) as [existingNode |] eqn:E.
  - inversion H; subst. split; [now apply grows_refl |].
    apply find_some in E. unfold keys. apply in_map. tauto.
  - unfold bind at 1 in H. cbn [getConfig] in H.
    eapply (fresh_node_spec g T_source
              (fun i => {| id := i; type := T_source; inputs := []; isTerminal := None;
                           metadata := None; table := Some table_;
                           timeColumn := match Dict.get table_ (tables (config g)) with
                                         | Some t => TableConfig.timeColumn t
                                         | None => None
                                         end;
                           columns := None; expression := None; alias := None;
                           condition := None; operator := None; criteria := None;
                           limit := None; joinType := None; joinConditions := None |}));
      try eassumption; try reflexivity.
    intros j x [].
Qed.

Lemma createParameterM_spec v op g s g' :
  built g -> createParameterM v op g = Ok (s, g') -> grows_built g g'.
Proof.
  intros Hb H. unfold createParameterM in H.
  destruct (createParameter JS.String_Z v op (parameters g)) as [[s' ps] |];
    [| discriminate].
  inversion H; subst. split; [| apply incl_refl].
  apply (built_shapes g); [reflexivity | intros t; cbn; lia | assumption].
Qed.

(** One step of a method: the call in front of [H] is named and split. *)
Tactic Notation "bind_in" hyp(H) "as" ident(a) ident(g1) ident(E) :=
  unfold bind at 1 in H;
  match type of H with
  | match ?c ?g with _ => _ end = _ =>
      destruct (c g) as [[a g1] |] eqn:E; [| discriminate]
  end.

(** [generateNodeID] in front of [H], on a graph that is [built] by [Hb]. *)
Tactic Notation "gen_in" hyp(H) constr(Hb) "as" ident(i) ident(g1) ident(En)
       ident(Hb1) ident(Hf) ident(Hg) :=
  unfold bind at 1 in H;
  match type of H with
  | match generateNodeID ?t ?g with _ => _ end = _ =>
      let E := fresh "E" in
      destruct (generateNodeID t g) as [[i g1] |] eqn:E; [| discriminate];
      destruct (gen_spec g t i g1 Hb E) as (En & Hb1 & Hf & Hg); clear E
  end.

(** [addNode] of a node with a fresh id in front of [H]; the inputs of the
    node are left to be shown keys of the graph. *)
Tactic Notation "add_in" hyp(H) constr(Hb1) constr(Hf) constr(Hg) "as" ident(g2)
       ident(Hb2) ident(Ek) :=
  unfold bind at 1 in H;
  match type of H with
  | match addNode ?node ?g with _ => _ end = _ =>
      let a := fresh "a" in
      let E := fresh "E" in
      let Ea := fresh "Ea" in
      destruct (addNode node g) as [[a g2] |] eqn:E; [| discriminate];
      edestruct (add_spec g node a g2 Hb1 Hf Hg) as (Ea & Hb2 & Ek & _);
      [ | | exact E | cbn [id] in Ea; subst a; cbn [id] in Ek; clear E ]
  end.

Lemma processExpression_Constant_spec value alias_ b g r g' :
  built g -> processExpression (Constant value alias_) b g = Ok (r, g') ->
  grows_built g g' /\ In (fst r) (keys (nodes g')).
Proof.
  intros Hb H. cbn [processExpression] in H.
  bind_in H as s g0 E. pose proof (createParameterM_spec _ _ _ _ _ Hb E) as [Hb0 Hk0].
  gen_in H Hb0 as i g1 En Hb1 Hf Hg.
  add_in H Hb1 Hf Hg as g2 Hb2 Ek; [intros x [] | discriminate |].
  inversion H; subst. cbn [fst]. split; [split; [assumption |] |].
  - rewrite Ek, En. intros x Hx. apply in_or_app. left. now apply Hk0.
  - rewrite Ek. apply in_or_app. right. now left.
Qed.

Lemma uniq_acc_incl seen l : incl (JS.uniq_acc seen l) l.
Proof.
  revert seen. induction l as [| x l IH]; intros seen; simpl; [apply incl_refl |].
  destruct (JS.includes x seen).
  - apply incl_tl. apply IH.
  - intros y [<- | Hy]; [now left | right; now apply (IH (x :: seen))].
Qed.

Lemma uniq_incl l : incl (JS.uniq l) l.
Proof. apply uniq_acc_incl. Qed.

Lemma grows_keys g g' x : grows_built g g' -> In x (keys (nodes g)) -> In x (keys (nodes g')).
Proof. intros [_ H]. apply H. Qed.

Lemma process_spec :
  (forall e b g r g',
     built g -> processExpression e b g = Ok (r, g') ->
     grows_built g g' /\ In (fst r) (keys (nodes g')))
  /\ (forall f o g r g',
        built g -> (forall l, o = Some l -> incl l (keys (nodes g))) ->
        processFilter f o g = Ok (r, g') ->
        grows_built g g' /\ In (fst r) (keys (nodes g'))).
Proof.
  apply Expression_Filter_induction.
  - intros v a b g r g'. apply processExpression_Constant_spec.
  - intros m f a IHf b g r g' Hb H. cbn [processExpression] in H.
    unfold bind at 1 in H. cbn [getConfig] in H.
    destruct (Dict.get m (columnMappings (config g))) as [column |]; [| discriminate].
    bind_in H as sourceNodeId g0 E.
    destruct (findOrCreateSourceNode_spec _ _ _ _ Hb E) as [[Hb0 Hk0] Hs].
    gen_in H Hb0 as i g1 En Hb1 Hf Hg.
    add_in H Hb1 Hf Hg as g2 Hb2 Ek;
      [intros x [<- | []]; now rewrite En | discriminate |].
    assert (G2 : grows_built g g2).
    { split; [assumption |]. rewrite Ek, En. intros x Hx. apply in_or_app. left. auto. }
    assert (Hi : In i (keys (nodes g2))).
    { rewrite Ek. apply in_or_app. right. now left. }
    destruct f as [x |].
    + bind_in H as r0 g3 E3. inversion H; subst. cbn [fst].
      destruct (IHf x eq_refl (Some [i]) g2 r0 g' Hb2) as [G3 _]; [| assumption |].
      * intros l El. inversion El; subst. intros y [<- | []]. assumption.
      * split; [eapply grows_trans; eassumption | now apply (grows_keys g2)].
    + inversion H; subst. auto.
  - intros o ops a Hops b g r g' Hb H. cbn [processExpression] in H.
    bind_in H as rs g0 E.
    match type of E with
    | ?F ops g = _ =>
        assert (A : forall g rs g0, built g -> F ops g = Ok (rs, g0) ->
                                    grows_built g g0 /\ incl (map fst rs) (keys (nodes g0)))
    end.
    { clear -Hops. induction Hops as [| x l Hx Hl IH]; intros g rs g0 Hb E.
      - inversion E; subst. split; [now apply grows_refl | intros y []].
      - bind_in E as x1 g1 E1. bind_in E as xs g2 E2. inversion E; subst.
        destruct (Hx _ _ _ _ Hb E1) as [G1 Hx1].
        destruct (IH _ _ _ (proj1 G1) E2) as [G2 Hxs].
        split; [eapply grows_trans; eassumption |].
        intros y [<- | Hy]; [now apply (grows_keys g1) | now apply Hxs]. }
    destruct (A _ _ _ Hb E) as [[Hb0 Hk0] Hrs]. clear A.
    gen_in H Hb0 as i g1 En Hb1 Hf Hg.
    add_in H Hb1 Hf Hg as g2 Hb2 Ek; [now rewrite En | discriminate |].
    inversion H; subst. cbn [fst]. split; [split; [assumption |] |].
    + rewrite Ek, En. intros x Hx. apply in_or_app. left. auto.
    + rewrite Ek. apply in_or_app. right. now left.
  - intros t agg tr f a IHt IHf b g r g' Hb H. cbn [processExpression] in H.
    bind_in H as rt g0 E0. destruct (IHt _ _ _ _ Hb E0) as [G0 Ht].
    bind_in H as fs g1 E1.
    assert (A : grows_built g0 g1 /\ incl fs (keys (nodes g1))).
    { destruct f as [x |].
      - bind_in E1 as rf g2 E2. inversion E1; subst.
        destruct (IHf x eq_refl None g0 rf g1 (proj1 G0)) as [G1 Hf1];
          [discriminate | assumption |].
        split; [assumption | intros y [<- | []]; assumption].
      - inversion E1; subst. split; [apply grows_refl; apply G0 | intros y []]. }
    destruct A as [G1 Hfs].
    gen_in H (proj1 G1) as i g2 En Hb2 Hf Hg.
    destruct (generateAlias _) as [generated | e]; [| discriminate].
    add_in H Hb2 Hf Hg as g3 Hb3 Ek; [ | discriminate |].
    { rewrite En. intros y [<- | Hy]; [now apply (grows_keys g0) | now apply Hfs]. }
    inversion H; subst. cbn [fst]. split; [split; [assumption |] |].
    + rewrite Ek, En. intros x Hx. apply in_or_app. left.
      apply (grows_keys g0 g1 x G1). now apply (grows_keys g g0).
    + rewrite Ek. apply in_or_app. right. now left.
  - intros t op v IHt IHv o g r g' Hb Ho H. cbn [processFilter] in H.
    bind_in H as rt g0 E0. destruct (IHt _ _ _ _ Hb E0) as [G0 Ht].
    bind_in H as rv g1 E1. destruct (IHv _ _ _ _ (proj1 G0) E1) as [G1 Hv].
    unfold bind at 1 in H. cbn [node_at] in H.
    destruct (lookup (fst rt) (nodes g1)) as [targetNode |]; [| discriminate].
    gen_in H (proj1 G1) as i g2 En Hb2 Hf Hg.
    add_in H Hb2 Hf Hg as g3 Hb3 Ek; [ | discriminate |].
    { rewrite En. cbn [inputs set_condition mkNode].
      assert (Hbase : incl [fst rt; fst rv] (keys (nodes g1))).
      { intros y [<- | [<- | []]]; [now apply (grows_keys g0) | assumption]. }
      destruct o as [l |]; [| assumption].
      eapply incl_tran; [apply uniq_incl |]. apply incl_app; [assumption |].
      intros y Hy. apply (grows_keys g0 g1 y G1). apply (grows_keys g g0 y G0).
      now apply (Ho l eq_refl). }
    inversion H; subst. cbn [fst]. split; [split; [assumption |] |].
    + rewrite Ek, En. intros x Hx. apply in_or_app. left.
      apply (grows_keys g0 g1 x G1). now apply (grows_keys g g0).
    + rewrite Ek. apply in_or_app. right. now left.
  - intros op fs Hfs o g r g' Hb Ho H. cbn [processFilter] in H.
    bind_in H as rs g0 E.
    match type of E with
    | ?F fs g = _ =>
        assert (A : forall g rs g0, built g -> F fs g = Ok (rs, g0) ->
                                    grows_built g g0 /\ incl (map fst rs) (keys (nodes g0)))
    end.
    { clear -Hfs. induction Hfs as [| x l Hx Hl IH]; intros g rs g0 Hb E.
      - inversion E; subst. split; [now apply grows_refl | intros y []].
      - bind_in E as x1 g1 E1. bind_in E as xs g2 E2. inversion E; subst.
        assert (Hnone : forall l0 : list string, @None (list string) = Some l0 ->
                                  incl l0 (keys (nodes g))) by discriminate.
        destruct (Hx None g x1 g1 Hb Hnone E1) as [G1 Hx1].
        destruct (IH _ _ _ (proj1 G1) E2) as [G2 Hxs].
        split; [eapply grows_trans; eassumption |].
        intros y [<- | Hy]; [now apply (grows_keys g1) | now apply Hxs]. }
    destruct (A _ _ _ Hb E) as [G0 Hrs]. clear A.
    gen_in H (proj1 G0) as i g1 En Hb1 Hf Hg.
    add_in H Hb1 Hf Hg as g2 Hb2 Ek; [ | discriminate |].
    { rewrite En. cbn [inputs].
      destruct o as [l |]; [| assumption].
      eapply incl_tran; [apply uniq_incl |]. apply incl_app; [assumption |].
      intros y Hy. apply (grows_keys g g0 y G0). now apply (Ho l eq_refl). }
    inversion H; subst. cbn [fst]. split; [split; [assumption |] |].
    + rewrite Ek, En. intros x Hx. apply in_or_app. left. now apply (grows_keys g g0).
    + rewrite Ek. apply in_or_app. right. now left.
Qed.

Lemma mapM_spec {A B : Type} (f : A -> M B) (key : B -> NodeID) (l : list A) :
  (forall x g r g', built g -> f x g = Ok (r, g') ->
                    grows_built g g' /\ In (key r) (keys (nodes g'))) ->
  forall g rs g', built g -> mapM f l g = Ok (rs, g') ->
                  grows_built g g' /\ incl (map key rs) (keys (nodes g')).
Proof.
  intros Hf. induction l as [| x l IH]; intros g rs g' Hb H; cbn [mapM] in H.
  - inversion H; subst. split; [now apply grows_refl | intros y []].
  - bind_in H as y g1 E1. bind_in H as ys g2 E2. inversion H; subst.
    destruct (Hf _ _ _ _ Hb E1) as [G1 Hy].
    destruct (IH _ _ _ (proj1 G1) E2) as [G2 Hys].
    split; [eapply grows_trans; eassumption |].
    intros z [<- | Hz]; [now apply (grows_keys g1) | now apply Hys].
Qed.

(** [addNode] of a node with a fresh id as the last call of [H]. *)
Tactic Notation "add_last" hyp(H) constr(Hb1) constr(Hf) constr(Hg) "as"
       ident(Ea) ident(Hb2) ident(Ek) :=
  match type of H with
  | addNode ?node ?g = Ok (?a, ?g2) =>
      edestruct (add_spec g node a g2 Hb1 Hf Hg) as (Ea & Hb2 & Ek & _);
      [ | | exact H | cbn [id] in Ea; cbn [id] in Ek ]
  end.

Lemma processSort_spec sorts g r g' :
  built g -> processSort sorts g = Ok (r, g') ->
  grows_built g g' /\ In r (keys (nodes g')).
Proof.
  intros Hb H. unfold processSort in H.
  bind_in H as rs g0 E.
  destruct (mapM_spec (fun s => processExpression (sc_expression s) false) fst sorts
              (fun x g r g' Hb' => proj1 process_spec (sc_expression x) false g r g' Hb')
              g rs g0 Hb E) as [G0 Hrs].
  gen_in H (proj1 G0) as i g1 En Hb1 Hf Hg.
  add_last H Hb1 Hf Hg as Ea Hb2 Ek; [ | discriminate |].
  { rewrite En. eapply incl_tran; [apply uniq_incl | assumption]. }
  subst r. split; [split; [assumption |] |].
  - rewrite Ek, En. intros x Hx. apply in_or_app. left. now apply (grows_keys g g0).
  - rewrite Ek. apply in_or_app. right. now left.
Qed.

Lemma processGroupDimension_spec d g r g' :
  built g -> processGroupDimension d g = Ok (r, g') ->
  grows_built g g' /\ In r (keys (nodes g')).
Proof.
  intros Hb H. unfold processGroupDimension in H.
  unfold bind at 1 in H. cbn [getConfig] in H.
  destruct (Dict.get d (columnMappings (config g))) as [column |]; [| discriminate].
  bind_in H as sourceNodeId g0 E.
  destruct (findOrCreateSourceNode_spec _ _ _ _ Hb E) as [G0 Hs].
  gen_in H (proj1 G0) as i g1 En Hb1 Hf Hg.
  add_last H Hb1 Hf Hg as Ea Hb2 Ek; [ | discriminate |].
  { rewrite En. intros y [<- | []]. assumption. }
  subst r. split; [split; [assumption |] |].
  - rewrite Ek, En. intros x Hx. apply in_or_app. left. now apply (grows_keys g g0).
  - rewrite Ek. apply in_or_app. right. now left.
Qed.

Lemma processGroupBy_spec groups g rs g' :
  built g -> processGroupBy groups g = Ok (rs, g') -> grows_built g g'.
Proof.
  intros Hb H. unfold processGroupBy in H.
  eapply (mapM_spec _ (fun r => r) groups); [| exact Hb | exact H].
  clear. intros [d | dimension limit_ expression_] g r g' Hb H.
  - now apply (processGroupDimension_spec d).
  - bind_in H as dimensionNodeId g0 E0.
    destruct (processGroupDimension_spec _ _ _ _ Hb E0) as [G0 Hd].
    bind_in H as expressionNodeId g1 E1.
    assert (A : grows_built g0 g1
                /\ forall e, expressionNodeId = Some e -> In e (keys (nodes g1))).
    { destruct expression_ as [e |].
      - bind_in E1 as re g2 E2. inversion E1; subst.
        destruct (proj1 process_spec e false g0 re g1 (proj1 G0) E2) as [G1 He].
        split; [assumption |]. intros e' Ee. inversion Ee; subst. assumption.
      - inversion E1; subst. split; [apply grows_refl; apply G0 | discriminate]. }
    destruct A as [G1 He].
    gen_in H (proj1 G1) as i g2 En Hb2 Hf Hg.
    add_in H Hb2 Hf Hg as g3 Hb3 Ek; [ | discriminate |].
    { rewrite En. cbn [inputs set_metadata set_criteria mkNode].
      intros y [<- | Hy]; [now apply (grows_keys g0) |].
      destruct expressionNodeId as [e |]; [| destruct Hy].
      destruct Hy as [<- | []]. now apply He. }
    gen_in H Hb3 as j g4 En4 Hb4 Hf4 Hg4.
    add_last H Hb4 Hf4 Hg4 as Ea Hb5 Ek5; [ | discriminate |].
    { rewrite En4, Ek. intros y [<- | []]. apply in_or_app. right. now left. }
    subst r. split; [split; [assumption |] |].
    + rewrite Ek5, En4, Ek, En. intros x Hx. apply in_or_app. left. apply in_or_app. left.
      apply (grows_keys g0 g1 x G1). now apply (grows_keys g g0).
    + rewrite Ek5. apply in_or_app. right. now left.
Qed.

Lemma forEach_spec {A : Type} (Pre : A -> ComputeGraph -> Prop) (body : A -> M unit)
      (l : list A) :
  (forall x g g', Pre x g -> grows_built g g' -> Pre x g') ->
  (forall x g u g', Pre x g -> built g -> body x g = Ok (u, g') -> grows_built g g') ->
  forall g u g', (forall x, In x l -> Pre x g) -> built g ->
                 forEach body l g = Ok (u, g') -> grows_built g g'.
Proof.
  intros Hmono Hbody. induction l as [| x l IH]; intros g u g' Hpre Hb H;
    cbn [forEach] in H.
  - inversion H; subst. now apply grows_refl.
  - bind_in H as u1 g1 E1.
    pose proof (Hbody x g u1 g1 (Hpre x (or_introl eq_refl)) Hb E1) as G1.
    eapply grows_trans; [exact G1 |].
    apply (IH g1 u g'); [| apply G1 | assumption].
    intros y Hy. apply (Hmono y g g1); [apply Hpre; now right | assumption].
Qed.

Lemma ensureRequiredColumns_spec g u g' :
  built g -> ensureRequiredColumns g = Ok (u, g') -> grows_built g g'.
Proof.
  intros Hb H. unfold ensureRequiredColumns in H.
  unfold bind at 1 in H. cbn [getNodes] in H.
  eapply (forEach_spec (fun sn g0 => In (id sn) (keys (nodes g0)))); [| | | exact Hb | exact H].
  - intros x g0 g1 Hx G. now apply (grows_keys g0 g1).
  - clear. intros sourceNode g u g' Hs Hb H.
    unfold bind at 1 in H. cbn [getConfig] in H.
    destruct (Dict.get _ _) as [tableConfig |]; [| discriminate].
    unfold bind at 1 in H. cbn [getNodes] in H.
    destruct (hasTimeBasedAggregation _ _) as [hasTime |]; [| discriminate].
    eapply (forEach_spec (fun (_ : string) g0 => In (id sourceNode) (keys (nodes g0))));
      [| | | exact Hb | exact H].
    + intros x g0 g1 Hx G. now apply (grows_keys g0 g1).
    + clear. intros c g u g' Hs Hb H.
      gen_in H Hb as i g1 En Hb1 Hf Hg.
      add_in H Hb1 Hf Hg as g2 Hb2 Ek; [ | discriminate |].
      { rewrite En. intros y [<- | []]. assumption. }
      inversion H; subst. split; [assumption |].
      rewrite Ek, En. intros x Hx. apply in_or_app. now left.
    + intros c _. assumption.
  - intros sn Hsn. apply filter_In in Hsn. unfold keys. apply in_map. tauto.
Qed.

(** ** [inferJoins] *)

Lemma replaceNodeID_node_type o n a x : type (replaceNodeID_node o n a x) = type x.
Proof.
  unfold replaceNodeID_node. destruct (String.eqb (id x) n); [reflexivity |].
  destruct x as [i t ins term md tb tc cols ex al cond op crit lim jt jc]. node_fields.
  destruct cond; node_fields; destruct crit; node_fields; destruct cols; reflexivity.
Qed.

Lemma replaceNodeID_node_inputs o n a x :
  inputs (replaceNodeID_node o n a x)
  = if String.eqb (id x) n then inputs x
    else map (fun input => if String.eqb input o then n else input) (inputs x).
Proof.
  unfold replaceNodeID_node. destruct (String.eqb (id x) n); [reflexivity |].
  destruct x as [i t ins term md tb tc cols ex al cond op crit lim jt jc]. node_fields.
  destruct cond; node_fields; destruct crit; node_fields; destruct cols; reflexivity.
Qed.

Lemma keys_map_id (f : ComputeNode -> ComputeNode) ns :
  (forall n, id (f n) = id n) -> keys (map f ns) = keys ns.
Proof. intros Hf. unfold keys. rewrite map_map. apply map_ext. exact Hf. Qed.

Lemma joining_replace S j rank ns s :
  In s S -> In j (keys ns) ->
  joining S j rank ns ->
  joining S j rank (map (replaceNodeID_node s j None) ns).
Proof.
  intros Hs Hj [Hc Hsrc Hjn Ho].
  assert (Ek : keys (map (replaceNodeID_node s j None) ns) = keys ns).
  { apply keys_map_id. intros n. apply replaceNodeID_node_id. }
  constructor.
  - intros n' Hn' i Hi. rewrite Ek. apply in_map_iff in Hn'.
    destruct Hn' as (n & <- & Hn). rewrite replaceNodeID_node_inputs in Hi.
    destruct (String.eqb (id n) j); [now apply (Hc n) |].
    apply in_map_iff in Hi. destruct Hi as (i0 & <- & Hi0).
    destruct (String.eqb i0 s); [assumption | now apply (Hc n)].
  - intros n' Hn' Hid. apply in_map_iff in Hn'. destruct Hn' as (n & <- & Hn).
    rewrite replaceNodeID_node_id in Hid. rewrite replaceNodeID_node_inputs.
    rewrite (Hsrc n Hn Hid). now destruct (String.eqb (id n) j).
  - intros n' Hn' Hid. apply in_map_iff in Hn'. destruct Hn' as (n & <- & Hn).
    rewrite replaceNodeID_node_id in Hid. rewrite replaceNodeID_node_inputs.
    apply String.eqb_eq in Hid. rewrite Hid. apply String.eqb_eq in Hid. now apply Hjn.
  - intros n' Hn' HS Hne i Hi. apply in_map_iff in Hn'. destruct Hn' as (n & <- & Hn).
    rewrite replaceNodeID_node_id in HS, Hne |- *.
    rewrite replaceNodeID_node_inputs in Hi.
    apply String.eqb_neq in Hne. rewrite Hne in Hi. apply String.eqb_neq in Hne.
    apply in_map_iff in Hi. destruct Hi as (i0 & <- & Hi0).
    destruct (String.eqb i0 s); [right; left; reflexivity |].
    now apply (Ho n).
Qed.

Lemma joining_shapes S j rank ns ns' :
  map shape ns' = map shape ns -> joining S j rank ns -> joining S j rank ns'.
Proof.
  intros E [Hc Hsrc Hjn Ho].
  assert (Hn0 : forall n', In n' ns' ->
                           exists n, In n ns /\ id n = id n' /\ inputs n = inputs n').
  { intros n' Hn'. apply shape_In in Hn'. rewrite E in Hn'. apply In_shape in Hn'.
    destruct Hn' as (n & Hn & Es). unfold shape in Es. injection Es as Eid Ety Ein. eauto. }
  assert (Ek : keys ns' = keys ns) by (now rewrite !keys_shapes, E).
  constructor.
  - intros n' Hn'. destruct (Hn0 n' Hn') as (n & Hn & Eid & Ein).
    rewrite Ek, <- Ein. now apply Hc.
  - intros n' Hn' Hid. destruct (Hn0 n' Hn') as (n & Hn & Eid & Ein).
    rewrite <- Ein. apply (Hsrc n Hn). now rewrite Eid.
  - intros n' Hn' Hid. destruct (Hn0 n' Hn') as (n & Hn & Eid & Ein).
    rewrite <- Ein. apply (Hjn n Hn). congruence.
  - intros n' Hn' HS Hne i Hi. destruct (Hn0 n' Hn') as (n & Hn & Eid & Ein).
    rewrite <- Ein in Hi. rewrite <- Eid in HS, Hne |- *. now apply (Ho n).
Qed.

(** The rank that shows the rewired graph free of cycles. *)
Lemma joining_ranked S j rank ns :
  ~ In j S -> joining S j rank ns ->
  ranked (fun x => if JS.includes x S then 0
                   else if String.eqb x j then 1 else rank x + 2) ns.
Proof.
  intros Hj [Hc Hsrc Hjn Ho] n Hn i Hi. split; [now apply (Hc n) |].
  destruct (JS.includes (id n) S) eqn:En.
  - apply includes_In in En. rewrite (Hsrc n Hn En) in Hi. destruct Hi.
  - apply includes_false in En.
    destruct (String.eqb_spec (id n) j) as [Ej | Ej].
    + pose proof (Hjn n Hn Ej i Hi) as HiS. apply includes_In in HiS. rewrite HiS. lia.
    + destruct (JS.includes i S) eqn:Ei; [lia |].
      apply includes_false in Ei.
      destruct (String.eqb_spec i j) as [-> | Eij]; [lia |].
      destruct (Ho n Hn En Ej i Hi) as [H | [H | H]]; [contradiction | contradiction | lia].
Qed.

Lemma join_state_replace S j rank g s u g' :
  In s S -> join_state S j rank g ->
  replaceNodeID s j None g = Ok (u, g') ->
  join_state S j rank g' /\ keys (nodes g') = keys (nodes g).
Proof.
  intros Hs [Hk Hi Hl Hj Hin] H. unfold replaceNodeID in H. inversion H; subst; clear H.
  cbn [nodes with_nodes].
  assert (Ek : keys (map (replaceNodeID_node s j None) (nodes g)) = keys (nodes g)).
  { apply keys_map_id. intros n. apply replaceNodeID_node_id. }
  split; [| assumption]. constructor; cbn [nodes with_nodes].
  - unfold well_keyed. now rewrite Ek.
  - intros n' Hn'. apply in_map_iff in Hn'. destruct Hn' as (n & <- & Hn).
    rewrite replaceNodeID_node_id. apply (Hi n Hn).
  - intros n' Hn' Ht. apply in_map_iff in Hn'. destruct Hn' as (n & <- & Hn).
    rewrite replaceNodeID_node_type in Ht. rewrite replaceNodeID_node_inputs.
    rewrite (Hl n Hn Ht). now destruct (String.eqb (id n) j).
  - now apply joining_replace.
  - now rewrite Ek.
Qed.

Lemma join_state_shapes S j rank g g' :
  map shape (nodes g') = map shape (nodes g) ->
  nodeTypesCounter g' = nodeTypesCounter g ->
  join_state S j rank g -> join_state S j rank g'.
Proof.
  intros E Ec [Hk Hi Hl Hj Hin].
  assert (Ek : keys (nodes g') = keys (nodes g)) by (now rewrite !keys_shapes, E).
  constructor.
  - unfold well_keyed. now rewrite Ek.
  - intros n Hn. apply shape_In in Hn. rewrite E in Hn. apply In_shape in Hn.
    destruct Hn as (n0 & Hn0 & Es). unfold shape in Es. injection Es as Eid Ety Ein.
    destruct (Hi n0 Hn0) as (t & k & Et & Hle). exists t, k. rewrite Ec. split; congruence.
  - now apply (leaves_shapes (nodes g)).
  - now apply (joining_shapes S j rank (nodes g)).
  - now rewrite Ek.
Qed.

Lemma join_state_mutate S j rank g i u g' :
  join_state S j rank g ->
  mutate i (set_isTerminal false) g = Ok (u, g') ->
  join_state S j rank g' /\ keys (nodes g') = keys (nodes g).
Proof.
  intros Hj H. unfold mutate in H.
  destruct (has i (nodes g)); inversion H; subst; clear H.
  - assert (E : map shape (nodes (with_nodes (update i (set_isTerminal false) (nodes g)) g))
                = map shape (nodes g)).
    { cbn [nodes with_nodes]. now apply shapes_update. }
    split; [now apply (join_state_shapes S j rank g) |].
    now rewrite !keys_shapes, E.
  - split; [| reflexivity].
    now apply (join_state_shapes S j rank g).
Qed.

Lemma join_state_loop S j rank (body : ComputeNode -> M unit) (l : list ComputeNode) :
  (forall sn g u g', In sn l -> join_state S j rank g -> body sn g = Ok (u, g') ->
                     join_state S j rank g' /\ keys (nodes g') = keys (nodes g)) ->
  forall g u g', join_state S j rank g -> forEach body l g = Ok (u, g') ->
                 join_state S j rank g' /\ keys (nodes g') = keys (nodes g).
Proof.
  induction l as [| sn l IH]; intros Hbody g u g' Hj H; cbn [forEach] in H.
  - inversion H; subst. auto.
  - bind_in H as u1 g1 E1.
    destruct (Hbody sn g u1 g1 (or_introl eq_refl) Hj E1) as [Hj1 Ek1].
    destruct (IH (fun sn' g0 u0 g0' Hin => Hbody sn' g0 u0 g0' (or_intror Hin))
                 g1 u g' Hj1 H) as [Hj' Ek'].
    split; [assumption | congruence].
Qed.

Lemma NoDup_keys_eq ns a b :
  NoDup (keys ns) -> In a ns -> In b ns -> id a = id b -> a = b.
Proof.
  intros Hnd Ha Hb E.
  pose proof (lookup_wf ns a Hnd Ha) as La. pose proof (lookup_wf ns b Hnd Hb) as Lb.
  rewrite E in La. congruence.
Qed.

Lemma inferJoins_spec g u g' :
  built g -> inferJoins g = Ok (u, g') -> grows_built g g'.
Proof.
  intros Hb H. unfold inferJoins in H. unfold bind at 1 in H. cbn [getNodes] in H.
  set (sourceNodes := filter (fun n => NodeType_eqb (type n) T_source) (nodes g)) in *.
  destruct (Nat.leb (length sourceNodes) 1).
  { inversion H; subst. now apply grows_refl. }
  unfold bind at 1 in H. cbn [getConfig] in H.
  destruct (all_results _) as [joinConds | e]; [| discriminate].
  gen_in H Hb as j g1 En Hb1 Hf Hg.
  unfold bind at 1 in H.
  match type of H with
  | match addNode ?node ?g with _ => _ end = _ =>
      destruct (addNode node g) as [[a g2] |] eqn:E; [| discriminate];
      destruct (add_spec g node a g2 Hb1 Hf Hg) as (Ea & Hb2 & Ek & Ec & Es);
      [ | discriminate | exact E | ]
  end.
  { rewrite En. cbn [inputs]. intros x Hx. apply in_map_iff in Hx.
    destruct Hx as (n & <- & Hn). apply filter_In in Hn. unfold keys. apply in_map. tauto. }
  cbn [id] in Ea, Ek. cbn [shape id type inputs] in Es. subst a. clear E.
  set (S := map id sourceNodes) in *.
  assert (HS : incl S (keys (nodes g))).
  { intros x Hx. apply in_map_iff in Hx. destruct Hx as (n & <- & Hn).
    apply filter_In in Hn. unfold keys. apply in_map. tauto. }
  assert (HjS : ~ In j S).
  { intros Hj. apply Hf. rewrite En. now apply HS. }
  destruct Hb2 as [Hk2 Hi2 [rank Hr2] Hs2].
  assert (Hold : forall n, In n (nodes g2) ->
                 (exists n0, In n0 (nodes g) /\ shape n0 = shape n)
                 \/ shape n = (j, T_join, S)).
  { intros n Hn. apply shape_In in Hn. rewrite Es, En in Hn. apply in_app_or in Hn.
    destruct Hn as [Hn | [Hn | []]]; [left; now apply In_shape | right; now symmetry]. }
  assert (J2 : join_state S j rank g2).
  { constructor; try assumption.
    - constructor.
      + intros n Hn i Hi. now apply (Hr2 n Hn i Hi).
      + intros n Hn Hid. apply Hs2; [assumption |].
        destruct (Hold n Hn) as [(n0 & Hn0 & E0) | E0].
        * unfold shape in E0. injection E0 as Eid Ety Ein.
          apply in_map_iff in Hid. destruct Hid as (m & Em & Hm).
          apply filter_In in Hm. destruct Hm as [Hm Htm].
          assert (n0 = m).
          { apply (NoDup_keys_eq (nodes g)); try assumption; [apply Hb | congruence]. }
          subst m. rewrite <- Ety. destruct (type n0); try discriminate; reflexivity.
        * unfold shape in E0. injection E0 as Eid Ety Ein. exfalso. congruence.
      + intros n Hn Hid. destruct (Hold n Hn) as [(n0 & Hn0 & E0) | E0].
        * unfold shape in E0. injection E0 as Eid Ety Ein. exfalso. apply Hf.
          rewrite En, <- Hid, <- Eid. unfold keys. now apply in_map.
        * unfold shape in E0. injection E0 as Eid Ety Ein. rewrite Ein. apply incl_refl.
      + intros n Hn _ _ i Hi. right. right. now apply (Hr2 n Hn i Hi).
    - rewrite Ek. apply in_or_app. right. now left. }
  bind_in H as u1 g3 E3.
  destruct (join_state_loop S j rank
              (fun sn => replaceNodeID (id sn) j None) sourceNodes) with (3 := E3)
    as [J3 Ek3]; [| exact J2 |].
  { intros sn g0 u0 g0' Hsn Hj0 H0.
    apply (join_state_replace S j rank g0 (id sn) u0 g0'); try assumption.
    unfold S. now apply in_map. }
  destruct (join_state_loop S j rank
              (fun sn => mutate (id sn) (set_isTerminal false)) sourceNodes) with (3 := H)
    as [J4 Ek4]; [| exact J3 |].
  { intros sn g0 u0 g0' Hsn Hj0 H0.
    now apply (join_state_mutate S j rank g0 (id sn) u0 g0'). }
  destruct J4 as [Hk4 Hi4 Hl4 Hj4 Hin4].
  split.
  - constructor; try assumption. eexists. now apply (joining_ranked S j rank).
  - rewrite Ek4, Ek3, Ek, En. intros x Hx. apply in_or_app. now left.
Qed.

Lemma processUserQuery_spec userQuery g u g' :
  built g -> processUserQuery userQuery g = Ok (u, g') -> grows_built g g'.
Proof.
  intros Hb H. unfold processUserQuery in H.
  bind_in H as r0 g0 E0.
  assert (Hnone : forall l0 : list string, @None (list string) = Some l0 ->
                                           incl l0 (keys (nodes g))) by discriminate.
  destruct (proj2 process_spec _ None g r0 g0 Hb Hnone E0) as [G0 _].
  bind_in H as u1 g1 E1.
  assert (G1 : grows_built g0 g1).
  { destruct (group_by userQuery) as [gs |].
    - bind_in E1 as rs g2 E2. inversion E1; subst.
      apply (processGroupBy_spec gs g0 rs g1 (proj1 G0) E2).
    - inversion E1; subst. apply grows_refl. apply G0. }
  bind_in H as u2 g2 E2.
  assert (G2 : grows_built g1 g2).
  { destruct (sort_by userQuery) as [ss |].
    - bind_in E2 as r g3 E3. inversion E2; subst.
      apply (processSort_spec ss g1 r g2 (proj1 G1) E3).
    - inversion E2; subst. apply grows_refl. apply G1. }
  bind_in H as u3 g3 E3.
  assert (G3 : grows_built g2 g3).
  { destruct (uq_limit userQuery) as [l |].
    - destruct (Z.eqb l 0).
      + inversion E3; subst. apply grows_refl. apply G2.
      + gen_in E3 (proj1 G2) as i g4 En Hb4 Hf Hg.
        add_in E3 Hb4 Hf Hg as g5 Hb5 Ek; [intros x [] | discriminate |].
        inversion E3; subst. split; [assumption |].
        rewrite Ek, En. intros x Hx. apply in_or_app. now left.
    - inversion E3; subst. apply grows_refl. apply G2. }
  bind_in H as u4 g4 E4.
  pose proof (inferJoins_spec g3 u4 g4 (proj1 G3) E4) as G4.
  pose proof (ensureRequiredColumns_spec g4 u g' (proj1 G4) H) as G5.
  apply (grows_trans g g0 g' G0). apply (grows_trans g0 g1 g' G1).
  apply (grows_trans g1 g2 g' G2). apply (grows_trans g2 g3 g' G3).
  now apply (grows_trans g3 g4 g' G4).
Qed.

Lemma ranked_reaches rank ns a b : ranked rank ns -> reaches ns a b -> rank b < rank a.
Proof.
  intros Hr H. induction H as [a b (n & Hn & Hb) | a b c _ IH1 _ IH2]; [| lia].
  pose proof (lookup_id a ns n Hn) as <-. apply lookup_In in Hn.
  now apply (Hr n Hn b Hb).
Qed.

Lemma ranked_acyclic rank ns : ranked rank ns -> acyclic ns.
Proof. intros Hr a Ha. pose proof (ranked_reaches rank ns a a Hr Ha). lia. Qed.

Lemma ranked_closed rank ns : ranked rank ns -> inputs_closed ns.
Proof. intros Hr n Hn i Hi. now apply (Hr n Hn i Hi). Qed.

(** X15. Whatever the query and the configuration, the graph that the
    constructor returns can be put in order: every node is filed under its
    own id, every id was made by [generateNodeID], every input of every
    node is the id of a node, there is no cycle along the inputs, and
    [getExecutionOrder] returns each node of the graph once, after the
    nodes it has as inputs. *)
Theorem fromUserQuery_can_be_ordered
        (userQuery : UserQuery) (cfg : QueryBuilderConfig) (g : ComputeGraph) :
  fromUserQuery userQuery cfg = Ok g ->
  well_keyed (nodes g) /\ ids_generated g /\ inputs_closed (nodes g)
  /\ acyclic (nodes g)
  /\ exists order,
       getExecutionOrder g = Ok (order, g) /\
       length order = length (nodes g) /\
       (forall n, In n order <-> In n (nodes g)) /\
       comes_after_inputs order.
Proof.
  intros H. unfold fromUserQuery in H.
  destruct (processUserQuery userQuery (emptyGraph cfg)) as [[u g0] |] eqn:E;
    [| discriminate].
  inversion H; subst; clear H.
  destruct (processUserQuery_spec userQuery (emptyGraph cfg) u g (built_empty cfg) E)
    as [[Hk Hi [rank Hr] Hs] _].
  pose proof (ranked_acyclic rank (nodes g) Hr) as Ha.
  pose proof (ranked_closed rank (nodes g) Hr) as Hc.
  split; [assumption |]. split; [assumption |]. split; [assumption |].
  split; [assumption |].
  unfold getExecutionOrder.
  pose proof (getExecutionOrder_cases (nodes g)) as Hcases.
  destruct (getExecutionOrder_nodes (nodes g)) as [order | e].
  - exists order. split; [reflexivity |]. split; [| split].
    + now apply order_length.
    + now apply order_In.
    + apply (eo_topo Hcases).
  - exfalso. destruct Hcases as [Hcy | Hd].
    + now apply (acyclic_no_cycle (nodes g) e).
    + now apply (closed_no_dangling (nodes g) e).
Qed.

Lemma fromUserQuery_can_be_ordered_witness :
  let g := match fromUserQuery full_query market_config with
           | Ok g => g
           | Err _ => emptyGraph market_config
           end in
  well_keyed (nodes g) /\ ids_generated g /\ inputs_closed (nodes g)
  /\ acyclic (nodes g)
  /\ exists order,
       getExecutionOrder g = Ok (order, g) /\
       length order = length (nodes g) /\
       (forall n, In n order <-> In n (nodes g)) /\
       comes_after_inputs order.
Proof.
  apply (fromUserQuery_can_be_ordered full_query market_config).
  vm_compute. reflexivity.
Defined.

(** * [getExecutionOrder]: the sources come first *)

Lemma visit_appends ns fuel :
  forall v st st', visit fuel ns v st = Ok st' ->
                   exists l, orderedNodes st' = (orderedNodes st ++ l)%list.
Proof.
  induction fuel as [| fuel IH]; simpl; intros v st st' H; [discriminate |].
  destruct (JS.includes v (processing st)); [discriminate |].
  destruct (JS.includes v (visited st)).
  { inversion H; subst. exists []. now rewrite app_nil_r. }
  destruct (lookup v ns) as [node |]; [| discriminate].
  match type of H with
  | match forM ?b ?l ?s with _ => _ end = _ =>
      destruct (forM b l s) as [st2 |] eqn:Ef; [| discriminate]
  end.
  inversion H; subst; clear H. cbn [orderedNodes].
  assert (Hp : exists l, orderedNodes st2 = (orderedNodes st ++ l)%list).
  { revert Ef.
    apply (forM_inv (fun s => exists l, orderedNodes s = (orderedNodes st ++ l)%list)).
    - intros x s s' _ [l Hs] Hb. destruct (has x ns); [| discriminate].
      apply IH in Hb. destruct Hb as [l' Hl']. exists (l ++ l')%list.
      now rewrite Hl', Hs, app_assoc.
    - exists []. now rewrite app_nil_r. }
  destruct Hp as [l Hl]. exists (l ++ [node])%list. now rewrite Hl, app_assoc.
Qed.

Lemma visits_append ns fuel (l : list NodeID) :
  forall st st', forM (visit fuel ns) l st = Ok st' ->
                 exists r, orderedNodes st' = (orderedNodes st ++ r)%list.
Proof.
  intros st st'.
  apply (forM_inv (fun s => exists r, orderedNodes s = (orderedNodes st ++ r)%list)).
  - intros x s s' _ [r Hs] Hb. apply visit_appends in Hb. destruct Hb as [r' Hr'].
    exists (r ++ r')%list. now rewrite Hr', Hs, app_assoc.
  - exists []. now rewrite app_nil_r.
Qed.

(** The visit of a node without inputs. *)
Lemma visit_leaf ns fuel v st node :
  lookup v ns = Some node -> inputs node = [] ->
  processing st = [] -> ~ In v (visited st) ->
  visit (S fuel) ns v st
  = Ok {| visited := (visited st ++ [v])%list; processing := [];
          orderedNodes := (orderedNodes st ++ [node])%list |}.
Proof.
  intros Hl Hi Hp Hv.
  change (visit (S fuel) ns v st) with
    (if JS.includes v (processing st) then Err (CycleDetected v)
     else if JS.includes v (visited st) then Ok st
     else
       match lookup v ns with
       | None => Err (NodeNotFound v)
       | Some node =>
           let st1 := {| visited := visited st;
                         processing := set_add v (processing st);
                         orderedNodes := orderedNodes st |} in
           match forM (fun inputId s =>
                         if has inputId ns then visit fuel ns inputId s
                         else Err (DanglingReference v inputId))
                      (inputs node) st1 with
           | Err e => Err e
           | Ok st2 =>
               Ok {| visited := set_add v (visited st2);
                     processing := set_delete v (processing st2);
                     orderedNodes := (orderedNodes st2 ++ [node])%list |}
           end
       end).
  rewrite Hp. cbn [JS.includes existsb].
  apply includes_false in Hv. rewrite Hv, Hl, Hi. cbn [forM processing visited orderedNodes].
  apply includes_false in Hv.
  rewrite (set_add_new v (visited st) Hv).
  unfold set_add. cbn [JS.includes existsb set_delete filter app].
  now rewrite String.eqb_refl.
Qed.

Lemma visit_leaves ns fuel (l : list ComputeNode) :
  (forall n, In n l -> lookup (id n) ns = Some n /\ inputs n = []) ->
  NoDup (map id l) ->
  forall st, processing st = [] -> (forall n, In n l -> ~ In (id n) (visited st)) ->
    exists st',
      forM (visit (S fuel) ns) (map id l) st = Ok st' /\
      orderedNodes st' = (orderedNodes st ++ l)%list.
Proof.
  induction l as [| n l IH]; intros Hl Hnd st Hp Hv.
  - exists st. split; [reflexivity | now rewrite app_nil_r].
  - cbn [map forM]. destruct (Hl n (or_introl eq_refl)) as [Hn Hi].
    rewrite (visit_leaf ns fuel (id n) st n Hn Hi Hp (Hv n (or_introl eq_refl))).
    inversion Hnd as [| ? ? Hnotin Hnd']; subst.
    destruct (IH (fun m Hm => Hl m (or_intror Hm)) Hnd'
                 {| visited := (visited st ++ [id n])%list; processing := [];
                    orderedNodes := (orderedNodes st ++ [n])%list |} eq_refl)
      as (st' & Hrun & Hord).
    + intros m Hm. cbn [visited]. intros Hin. apply in_app_or in Hin.
      destruct Hin as [Hin | [E | []]].
      * now apply (Hv m (or_intror Hm)).
      * apply Hnotin. rewrite E. now apply in_map.
    + exists st'. split; [assumption |]. rewrite Hord. cbn [orderedNodes].
      now rewrite <- app_assoc.
Qed.

(** X16. When the source nodes of the graph have no inputs, the order
    that [getExecutionOrder] returns begins with the source nodes, in the
    order of the table. *)
Theorem getExecutionOrder_sources_first (g : ComputeGraph) (order : list ComputeNode) :
  well_keyed (nodes g) -> sources_are_leaves (nodes g) ->
  getExecutionOrder g = Ok (order, g) ->
  exists rest,
    order = (filter (fun n => NodeType_eqb (type n) T_source) (nodes g) ++ rest)%list.
Proof.
  intros Hwf Hleaf H. unfold getExecutionOrder in H.
  destruct (getExecutionOrder_nodes (nodes g)) as [l |] eqn:E; [| discriminate].
  inversion H; subst; clear H.
  unfold getExecutionOrder_nodes, getExecutionOrder_fuel in E.
  set (sources := filter (fun n => NodeType_eqb (type n) T_source) (nodes g)) in *.
  destruct (visit_leaves (nodes g) (length (nodes g)) sources) with (st := visit_init)
    as (st1 & Hrun & Hord).
  - intros n Hn. apply filter_In in Hn. destruct Hn as [Hn Ht].
    split; [now apply lookup_wf |]. apply Hleaf; [assumption |].
    destruct (type n); try discriminate; reflexivity.
  - unfold sources. clear -Hwf. unfold well_keyed, keys in Hwf.
    induction (nodes g) as [| m ns IH]; simpl; [constructor |].
    inversion Hwf as [| ? ? Hm Hnd]; subst.
    destruct (NodeType_eqb (type m) T_source); simpl; [| now apply IH].
    constructor; [| now apply IH].
    intros Hin. apply Hm. apply in_map_iff in Hin. destruct Hin as (x & Ex & Hx).
    apply filter_In in Hx. apply in_map_iff. exists x. tauto.
  - reflexivity.
  - intros n _ [].
  - rewrite Hrun in E.
    destruct (forM (visit (S (length (nodes g))) (nodes g)) (keys (nodes g)) st1)
      as [st2 |] eqn:E2; [| discriminate].
    inversion E; subst. apply visits_append in E2. destruct E2 as [r Hr].
    exists r. rewrite Hr, Hord. reflexivity.
Qed.

Lemma getExecutionOrder_sources_first_witness :
  exists rest,
    match getExecutionOrder test_order_graph with
    | Ok (order, _) => order
    | Err _ => []
    end
    = (filter (fun n => NodeType_eqb (type n) T_source) (nodes test_order_graph)
       ++ rest)%list.
Proof.
  apply (getExecutionOrder_sources_first test_order_graph).
  - apply distinct_well_keyed. reflexivity.
  - intros n Hn Ht. simpl in Hn.
    repeat (destruct Hn as [<- | Hn]; [try discriminate Ht; reflexivity |]).
    destruct Hn.
  - vm_compute. reflexivity.
Defined.

(** * The table of parameters through the constructor and the optimizer *)

Section Keeps.

(** A property of the graph that reads the table of parameters only. *)
Variable I : ComputeGraph -> Prop.
Hypothesis I_frame : forall g g', parameters g' = parameters g -> I g -> I g'.

Lemma keeps_ret {A} (a : A) : keeps I (ret a).
Proof using I_frame. intros g x g' Hi H. now inversion H; subst. Qed.

Lemma keeps_throw {A} e : keeps I (@throw A e).
Proof using I_frame. intros g x g' Hi H. discriminate. Qed.

Lemma keeps_bind {A B} (c : M A) (k : A -> M B) :
  keeps I c -> (forall a, keeps I (k a)) -> keeps I (bind c k).
Proof using I_frame.
  intros Hc Hk g b g' Hi H. unfold bind in H.
  destruct (c g) as [[a g1] |] eqn:E; [| discriminate].
  eapply Hk; [eapply Hc; eassumption | eassumption].
Qed.

Lemma keeps_frame {A} (m : M A) :
  (forall g a g', m g = Ok (a, g') -> parameters g' = parameters g) -> keeps I m.
Proof using I_frame. intros Hm g a g' Hi H. apply (I_frame g); [eapply Hm |]; eassumption. Qed.

Lemma keeps_getNodes : keeps I getNodes.
Proof using I_frame. apply keeps_frame. intros g a g' H. now inversion H. Qed.

Lemma keeps_getConfig : keeps I getConfig.
Proof using I_frame. apply keeps_frame. intros g a g' H. now inversion H. Qed.

Lemma keeps_node_at i : keeps I (node_at i).
Proof using I_frame. apply keeps_frame. intros g a g' H. now inversion H. Qed.

Lemma keeps_deref i : keeps I (deref i).
Proof using I_frame. apply keeps_frame. intros g a g' H. now inversion H. Qed.

Lemma keeps_findDependentNodes i : keeps I (findDependentNodes i).
Proof using I_frame. apply keeps_frame. intros g a g' H. now inversion H. Qed.

Lemma keeps_generateNodeID t : keeps I (generateNodeID t).
Proof using I_frame. apply keeps_frame. intros g a g' H. now inversion H. Qed.

Lemma keeps_addNode n : keeps I (addNode n).
Proof using I_frame. apply keeps_frame. intros g a g' H. now inversion H. Qed.

Lemma keeps_replaceNodeID o n a : keeps I (replaceNodeID o n a).
Proof using I_frame. apply keeps_frame. intros g x g' H. now inversion H. Qed.

Lemma keeps_mutate i f : keeps I (mutate i f).
Proof using I_frame.
  apply keeps_frame. intros g x g' H. unfold mutate in H.
  destruct (has i (nodes g)); now inversion H.
Qed.

Lemma keeps_removeNode i : keeps I (removeNode i).
Proof using I_frame.
  apply keeps_frame. intros g x g' H. unfold removeNode in H.
  destruct (lookup i (nodes g)); now inversion H.
Qed.

Lemma keeps_deref_ok i : keeps I (deref_ok i).
Proof using I_frame.
  unfold deref_ok. apply keeps_bind; [apply keeps_deref |].
  intros [n |]; [apply keeps_ret | apply keeps_throw].
Qed.

Lemma keeps_forEach {A} (body : A -> M unit) l :
  (forall x, keeps I (body x)) -> keeps I (forEach body l).
Proof using I_frame.
  intros Hb. induction l as [| x l IH]; cbn [forEach].
  - apply keeps_ret.
  - apply keeps_bind; [apply Hb | intros _; apply IH].
Qed.

Lemma keeps_mapM {A B} (f : A -> M B) l :
  (forall x, keeps I (f x)) -> keeps I (mapM f l).
Proof using I_frame.
  intros Hf. induction l as [| x l IH]; cbn [mapM].
  - apply keeps_ret.
  - apply keeps_bind; [apply Hf | intros y].
    apply keeps_bind; [apply IH | intros ys; apply keeps_ret].
Qed.

Lemma keeps_filterM {A} (p : A -> M bool) l :
  (forall x, keeps I (p x)) -> keeps I (filterM p l).
Proof using I_frame.
  intros Hp. induction l as [| x l IH]; cbn [filterM].
  - apply keeps_ret.
  - apply keeps_bind; [apply Hp | intros b].
    apply keeps_bind; [apply IH | intros ys; apply keeps_ret].
Qed.

Lemma keeps_foldM {A S} (body : A -> S -> M S) l :
  (forall x s, keeps I (body x s)) -> forall s, keeps I (foldM body l s).
Proof using I_frame.
  intros Hb. induction l as [| x l IH]; intros s; cbn [foldM].
  - apply keeps_ret.
  - apply keeps_bind; [apply Hb | intros s'; apply IH].
Qed.

Ltac keeps_step :=
  first
    [ apply keeps_ret | apply keeps_throw | apply keeps_getNodes
    | apply keeps_getConfig | apply keeps_node_at | apply keeps_deref
    | apply keeps_deref_ok | apply keeps_findDependentNodes
    | apply keeps_generateNodeID | apply keeps_addNode | apply keeps_replaceNodeID
    | apply keeps_mutate | apply keeps_removeNode
    | apply keeps_forEach; intros
    | apply keeps_mapM; intros
    | apply keeps_filterM; intros
    | apply keeps_foldM; intros
    | apply keeps_bind; [| intros]
    | match goal with
      | |- keeps _ (match ?x with _ => _ end) => destruct x
      | |- keeps _ (if ?b then _ else _) => destruct b
      end ].

(** ** The optimizer *)

Lemma keeps_sortInputs i : keeps I (sortInputs i).
Proof using I_frame. unfold sortInputs. repeat keeps_step. Qed.

Lemma keeps_rewireDependents o n : keeps I (rewireDependents o n).
Proof using I_frame. unfold rewireDependents. repeat keeps_step. Qed.

Lemma keeps_removedDuplicateProjections : keeps I removedDuplicateProjections.
Proof using I_frame.
  unfold removedDuplicateProjections, dedupeProjection.
  repeat first [apply keeps_sortInputs | keeps_step].
Qed.

Lemma keeps_inlineParameters : keeps I inlineParameters.
Proof using I_frame. unfold inlineParameters, inlineParameter. repeat keeps_step. Qed.

Lemma keeps_mergeFilters : keeps I mergeFilters.
Proof using I_frame.
  unfold mergeFilters, mergeFilter, isRelatedFilter.
  repeat first [apply keeps_sortInputs | apply keeps_rewireDependents | keeps_step].
Qed.

Lemma keeps_removeUselessCompositeFilters : keeps I removeUselessCompositeFilters.
Proof using I_frame.
  unfold removeUselessCompositeFilters, removeUselessCompositeFilter.
  repeat first [apply keeps_rewireDependents | keeps_step].
Qed.

Lemma keeps_removeDuplicateProjectionExpressions :
  keeps I removeDuplicateProjectionExpressions.
Proof using I_frame.
  unfold removeDuplicateProjectionExpressions, dedupeExpression. repeat keeps_step.
Qed.

Lemma keeps_trySimplification1 : keeps I trySimplification1.
Proof using I_frame. unfold trySimplification1. repeat keeps_step. Qed.

Lemma keeps_removeDuplicateFilters : keeps I removeDuplicateFilters.
Proof using I_frame. unfold removeDuplicateFilters, dedupeFilter. repeat keeps_step. Qed.

Lemma keeps_ensureRequiredColumns : keeps I ensureRequiredColumns.
Proof using I_frame. unfold ensureRequiredColumns. repeat keeps_step. Qed.

Lemma keeps_optimize risky : keeps I (optimize risky).
Proof using I_frame.
  unfold optimize.
  repeat first
    [ apply keeps_removedDuplicateProjections | apply keeps_inlineParameters
    | apply keeps_mergeFilters | apply keeps_removeUselessCompositeFilters
    | apply keeps_removeDuplicateProjectionExpressions
    | apply keeps_trySimplification1 | apply keeps_removeDuplicateFilters
    | apply keeps_ensureRequiredColumns | keeps_step ].
Qed.

(** ** The constructor *)

Hypothesis I_create : forall v op, keeps I (createParameterM v op).

Lemma keeps_findOrCreateSourceNode t : keeps I (findOrCreateSourceNode t).
Proof using I_frame. unfold findOrCreateSourceNode. repeat keeps_step. Qed.

Lemma keeps_process :
  (forall e b, keeps I (processExpression e b))
  /\ (forall f o, keeps I (processFilter f o)).
Proof using I_frame I_create.
  apply Expression_Filter_induction.
  - intros v a b. cbn [processExpression].
    repeat first [apply I_create | keeps_step].
  - intros m f a IHf b. cbn [processExpression].
    apply keeps_bind; [apply keeps_getConfig | intros cfg].
    destruct (Dict.get m (columnMappings cfg)); [| apply keeps_throw].
    apply keeps_bind; [apply keeps_findOrCreateSourceNode | intros s].
    apply keeps_bind; [apply keeps_generateNodeID | intros i].
    apply keeps_bind; [apply keeps_addNode | intros created].
    destruct f as [x |]; [| apply keeps_ret].
    apply keeps_bind; [now apply (IHf x) | intros r; apply keeps_ret].
  - intros o ops a Hops b. cbn [processExpression].
    apply keeps_bind; [| intros rs; repeat keeps_step].
    induction Hops as [| x l Hx Hl IH]; [apply keeps_ret |].
    apply keeps_bind; [apply Hx | intros y].
    apply keeps_bind; [apply IH | intros ys; apply keeps_ret].
  - intros t agg tr f a IHt IHf b. cbn [processExpression].
    apply keeps_bind; [apply IHt | intros rt].
    apply keeps_bind.
    + destruct f as [x |]; [| apply keeps_ret].
      apply keeps_bind; [now apply (IHf x) | intros r; apply keeps_ret].
    + intros fs. repeat keeps_step.
  - intros t op v IHt IHv o. cbn [processFilter].
    apply keeps_bind; [apply IHt | intros rt].
    apply keeps_bind; [apply IHv | intros rv].
    repeat keeps_step.
  - intros op fs Hfs o. cbn [processFilter].
    apply keeps_bind; [| intros rs; repeat keeps_step].
    induction Hfs as [| x l Hx Hl IH]; [apply keeps_ret |].
    apply keeps_bind; [apply Hx | intros y].
    apply keeps_bind; [apply IH | intros ys; apply keeps_ret].
Qed.

Lemma keeps_processUserQuery q : keeps I (processUserQuery q).
Proof using I_frame I_create.
  unfold processUserQuery, processGroupBy, processGroupDimension, processSort, inferJoins.
  repeat first
    [ apply (proj1 keeps_process) | apply (proj2 keeps_process)
    | apply keeps_findOrCreateSourceNode | apply keeps_ensureRequiredColumns
    | keeps_step ].
Qed.

End Keeps.

Lemma optimize_keeps_parameters_aux (risky : bool) (g g' : ComputeGraph) (u : unit) :
  optimize risky g = Ok (u, g') -> parameters g' = parameters g.
Proof.
  intros H.
  apply (keeps_optimize (fun x => parameters x = parameters g)) with (3 := H);
    [| reflexivity].
  intros g1 g2 E H1. congruence.
Qed.

(** X17. [optimize] leaves the table of parameters as it is: no pass
    adds, removes or changes a parameter. *)
Theorem optimize_keeps_parameters (risky : bool) (g g' : ComputeGraph) (u : unit) :
  optimize risky g = Ok (u, g') -> parameters g' = parameters g.
Proof. apply optimize_keeps_parameters_aux. Qed.

Lemma optimize_keeps_parameters_witness :
  parameters (match after (optimize false)
                          (fromUserQuery not_two_children_query market_config) with
              | Ok g' => g'
              | Err _ => emptyGraph market_config
              end)
  = parameters (match fromUserQuery not_two_children_query market_config with
                | Ok g => g
                | Err _ => emptyGraph market_config
                end).
Proof.
  apply (optimize_keeps_parameters false _ _ tt).
  vm_compute. reflexivity.
Defined.

Lemma createParameterM_wf v op :
  keeps (fun g => parameters_wf (parameters g)) (createParameterM v op).
Proof.
  intros g s g' [Hn Hv] H. unfold createParameterM in H.
  rewrite (createParameter_on Z JS.String_Z (parameters g) v op Hn) in H.
  destruct v as [x | n | b | [| v0 rest]]; try (inversion H; subst; now split).
  - inversion H; subst; clear H. cbn [parameters]. split.
    + now apply named_in_order_snoc.
    + intros k w Hin. apply in_app_or in Hin. destruct Hin as [Hin | [E | []]].
      * now apply (Hv k).
      * inversion E; subst. exact I.
  - destruct (sameType (v0 :: rest)) eqn:Es; [| discriminate].
    inversion H; subst; clear H. cbn [parameters]. split.
    + now apply named_in_order_snoc.
    + intros k w Hin. apply in_app_or in Hin. destruct Hin as [Hin | [E | []]].
      * now apply (Hv k).
      * inversion E; subst. exact Es.
Qed.

(** X18. The parameters that [buildQuery] returns beside the statement:
    their names are [param_1], [param_2], ... in this order, without a gap,
    and each value is a string or an array that is not empty and whose
    elements have one type; no number and no boolean is among them. *)
Theorem buildQuery_parameters
        (DEFAULT_CONFIG : QueryBuilderConfig) (randomSuffix : NodeID -> string)
        (aliasRegExp_test : string -> string -> bool)
        (inlineWindowRegex_test : string -> bool)
        (req : UserQuery) (q : string) (ps : Dict.t (Value Z)) :
  buildQuery DEFAULT_CONFIG randomSuffix aliasRegExp_test inlineWindowRegex_test req
  = Ok (q, ps) ->
  Dict.keys ps = map paramName (seq 1 (length ps))
  /\ forall k v, In (k, v) ps -> stored_value v.
Proof.
  intros H. unfold buildQuery in H.
  destruct (after (optimize false) (fromUserQuery req DEFAULT_CONFIG)) as [g' |] eqn:E;
    [| discriminate].
  destruct (fromComputeGraph g' DEFAULT_CONFIG) as [ctx |]; [| discriminate].
  destruct (translateToSQL _ _ _ _ ctx) as [q' |]; [| discriminate].
  inversion H; subst; clear H.
  unfold after, fromUserQuery in E.
  destruct (processUserQuery req (emptyGraph DEFAULT_CONFIG)) as [[u g] |] eqn:E0;
    [| discriminate].
  destruct (optimize false g) as [[u' g''] |] eqn:E1; [| discriminate].
  inversion E; subst; clear E.
  rewrite (optimize_keeps_parameters_aux false g g' u' E1).
  apply (keeps_processUserQuery (fun x => parameters_wf (parameters x)))
    with (4 := E0).
  - intros g1 g2 Ep Hw. now rewrite Ep.
  - apply createParameterM_wf.
  - split; [reflexivity | intros k v []].
Qed.

Lemma buildQuery_parameters_witness :
  let ps : Dict.t (Value Z) := [("param_1", VString "Tech"); ("param_2", VString "US")] in
  Dict.keys ps = map paramName (seq 1 (length ps))
  /\ forall k v, In (k, v) ps -> stored_value v.
Proof.
  apply (buildQuery_parameters market_config no_random word_occurs inline_window
           not_two_children_query
           (match buildMarketQuery not_two_children_query with
            | Ok (q, _) => q
            | Err _ => ""
            end)).
  vm_compute. reflexivity.
Defined.

(** * [ensureRequiredColumns]: the walk along the first inputs ends *)





(** * [ensureRequiredColumns]: the columns that are always included *)

Lemma projectedColumns_app a b s :
  projectedColumns (a ++ b) s = (projectedColumns a s ++ projectedColumns b s)%list.
Proof. unfold projectedColumns. now rewrite filter_app, flat_map_app. Qed.

Lemma projectedColumns_set_isTerminal b m s :
  projectedColumns [set_isTerminal b m] s = projectedColumns [m] s.
Proof.
  unfold projectedColumns. cbn [filter].
  replace (type (set_isTerminal b m)) with (type m) by reflexivity.
  replace (inputs (set_isTerminal b m)) with (inputs m) by reflexivity.
  destruct (NodeType_eqb (type m) T_projection && JS.includes s (inputs m));
    [| reflexivity].
  cbn [flat_map].
  replace (columns (set_isTerminal b m)) with (columns m) by reflexivity.
  reflexivity.
Qed.

Lemma projectedColumns_update i b ns s :
  projectedColumns (update i (set_isTerminal b) ns) s = projectedColumns ns s.
Proof.
  induction ns as [| m ns IH]; [reflexivity |].
  cbn [update]. destruct (String.eqb (id m) i).
  - change (set_isTerminal b m :: ns) with ([set_isTerminal b m] ++ ns)%list.
    change (m :: ns) with ([m] ++ ns)%list.
    rewrite !projectedColumns_app.
    now rewrite projectedColumns_set_isTerminal.
  - change (m :: update i (set_isTerminal b) ns)
      with ([m] ++ update i (set_isTerminal b) ns)%list.
    change (m :: ns) with ([m] ++ ns)%list.
    rewrite !projectedColumns_app, IH. reflexivity.
Qed.

Lemma projectedColumns_fold_update b (l : list NodeID) ns s :
  projectedColumns (fold_left (fun acc j => update j (set_isTerminal b) acc) l ns) s
  = projectedColumns ns s.
Proof.
  revert ns. induction l as [| j l IH]; intros ns; simpl; [reflexivity |].
  now rewrite IH, projectedColumns_update.
Qed.

Lemma projectedColumns_addNode node ns s :
  ~ In (id node) (keys ns) ->
  projectedColumns (addNode_nodes node ns) s
  = (projectedColumns ns s ++ projectedColumns [node] s)%list.
Proof.
  intros Hf. unfold addNode_nodes.
  rewrite projectedColumns_update, projectedColumns_fold_update.
  rewrite (store_fresh node ns Hf). apply projectedColumns_app.
Qed.

Lemma sourceTables_app a b :
  sourceTables (a ++ b) = (sourceTables a ++ sourceTables b)%list.
Proof. unfold sourceTables. now rewrite filter_app, map_app. Qed.

Lemma sourceTables_set_isTerminal b m :
  sourceTables [set_isTerminal b m] = sourceTables [m].
Proof.
  unfold sourceTables. cbn [filter].
  replace (type (set_isTerminal b m)) with (type m) by reflexivity.
  destruct (NodeType_eqb (type m) T_source); reflexivity.
Qed.

Lemma sourceTables_update i b ns :
  sourceTables (update i (set_isTerminal b) ns) = sourceTables ns.
Proof.
  induction ns as [| m ns IH]; [reflexivity |].
  cbn [update]. destruct (String.eqb (id m) i).
  - change (set_isTerminal b m :: ns) with ([set_isTerminal b m] ++ ns)%list.
    change (m :: ns) with ([m] ++ ns)%list.
    rewrite !sourceTables_app. now rewrite sourceTables_set_isTerminal.
  - change (m :: update i (set_isTerminal b) ns)
      with ([m] ++ update i (set_isTerminal b) ns)%list.
    change (m :: ns) with ([m] ++ ns)%list.
    rewrite !sourceTables_app, IH. reflexivity.
Qed.

Lemma sourceTables_fold_update b (l : list NodeID) ns :
  sourceTables (fold_left (fun acc j => update j (set_isTerminal b) acc) l ns)
  = sourceTables ns.
Proof.
  revert ns. induction l as [| j l IH]; intros ns; simpl; [reflexivity |].
  now rewrite IH, sourceTables_update.
Qed.

Lemma sourceTables_addNode node ns :
  ~ In (id node) (keys ns) -> type node <> T_source ->
  sourceTables (addNode_nodes node ns) = sourceTables ns.
Proof.
  intros Hf Ht. unfold addNode_nodes.
  rewrite sourceTables_update, sourceTables_fold_update.
  rewrite (store_fresh node ns Hf), sourceTables_app.
  unfold sourceTables at 2. cbn [filter].
  destruct (NodeType_eqb (type node) T_source) eqn:E.
  - exfalso. apply Ht. destruct (type node); try discriminate E. reflexivity.
  - cbn [map]. apply app_nil_r.
Qed.

(** One missing column: the projection that is added for it. *)
Lemma add_required_spec sourceId c g u g' :
  built g -> In sourceId (keys (nodes g)) ->
  bind (generateNodeID T_projection)
       (fun i => bind (addNode (requiredProjection i sourceId c)) (fun _ => ret tt)) g
  = Ok (u, g') ->
  grows_built g g' /\ config g' = config g /\
  sourceTables (nodes g') = sourceTables (nodes g) /\
  forall s, projectedColumns (nodes g') s
            = (projectedColumns (nodes g) s
               ++ (if JS.includes s [sourceId] then [c] else []))%list.
Proof.
  intros Hb Hs H.
  unfold bind at 1 in H.
  destruct (generateNodeID T_projection g) as [[i g1] |] eqn:E; [| discriminate].
  destruct (gen_spec g T_projection i g1 Hb E) as (En & Hb1 & Hf & Hg).
  assert (Ec1 : config g1 = config g) by (unfold generateNodeID in E; now inversion E).
  unfold bind at 1 in H.
  destruct (addNode (requiredProjection i sourceId c) g1) as [[a g2] |] eqn:E2;
    [| discriminate].
  assert (Hin : incl (inputs (requiredProjection i sourceId c)) (keys (nodes g1))).
  { rewrite En. intros y [<- | []]. assumption. }
  assert (Hsrc : type (requiredProjection i sourceId c) = T_source ->
                 inputs (requiredProjection i sourceId c) = []) by discriminate.
  destruct (add_spec g1 (requiredProjection i sourceId c) a g2 Hb1 Hf Hg Hin Hsrc E2)
    as (Ea & Hb2 & Ek & _).
  inversion H; subst u g'; clear H.
  assert (Ec2 : config g2 = config g1 /\ nodes g2 = addNode_nodes (requiredProjection i sourceId c) (nodes g1)).
  { unfold addNode in E2. inversion E2. split; reflexivity. }
  destruct Ec2 as [Ec2 En2].
  split; [| split; [congruence | split]].
  - split; [assumption |]. rewrite Ek, En.
    intros x Hx. apply in_or_app. now left.
  - rewrite En2, sourceTables_addNode; [now rewrite En | exact Hf | discriminate].
  - intros s. rewrite En2, projectedColumns_addNode by exact Hf.
    rewrite En. f_equal. unfold projectedColumns.
    cbn [filter].
    replace (type (requiredProjection i sourceId c)) with T_projection by reflexivity.
    replace (inputs (requiredProjection i sourceId c)) with [sourceId] by reflexivity.
    cbn [NodeType_eqb andb].
    destruct (JS.includes s [sourceId]); reflexivity.
Qed.

Lemma includes_self s : JS.includes s [s] = true.
Proof. unfold JS.includes. cbn [existsb]. now rewrite String.eqb_refl. Qed.

(** The loop over the missing columns of one source. *)
Lemma add_missing_spec sourceId cs :
  forall g u g',
    built g -> In sourceId (keys (nodes g)) ->
    forEach (fun c =>
               bind (generateNodeID T_projection)
                    (fun i => bind (addNode (requiredProjection i sourceId c))
                                   (fun _ => ret tt))) cs g
    = Ok (u, g') ->
    grows_built g g' /\ config g' = config g /\
    sourceTables (nodes g') = sourceTables (nodes g) /\
    forall s, projectedColumns (nodes g') s
              = (projectedColumns (nodes g) s
                 ++ (if JS.includes s [sourceId] then cs else []))%list.
Proof.
  induction cs as [| c cs IH]; intros g u g' Hb Hs H; cbn [forEach] in H.
  - inversion H; subst. split; [now apply grows_refl |]. split; [reflexivity |].
    split; [reflexivity |].
    intros s. destruct (JS.includes s [sourceId]); now rewrite app_nil_r.
  - unfold bind at 1 in H.
    match type of H with
    | match ?body g with _ => _ end = _ => destruct (body g) as [[u1 g1] |] eqn:E1
    end; [| discriminate].
    destruct (add_required_spec sourceId c g u1 g1 Hb Hs E1) as (G1 & Ec1 & Et1 & Ep1).
    destruct (IH g1 u g' (proj1 G1) (grows_keys g g1 sourceId G1 Hs) H)
      as (G2 & Ec2 & Et2 & Ep2).
    split; [now apply (grows_trans g g1 g') |]. split; [congruence |].
    split; [congruence |].
    intros s. rewrite Ep2, Ep1, <- app_assoc.
    destruct (JS.includes s [sourceId]); reflexivity.
Qed.

Lemma In_uniq_acc x l : forall seen, In x l -> In x (JS.uniq_acc seen l) \/ In x seen.
Proof.
  induction l as [| y l IH]; intros seen Hx; [destruct Hx |].
  cbn [JS.uniq_acc]. destruct (JS.includes y seen) eqn:E.
  - destruct Hx as [<- | Hx]; [| now apply IH].
    right. unfold JS.includes in E. apply existsb_exists in E.
    destruct E as (z & Hz & Ez). apply String.eqb_eq in Ez. now subst.
  - destruct Hx as [<- | Hx]; [left; now left |].
    destruct (IH (y :: seen) Hx) as [H | [<- | H]].
    + left. now right.
    + left. now left.
    + now right.
Qed.

Lemma In_uniq x l : In x l -> In x (JS.uniq l).
Proof. intros H. destruct (In_uniq_acc x l [] H) as [H' | []]. exact H'. Qed.

Lemma sourceTables_In sn ns :
  In sn ns -> type sn = T_source -> In (id sn, table sn) (sourceTables ns).
Proof.
  intros Hin Ht. unfold sourceTables.
  apply (in_map (fun n => (id n, table n))). apply filter_In.
  split; [assumption |]. now rewrite Ht.
Qed.

Lemma sourceTables_source i t ns :
  In (i, t) (sourceTables ns) ->
  exists sn, In sn (filter (fun n => NodeType_eqb (type n) T_source) ns)
             /\ id sn = i /\ table sn = t.
Proof.
  unfold sourceTables. intros H. apply in_map_iff in H.
  destruct H as (sn & E & Hin). exists sn. inversion E. now repeat split.
Qed.

(** When [ensureRequiredColumns] returns, every source node of the graph
    has, for each column in [alwaysIncludeColumns] of its table, a
    projection node on it that projects this column by name. *)
Lemma ensureRequiredColumns_required
      (g : ComputeGraph) (u : unit) (g' : ComputeGraph) :
  built g -> ensureRequiredColumns g = Ok (u, g') ->
  forall sn tc l c,
    In sn (nodes g') -> type sn = T_source ->
    Dict.get (table_of sn) (tables (config g')) = Some tc ->
    TableConfig.alwaysIncludeColumns tc = Some l -> In c l ->
    In c (projectedColumns (nodes g') (id sn)).
Proof.
  intros Hb H. unfold ensureRequiredColumns in H.
  unfold bind at 1 in H. cbn [getNodes] in H.
  match type of H with
  | forEach ?b _ _ = _ => set (body := b) in H
  end.
  assert (Hloop : forall srcs g0 u0 g1,
             built g0 ->
             (forall s, In s srcs -> In (id s) (keys (nodes g0))) ->
             forEach body srcs g0 = Ok (u0, g1) ->
             (grows_built g0 g1 /\ config g1 = config g0 /\
              sourceTables (nodes g1) = sourceTables (nodes g0) /\
              forall s, incl (projectedColumns (nodes g0) s)
                             (projectedColumns (nodes g1) s))
             /\ forall s tc l c,
                 In s srcs ->
                 Dict.get (table_of s) (tables (config g0)) = Some tc ->
                 TableConfig.alwaysIncludeColumns tc = Some l -> In c l ->
                 In c (projectedColumns (nodes g1) (id s))).
  { clear. induction srcs as [| s0 srcs IH]; intros g0 u0 g1 Hb0 Hk0 H0;
      cbn [forEach] in H0.
    - inversion H0; subst. split.
      + split; [now apply grows_refl |]. split; [reflexivity |].
        split; [reflexivity |]. intros s. apply incl_refl.
      + intros s tc l c [].
    - unfold bind at 1 in H0.
      destruct (body s0 g0) as [[u1 g2] |] eqn:E1; [| discriminate].
      assert (Hstep : (grows_built g0 g2 /\ config g2 = config g0 /\
                       sourceTables (nodes g2) = sourceTables (nodes g0) /\
                       forall s, incl (projectedColumns (nodes g0) s)
                                      (projectedColumns (nodes g2) s))
                      /\ forall tc l c,
                          Dict.get (table_of s0) (tables (config g0)) = Some tc ->
                          TableConfig.alwaysIncludeColumns tc = Some l -> In c l ->
                          In c (projectedColumns (nodes g2) (id s0))).
      { unfold body in E1. unfold bind at 1 in E1. cbn [getConfig] in E1.
        destruct (Dict.get (table_of s0) (tables (config g0))) as [tableConfig |];
          [| discriminate].
        unfold bind at 1 in E1. cbn [getNodes] in E1.
        destruct (hasTimeBasedAggregation (nodes g0) (id s0)) as [hasTime |];
          [| discriminate].
        match type of E1 with
        | forEach _ (filter _ ?req) _ = _ => set (required := req) in E1
        end.
        destruct (add_missing_spec (id s0) _ g0 u1 g2 Hb0 (Hk0 s0 (or_introl eq_refl)) E1)
          as (G & Ec & Et & Ep).
        split.
        - split; [assumption |]. split; [assumption |]. split; [assumption |].
          intros s x Hx. rewrite Ep. apply in_or_app. now left.
        - intros tc l c Etc El Hc. inversion Etc; subst tc; clear Etc.
          assert (Hreq : In c required).
          { unfold required. rewrite El.
            destruct (hasTime && truthy (TableConfig.timeColumn tableConfig)).
            - apply In_uniq. apply in_or_app. left. now apply In_uniq.
            - now apply In_uniq. }
          rewrite Ep, includes_self. apply in_or_app.
          destruct (JS.includes c (projectedColumns (nodes g0) (id s0))) eqn:Einc.
          + left. now apply includes_In.
          + right. apply filter_In. split; [assumption |]. now rewrite Einc. }
      destruct Hstep as [(G1 & Ec1 & Et1 & Hp1) Hs0].
      assert (Hk2 : forall s, In s srcs -> In (id s) (keys (nodes g2))).
      { intros s Hs. apply (grows_keys g0 g2 (id s) G1). apply Hk0. now right. }
      destruct (IH g2 u0 g1 (proj1 G1) Hk2 H0) as [(G2 & Ec2 & Et2 & Hp2) Hrest].
      split.
      + split; [now apply (grows_trans g0 g2 g1) |]. split; [congruence |].
        split; [congruence |]. intros s. eapply incl_tran; [apply Hp1 | apply Hp2].
      + intros s tc l c [<- | Hs] Etc El Hc.
        * apply Hp2. now apply (Hs0 tc l c).
        * apply (Hrest s tc l c Hs); [now rewrite Ec1 | assumption | assumption]. }
  assert (Hkeys : forall s, In s (filter (fun n => NodeType_eqb (type n) T_source) (nodes g))
                            -> In (id s) (keys (nodes g))).
  { intros s Hs. apply filter_In in Hs. unfold keys. apply in_map. apply Hs. }
  destruct (Hloop _ g u g' Hb Hkeys H) as [(G & Ec & Et & _) Hall].
  intros sn tc l c Hin Ht Etc El Hc.
  pose proof (sourceTables_In sn (nodes g') Hin Ht) as Hst.
  rewrite Et in Hst. apply sourceTables_source in Hst.
  destruct Hst as (sn0 & Hsn0 & Eid & Etab).
  rewrite <- Eid. apply (Hall sn0 tc l c Hsn0); [| assumption | assumption].
  rewrite <- Ec. unfold table_of in *. now rewrite Etab.
Qed.

(** The constructor ends with [ensureRequiredColumns], which starts from a
    graph that has the invariants. *)
Lemma processUserQuery_last userQuery g u g' :
  built g -> processUserQuery userQuery g = Ok (u, g') ->
  exists g4, built g4 /\ ensureRequiredColumns g4 = Ok (u, g').
Proof.
  intros Hb H. unfold processUserQuery in H.
  bind_in H as r0 g0 E0.
  assert (Hnone : forall l0 : list string, @None (list string) = Some l0 ->
                                           incl l0 (keys (nodes g))) by discriminate.
  destruct (proj2 process_spec _ None g r0 g0 Hb Hnone E0) as [G0 _].
  bind_in H as u1 g1 E1.
  assert (G1 : grows_built g0 g1).
  { destruct (group_by userQuery) as [gs |].
    - bind_in E1 as rs g2 E2. inversion E1; subst.
      apply (processGroupBy_spec gs g0 rs g1 (proj1 G0) E2).
    - inversion E1; subst. apply grows_refl. apply G0. }
  bind_in H as u2 g2 E2.
  assert (G2 : grows_built g1 g2).
  { destruct (sort_by userQuery) as [ss |].
    - bind_in E2 as r g3 E3. inversion E2; subst.
      apply (processSort_spec ss g1 r g2 (proj1 G1) E3).
    - inversion E2; subst. apply grows_refl. apply G1. }
  bind_in H as u3 g3 E3.
  assert (G3 : grows_built g2 g3).
  { destruct (uq_limit userQuery) as [l |].
    - destruct (Z.eqb l 0).
      + inversion E3; subst. apply grows_refl. apply G2.
      + gen_in E3 (proj1 G2) as i g4 En Hb4 Hf Hg.
        add_in E3 Hb4 Hf Hg as g5 Hb5 Ek; [intros x [] | discriminate |].
        inversion E3; subst. split; [assumption |].
        rewrite Ek, En. intros x Hx. apply in_or_app. now left.
    - inversion E3; subst. apply grows_refl. apply G2. }
  bind_in H as u4 g4 E4.
  pose proof (inferJoins_spec g3 u4 g4 (proj1 G3) E4) as G4.
  exists g4. split; [apply G4 | exact H].
Qed.

(** X20.  In the graph that the constructor returns, every source node has,
    for each column in [alwaysIncludeColumns] of its table, a projection
    node on it that projects this column by name. *)
Theorem fromUserQuery_projects_required
        (userQuery : UserQuery) (cfg : QueryBuilderConfig) (g : ComputeGraph) :
  fromUserQuery userQuery cfg = Ok g ->
  forall sn tc l c,
    In sn (nodes g) -> type sn = T_source ->
    Dict.get (table_of sn) (tables (config g)) = Some tc ->
    TableConfig.alwaysIncludeColumns tc = Some l -> In c l ->
    In c (projectedColumns (nodes g) (id sn)).
Proof.
  intros H. unfold fromUserQuery in H.
  destruct (processUserQuery userQuery (emptyGraph cfg)) as [[u g0] |] eqn:E;
    [| discriminate].
  inversion H; subst g0; clear H.
  destruct (processUserQuery_last userQuery (emptyGraph cfg) u g (built_empty cfg) E)
    as (g4 & Hb4 & E4).
  exact (ensureRequiredColumns_required g4 u g Hb4 E4).
Qed.

Lemma fromUserQuery_projects_required_witness :
  let g := match fromUserQuery full_query market_config with
           | Ok g => g
           | Err _ => emptyGraph market_config
           end in
  In "date" (projectedColumns (nodes g) "source_1").
Proof.
  intros g.
  apply (fromUserQuery_projects_required full_query market_config g
           ltac:(vm_compute; reflexivity)
           (hd (mkNode "" T_limit []) (nodes g))
           {| TableConfig.name := "daily_agg"; TableConfig.timeColumn := Some "date";
              TableConfig.primaryKeys := ["ticker"];
              TableConfig.alwaysIncludeColumns := Some ["ticker"; "date"] |}
           ["ticker"; "date"] "date").
  - vm_compute. left. reflexivity.
  - vm_compute. reflexivity.
  - vm_compute. reflexivity.
  - reflexivity.
  - right. left. reflexivity.
Defined.
